(** * Nyaya-Setu: link discoverer and PDF acquirer

    A shallow embedding of [url-extractor/main.py] (class [WebCrawler]) and
    [research/PdfExtractor.py] (class [PDFScraper]), with the properties of
    the design document stated over it.

    Conventions.
    - A Python [str] is a [string]; every character stands for one code
      point below 256, so comparing characters by their number is Python's
      comparison of code points.
    - A Python [set] of strings is a [gset string]; a directory is a
      [gmap string string] from file names to file contents.
    - Python integers are [Z].
    - The network, the HTML parser, [urljoin] and the digest function are
      collaborators of the code; they are fields of an environment record
      and every general theorem quantifies over them.
    - The ten threads of the crawler's pool are interleaved at the places
      where a call reads or writes the two shared sets; a theorem about
      "every run" is a theorem about every schedule.
    - The acquirer's output directory is flat: a file is known by its name.

    The definitions come first (string operations, [urlparse], the two
    programs, the predicates the statements use), the theorems after them. *)

From Stdlib Require Import ZArith String Ascii List Lia Bool.
From stdpp Require Import gmap strings list fin_maps sorting pretty.

Local Open Scope string_scope.
Local Open Scope Z_scope.

(* stdpp's solvers clear hypotheses that are already gone. *)
#[local] Set Warnings "-clear-no-such-hyp".

(** ** Python string operations used by the two programs *)

Module PyStr.

Definition ord (c : ascii) : N := N_of_ascii c.

(** The double quote character (code point 34). *)
Definition dquote : ascii := ascii_of_N 34.
Definition LF : ascii := ascii_of_N 10.
Definition CR : ascii := ascii_of_N 13.

(** [s.endswith(suf)] *)
Fixpoint endswith (s suf : string) : bool :=
  if String.eqb s suf then true
  else match s with
       | EmptyString => false
       | String _ s' => endswith s' suf
       end.

(** [s.startswith(pre)] *)
Fixpoint startswith (s pre : string) : bool :=
  match pre, s with
  | EmptyString, _ => true
  | String _ _, EmptyString => false
  | String a pre', String b s' => Ascii.eqb a b && startswith s' pre'
  end.

(** [sub in s] *)
Fixpoint contains (s sub : string) : bool :=
  if startswith s sub then true
  else match s with
       | EmptyString => false
       | String _ s' => contains s' sub
       end.

(** [c in s] for a single character *)
Fixpoint has_char (c : ascii) (s : string) : bool :=
  match s with
  | EmptyString => false
  | String a s' => Ascii.eqb a c || has_char c s'
  end.

(** [c.lower()] on code points below 256: A-Z and the Latin-1 capitals
    (U+00C0-U+00DE without the multiplication sign U+00D7) move up by 32. *)
Definition lower_char (c : ascii) : ascii :=
  let n := ord c in
  if ((65 <=? n) && (n <=? 90) ||
      (192 <=? n) && (n <=? 222) && negb (n =? 215))%N
  then ascii_of_N (n + 32) else c.

(** [s.lower()] *)
Fixpoint lower (s : string) : string :=
  match s with
  | EmptyString => EmptyString
  | String c s' => String (lower_char c) (lower s')
  end.

(** [c.isspace()] on code points below 256. *)
Definition isspace (c : ascii) : bool :=
  let n := ord c in
  ((9 <=? n) && (n <=? 13) || (28 <=? n) && (n <=? 32) ||
   (n =? 133) || (n =? 160))%N.

(** [s.lstrip()] *)
Fixpoint lstrip (s : string) : string :=
  match s with
  | EmptyString => EmptyString
  | String c s' => if isspace c then lstrip s' else s
  end.

(** [s.rstrip()] *)
Fixpoint rstrip (s : string) : string :=
  match s with
  | EmptyString => EmptyString
  | String c s' =>
      match rstrip s' with
      | EmptyString => if isspace c then EmptyString else String c EmptyString
      | r => String c r
      end
  end.

(** [s.strip()] *)
Definition strip (s : string) : string := rstrip (lstrip s).

(** [s.partition(c)] for a one-character separator: the text before the
    first [c] and, when there is one, the text after it. *)
Fixpoint partition (c : ascii) (s : string) : string * option string :=
  match s with
  | EmptyString => (EmptyString, None)
  | String a s' =>
      if Ascii.eqb a c then (EmptyString, Some s')
      else let '(h, t) := partition c s' in (String a h, t)
  end.

(** [s.replace('.pdf', '')]: every non-overlapping occurrence, scanning
    from the left. *)
Fixpoint remove_dot_pdf (s : string) : string :=
  match s with
  | String "." (String "p" (String "d" (String "f" rest))) => remove_dot_pdf rest
  | String c s' => String c (remove_dot_pdf s')
  | EmptyString => EmptyString
  end.

(** Python's [<=] on strings: lexicographic on code points, a proper
    prefix being smaller. *)
Fixpoint leb (a b : string) : bool :=
  match a, b with
  | EmptyString, _ => true
  | String _ _, EmptyString => false
  | String x a', String y b' =>
      if (ord x <? ord y)%N then true
      else if (ord x =? ord y)%N then leb a' b'
      else false
  end.

Definition le (a b : string) : Prop := leb a b = true.

#[export] Instance le_dec a b : Decision (le a b) :=
  decide (leb a b = true).


(** [s.encode('utf-8')] for code points below 256: one byte below 128,
    two bytes from there on. *)
Definition utf8_char (c : ascii) : string :=
  let n := ord c in
  if (n <? 128)%N then String c EmptyString
  else String (ascii_of_N (192 + n / 64))
         (String (ascii_of_N (128 + n mod 64)) EmptyString).

Fixpoint encode_utf8 (s : string) : string :=
  match s with
  | EmptyString => EmptyString
  | String c s' => utf8_char c +:+ encode_utf8 s'
  end.


(** [sorted(xs)] for a collection of strings. *)
Definition sorted (xs : list string) : list string := merge_sort le xs.

End PyStr.

(** ** [urllib.parse.urlparse]

    A model of CPython's [urlparse] (3.12) for the generic URL syntax
    [scheme://netloc/path;params?query#fragment]. The checks that make
    CPython raise [ValueError] (unbalanced IPv6 brackets, a host that
    changes under NFKC normalisation) are outside the model. *)

Module UrlParse.
Import PyStr.

Record ParseResult := {
  scheme : string;
  netloc : string;
  path : string;
  params : string;
  query : string;
  fragment : string
}.

Definition is_alpha (c : ascii) : bool :=
  let n := ord c in
  ((65 <=? n) && (n <=? 90) || (97 <=? n) && (n <=? 122))%N.

Definition is_digit (c : ascii) : bool :=
  let n := ord c in ((48 <=? n) && (n <=? 57))%N.

(** [scheme_chars]: letters, digits and [+-.] *)
Definition scheme_char (c : ascii) : bool :=
  is_alpha c || is_digit c || has_char c "+-.".

Fixpoint all_chars (p : ascii -> bool) (s : string) : bool :=
  match s with
  | EmptyString => true
  | String c s' => p c && all_chars p s'
  end.

(** [url.lstrip(_WHATWG_C0_CONTROL_OR_SPACE)] *)
Fixpoint lstrip_c0 (s : string) : string :=
  match s with
  | EmptyString => EmptyString
  | String c s' => if (ord c <=? 32)%N then lstrip_c0 s' else s
  end.

(** Removal of tab, CR and LF ([_UNSAFE_URL_BYTES_TO_REMOVE]). *)
Fixpoint remove_unsafe (s : string) : string :=
  match s with
  | EmptyString => EmptyString
  | String c s' =>
      if ((ord c =? 9) || (ord c =? 10) || (ord c =? 13))%N
      then remove_unsafe s' else String c (remove_unsafe s')
  end.

(** The scheme test of [urlsplit]: a colon at a position [i > 0], a
    letter first, and only scheme characters before the colon. *)
Definition split_scheme (url : string) : string * string :=
  match partition ":" url with
  | (String c0 pre, Some rest) =>
      if is_alpha c0 && all_chars scheme_char (String c0 pre)
      then (lower (String c0 pre), rest)
      else (EmptyString, url)
  | _ => (EmptyString, url)
  end.

(** [_splitnetloc(url, 2)] on the text after the two slashes: the
    network location runs up to the first of [/], [?], [#]. *)
Fixpoint splitnetloc (s : string) : string * string :=
  match s with
  | EmptyString => (EmptyString, EmptyString)
  | String c s' =>
      if has_char c "/?#" then (EmptyString, s)
      else let '(n, r) := splitnetloc s' in (String c n, r)
  end.

Definition split_netloc (url : string) : string * string :=
  match url with
  | String "/" (String "/" rest) => splitnetloc rest
  | _ => (EmptyString, url)
  end.

Definition or_empty (o : option string) : string :=
  match o with Some s => s | None => EmptyString end.

(** [url.rfind('/')]-relative search of [_splitparams]: the parameters
    start at the first [;] of the last path segment. *)
Fixpoint last_segment_split (s : string) : string * option string :=
  match s with
  | EmptyString => (EmptyString, None)
  | String c s' =>
      if has_char "/" s' then
        let '(h, t) := last_segment_split s' in (String c h, t)
      else if Ascii.eqb c "/" then
        let '(h, t) := partition ";" s' in (String c h, t)
      else partition ";" s
  end.

Definition uses_params : list string :=
  [""; "ftp"; "hdl"; "prospero"; "http"; "imap"; "https"; "shttp";
   "rtsp"; "rtspu"; "sip"; "sips"; "mms"; "sftp"; "tel"].

Definition urlparse (url0 : string) : ParseResult :=
  let url := remove_unsafe (lstrip_c0 url0) in
  let '(sch, url) := split_scheme url in
  let '(loc, url) := split_netloc url in
  let '(url, frag) := partition "#" url in
  let '(url, qry) := partition "?" url in
  let '(url, prm) :=
    if bool_decide (sch ∈ uses_params) then last_segment_split url
    else (url, None) in
  {| scheme := sch; netloc := loc; path := url; params := or_empty prm;
     query := or_empty qry; fragment := or_empty frag |}.

(** [os.path.basename(p)]: the text after the last slash. *)
Fixpoint basename (p : string) : string :=
  match p with
  | EmptyString => EmptyString
  | String c p' =>
      if has_char "/" p then basename p' else p
  end.

End UrlParse.

(** ** The link discoverer: [url-extractor/main.py] *)

Module Crawler.
Import PyStr UrlParse.

(** The network and the URL library as [extract_urls] sees them.
    [get url = None] when [requests.get] raises a [RequestException]
    (connection error, timeout, unsupported scheme); otherwise the status
    code and the [href] values of the page's anchors
    ([soup.find_all('a', href=True)]), in document order.
    [urljoin url href = None] when resolving the link raises
    [ValueError]: in [urljoin(url, href)] itself (an [href] such as
    [http://[] with an unbalanced bracket), or when [is_valid_url] parses
    the result. This is not a [RequestException]: it ends the call of
    [extract_urls] with the exception. *)
Record Web := {
  get : string -> option (Z * list string);
  urljoin : string -> string -> option string
}.

(** [response.raise_for_status()] raises [HTTPError] for 4xx and 5xx. *)
Definition raise_for_status (status : Z) : bool :=
  (400 <=? status) && (status <? 600).

Record WebCrawler := {
  base_url : string;
  output_file : string;
  max_depth : Z;
  max_pages : Z;
  visited_urls : gset string;
  all_urls : gset string;
  domain : string
}.

(** [WebCrawler.__init__]. [parse_error] says that [urlparse(base_url)]
    raises [ValueError], as CPython does for a network location with
    unbalanced or ill-formed square brackets; [None] is that error, logged
    and raised again, or the [ValueError] of a start URL without a network
    location. *)
Definition __init__ (parse_error : bool) (base_url output_file : string)
    (max_depth max_pages : Z) : option WebCrawler :=
  if parse_error then None
  else
    let domain := netloc (urlparse base_url) in
    if String.eqb domain "" then None
    else Some {| base_url := base_url; output_file := output_file;
                 max_depth := max_depth; max_pages := max_pages;
                 visited_urls := ∅; all_urls := ∅; domain := domain |}.

Definition visited_add (url : string) (self : WebCrawler) : WebCrawler :=
  {| base_url := base_url self; output_file := output_file self;
     max_depth := max_depth self; max_pages := max_pages self;
     visited_urls := visited_urls self ∪ {[url]};
     all_urls := all_urls self; domain := domain self |}.

Definition all_add (url : string) (self : WebCrawler) : WebCrawler :=
  {| base_url := base_url self; output_file := output_file self;
     max_depth := max_depth self; max_pages := max_pages self;
     visited_urls := visited_urls self;
     all_urls := all_urls self ∪ {[url]}; domain := domain self |}.

Definition filtered_extensions : list string :=
  [".pdf"; ".jpg"; ".png"; ".gif"; ".css"; ".js"].

(** [WebCrawler.is_valid_url] *)
Definition is_valid_url (self : WebCrawler) (url : string) : bool :=
  let parsed := urlparse url in
  String.eqb (netloc parsed) (domain self) &&
  bool_decide (scheme parsed ∈ ["http"; "https"]) &&
  negb (existsb (fun ext => endswith url ext) filtered_extensions).

(** The guard of [extract_urls]. *)
Definition over_budget (self : WebCrawler) : bool :=
  max_pages self <=? Z.of_nat (size (visited_urls self)).

(** One turn of the [for link in ...] loop of [extract_urls]; [None]
    when the turn raises [ValueError], which it does before it has changed
    anything. *)
Definition visit_link (web : Web) (url : string)
    (st : WebCrawler * gset string) (href : string)
  : option (WebCrawler * gset string) :=
  let '(self, page_urls) := st in
  match urljoin web url href with
  | None => None
  | Some full_url =>
      if is_valid_url self full_url && negb (bool_decide (full_url ∈ all_urls self))
      then Some (all_add full_url self, page_urls ∪ {[full_url]})
      else Some (self, page_urls)
  end.

(** How a call of [extract_urls] ends: it returns a set, or a
    [ValueError] escapes it. *)
Inductive call_end :=
| Returned (page_urls : gset string)
| Raised.

(** The loop over the anchors: what the turns before a raising one did
    to the crawler stays done. *)
Fixpoint visit_links (web : Web) (url : string) (hrefs : list string)
    (st : WebCrawler * gset string) : WebCrawler * call_end :=
  match hrefs with
  | [] => (fst st, Returned (snd st))
  | href :: rest =>
      match visit_link web url st href with
      | Some st' => visit_links web url rest st'
      | None => (fst st, Raised)
      end
  end.

(** [WebCrawler.extract_urls], run without interruption: the new state
    of the crawler and how the call ends. *)
Definition extract_urls (web : Web) (self : WebCrawler) (url : string) (depth : Z)
  : WebCrawler * call_end :=
  if bool_decide (url ∈ visited_urls self) || (max_depth self <? depth)
     || over_budget self
  then (self, Returned ∅)
  else match get web url with
       | None => (self, Returned ∅)
       | Some (status, hrefs) =>
           if raise_for_status status then (self, Returned ∅)
           else visit_links web url hrefs (visited_add url self, ∅)
       end.

(** *** Worker threads

    [crawl] hands every frontier URL to a pool of ten threads. A call of
    [extract_urls] is cut at the places where it reads or writes the two
    shared sets; [worker] is the call's program counter with its local
    variables. *)
Inductive worker :=
| AtVisited (url : string)
    (* about to test [url in self.visited_urls] *)
| AtDepth (url : string)
    (* about to test [depth > self.max_depth] *)
| AtBudget (url : string)
    (* about to test [len(self.visited_urls) >= self.max_pages] *)
| AtGet (url : string)
    (* about to call [requests.get] and [raise_for_status] *)
| AtMark (url : string) (hrefs : list string)
    (* about to run [self.visited_urls.add(url)] *)
| AtLink (url : string) (hrefs : list string) (page_urls : gset string)
    (* at the head of the loop, [hrefs] still to come *)
| AtAdd (url full_url : string) (hrefs : list string) (page_urls : gset string).
    (* the test passed: about to add [full_url] to both sets *)

(** One atomic step of a worker: the crawler after it and either the
    worker's next position or the way the call ends. *)
Definition worker_step (web : Web) (depth : Z) (self : WebCrawler) (w : worker)
  : WebCrawler * (worker + call_end) :=
  match w with
  | AtVisited url =>
      if bool_decide (url ∈ visited_urls self) then (self, inr (Returned ∅))
      else (self, inl (AtDepth url))
  | AtDepth url =>
      if max_depth self <? depth then (self, inr (Returned ∅))
      else (self, inl (AtBudget url))
  | AtBudget url =>
      if over_budget self then (self, inr (Returned ∅))
      else (self, inl (AtGet url))
  | AtGet url =>
      match get web url with
      | None => (self, inr (Returned ∅))
      | Some (status, hrefs) =>
          if raise_for_status status then (self, inr (Returned ∅))
          else (self, inl (AtMark url hrefs))
      end
  | AtMark url hrefs => (visited_add url self, inl (AtLink url hrefs ∅))
  | AtLink url [] page_urls => (self, inr (Returned page_urls))
  | AtLink url (href :: hrefs) page_urls =>
      match urljoin web url href with
      | None => (self, inr Raised)
      | Some full_url =>
          if is_valid_url self full_url
             && negb (bool_decide (full_url ∈ all_urls self))
          then (self, inl (AtAdd url full_url hrefs page_urls))
          else (self, inl (AtLink url hrefs page_urls))
      end
  | AtAdd url full_url hrefs page_urls =>
      (all_add full_url self, inl (AtLink url hrefs (page_urls ∪ {[full_url]})))
  end.

(** [ThreadPoolExecutor(max_workers=10)] *)
Definition max_workers : nat := 10.

(** One depth level in flight: the crawler, the submitted calls that no
    thread has picked up yet, the calls in progress, and [next_urls]. *)
Record pool := {
  crawler : WebCrawler;
  queue : list string;
  running : list worker;
  next_urls : gset string
}.

(** What the scheduler can do: let an idle thread start the [k]-th
    waiting call, or let the [i]-th call in progress take one step. (The
    frontier is a [set], whose iteration order Python leaves open, so any
    waiting call may be the next to start.) When a call returns, its set
    goes into [next_urls] ([next_urls.update(new_urls)]); when it raised,
    [future.result()] raises in [crawl], the handler logs the exception
    and [next_urls] stays as it is. *)
Inductive action := Start (k : nat) | Advance (i : nat).

Definition apply_action (web : Web) (depth : Z) (p : pool) (a : action) : pool :=
  match a with
  | Start k =>
      match queue p !! k with
      | Some url =>
          if bool_decide (length (running p) < max_workers)%nat then
            {| crawler := crawler p; queue := delete k (queue p);
               running := running p ++ [AtVisited url];
               next_urls := next_urls p |}
          else p
      | None => p
      end
  | Advance i =>
      match running p !! i with
      | Some w =>
          match worker_step web depth (crawler p) w with
          | (c, inl w') =>
              {| crawler := c; queue := queue p;
                 running := <[i := w']> (running p);
                 next_urls := next_urls p |}
          | (c, inr (Returned new_urls)) =>
              {| crawler := c; queue := queue p;
                 running := delete i (running p);
                 next_urls := next_urls p ∪ new_urls |}
          | (c, inr Raised) =>
              {| crawler := c; queue := queue p;
                 running := delete i (running p);
                 next_urls := next_urls p |}
          end
      | None => p
      end
  end.

Definition run (web : Web) (depth : Z) (sched : list action) (p : pool) : pool :=
  fold_left (apply_action web depth) sched p.

(** Leaving the [with] block waits for every submitted call. After the
    given schedule the remaining work is done one call at a time. *)
Definition next_action (p : pool) : option action :=
  match running p, queue p with
  | _ :: _, _ => Some (Advance 0)
  | [], _ :: _ => Some (Start 0)
  | [], [] => None
  end.

Fixpoint finish (web : Web) (depth : Z) (fuel : nat) (p : pool) : pool :=
  match fuel with
  | O => p
  | S fuel' =>
      match next_action p with
      | Some a => finish web depth fuel' (apply_action web depth p a)
      | None => p
      end
  end.

(** An upper bound on the steps a call still takes. *)
Definition hrefs_of (web : Web) (url : string) : list string :=
  match get web url with
  | Some (_, hrefs) => hrefs
  | None => []
  end.

Definition steps_left (web : Web) (w : worker) : nat :=
  match w with
  | AtVisited url => 6 + 2 * length (hrefs_of web url)
  | AtDepth url => 5 + 2 * length (hrefs_of web url)
  | AtBudget url => 4 + 2 * length (hrefs_of web url)
  | AtGet url => 3 + 2 * length (hrefs_of web url)
  | AtMark _ hrefs => 2 + 2 * length hrefs
  | AtLink _ hrefs _ => 1 + 2 * length hrefs
  | AtAdd _ _ hrefs _ => 2 + 2 * length hrefs
  end%nat.

Definition work_left (web : Web) (p : pool) : nat :=
  (list_sum (map (steps_left web) (running p)) +
   list_sum (map (fun url => S (steps_left web (AtVisited url))) (queue p)))%nat.

(** One pass of the [for depth in ...] loop, up to [current_urls =
    next_urls]. *)
Definition start_pool (self : WebCrawler) (current_urls : gset string) : pool :=
  {| crawler := self; queue := elements current_urls;
     running := []; next_urls := ∅ |}.

Definition level (web : Web) (depth : Z) (sched : list action)
    (self : WebCrawler) (current_urls : gset string) : WebCrawler * gset string :=
  let p0 := start_pool self current_urls in
  let p1 := run web depth sched p0 in
  let p2 := finish web depth (work_left web p1) p1 in
  (crawler p2, next_urls p2).

(** The loop of [crawl]: [n] passes remain; the result counts the passes
    made. *)
Fixpoint crawl_loop (web : Web) (sched : Z -> list action) (n : nat) (depth : Z)
    (self : WebCrawler) (current_urls : gset string) : WebCrawler * nat :=
  match n with
  | O => (self, O)
  | S n' =>
      let '(self', next) := level web depth (sched depth) self current_urls in
      if bool_decide (next = ∅) then (self', 1%nat)
      else let '(self'', k) := crawl_loop web sched n' (depth + 1) self' next in
           (self'', S k)
  end.

(** The text written to the output file: [f.write(f"{url}\n")] for every
    [url] of [sorted(self.all_urls)]. *)
Definition output_lines (self : WebCrawler) : list string :=
  sorted (elements (all_urls self)).

Fixpoint write_lines (lines : list string) : string :=
  match lines with
  | [] => EmptyString
  | l :: ls => l +:+ String LF (write_lines ls)
  end.

Record crawl_result := {
  final : WebCrawler;
  levels : nat;
  disk : gmap string string;
  returned : gset string
}.

(** [WebCrawler.crawl]. [fs] maps paths to the bytes of the files;
    opening the output file with mode ['w'] replaces what was there, and
    [encoding='utf-8'] makes the text written UTF-8. *)
Definition crawl (web : Web) (sched : Z -> list action) (fs : gmap string string)
    (self : WebCrawler) : crawl_result :=
  let '(self', k) :=
    crawl_loop web sched (Z.to_nat (max_depth self)) 0 self {[base_url self]} in
  {| final := self'; levels := k;
     disk := <[output_file self' :=
                 encode_utf8 (write_lines (output_lines self'))]> fs;
     returned := all_urls self' |}.

(** *** Every point of a run

    The pools a run of [crawl] can pass through, whatever the scheduler
    does: the first level starts from the start URL, any action may
    follow, and when a level has drained and found something new, the next
    level starts from what it found. *)
Inductive reachable (web : Web) (self : WebCrawler) : Z -> pool -> Prop :=
| reach_first :
    0 < max_depth self ->
    reachable web self 0 (start_pool self {[base_url self]})
| reach_action depth p a :
    reachable web self depth p ->
    reachable web self depth (apply_action web depth p a)
| reach_level depth p :
    reachable web self depth p ->
    queue p = [] -> running p = [] -> next_urls p ≠ ∅ ->
    depth + 1 < max_depth self ->
    reachable web self (depth + 1) (start_pool (crawler p) (next_urls p)).

Definition worker_url (w : worker) : string :=
  match w with
  | AtVisited url | AtDepth url | AtBudget url | AtGet url
  | AtMark url _ | AtLink url _ _ | AtAdd url _ _ _ => url
  end.

(** A call is in flight when it has passed the page-budget test and has
    not yet entered its URL into [visited_urls]. *)
Definition in_flight (w : worker) : bool :=
  match w with
  | AtGet _ | AtMark _ _ => true
  | _ => false
  end.

(** A crawler as [__init__] leaves it. *)
Definition fresh (self : WebCrawler) : Prop :=
  visited_urls self = ∅ /\ all_urls self = ∅ /\
  domain self = netloc (urlparse (base_url self)) /\ domain self <> "".

(** *** The eligibility test in the words of the design document

    Host equal to the fixed domain, scheme http or https, and the *path*
    not ending in one of the six extensions. *)
Definition eligible_by_path (self : WebCrawler) (url : string) : bool :=
  let parsed := urlparse url in
  String.eqb (netloc parsed) (domain self) &&
  bool_decide (scheme parsed ∈ ["http"; "https"]) &&
  negb (existsb (fun ext => endswith (path parsed) ext) filtered_extensions).

(** *** Example sites *)

Definition example_crawler (base_url : string) : WebCrawler :=
  {| base_url := base_url; output_file := "./discovered_urls.txt";
     max_depth := 10; max_pages := 500;
     visited_urls := ∅; all_urls := ∅;
     domain := netloc (urlparse base_url) |}.

(** A site whose only page, at [url], answers 200 and has the given
    anchors; [urljoin] is only ever asked about absolute links. *)
Definition one_page (url : string) (hrefs : list string) : Web :=
  {| get := fun u => if String.eqb u url then Some (200, hrefs) else None;
     urljoin := fun _ href => Some href |}.

(** The scheduler that leaves everything to the closing of the pool. *)
Definition idle : Z -> list action := fun _ => [].

End Crawler.

(** ** The acquirer: [research/PdfExtractor.py] *)

Module Scraper.
Import PyStr UrlParse.

(** An anchor of the parsed page: its [href] and its [class] list. *)
Record Anchor := { href : string; classes : list string }.

(** What [requests.get] returns. [pdf_containers] is the parsed view of
    [response.text] that [extract_pdf_links] reads: for every element
    matching [span.pdf-downloads], its anchors with an [href].
    [chunks] is what [iter_content] yields; [stream_breaks] says that the
    iterator raises once the chunks are delivered (connection lost).
    [content_type] is only looked at for a warning in the log. *)
Record Response := {
  status_code : Z;
  content_type : option string;
  content_disposition : option string;
  pdf_containers : list (list Anchor);
  chunks : list string;
  stream_breaks : bool
}.

(** The collaborators. [requests_get url = None] when the call raises.
    [urljoin base href = None] when [urljoin] raises [ValueError] (an
    [href] with an unbalanced square bracket, for one).
    [md5_hexdigest] is [hashlib.md5(...).hexdigest()]. *)
Record Env := {
  requests_get : string -> option Response;
  urljoin : string -> string -> option string;
  md5_hexdigest : string -> string
}.

(** The scraper object together with the contents of its output
    directory, keyed by file name. *)
Record PDFScraper := {
  downloaded_urls : gset string;
  downloaded_hashes : gset string;
  files : gmap string string
}.

(** [os.path.join(output_dir, "download_history.txt")], as a name inside
    the output directory. *)
Definition history_file : string := "download_history.txt".

(** *** Text files *)

(** [f.readlines()] in text mode: a line ends at LF, CR or CR LF, and the
    terminator is handed over as LF (universal newlines). *)
Fixpoint readlines (text : string) : list string :=
  match text with
  | EmptyString => []
  | String c rest =>
      if Ascii.eqb c LF then String LF EmptyString :: readlines rest
      else if Ascii.eqb c CR then
        match rest with
        | String c' rest' =>
            if Ascii.eqb c' LF then String LF EmptyString :: readlines rest'
            else String LF EmptyString :: readlines rest
        | EmptyString => [String LF EmptyString]
        end
      else match readlines rest with
           | [] => [String c EmptyString]
           | l :: ls => String c l :: ls
           end
  end.

Definition read_history (files : gmap string string) : gset string :=
  match files !! history_file with
  | Some text => list_to_set (map strip (readlines text))
  | None => ∅
  end.

(** [PDFScraper.__init__] over an output directory with the given
    contents (a directory that does not exist yet is created empty). *)
Definition __init__ (files : gmap string string) : PDFScraper :=
  {| downloaded_urls := read_history files;
     downloaded_hashes := ∅;
     files := files |}.

(** *** Computations that may raise

    A method runs on the scraper and either returns, lets an exception
    escape, or is cut off because a loop ran out of fuel. Whatever it did
    to the scraper and the directory before stays done. *)
Inductive result (A : Type) :=
| Returns (a : A)
| Raises
| Diverges.
Arguments Returns {A} a.
Arguments Raises {A}.
Arguments Diverges {A}.

Definition M (A : Type) : Type := PDFScraper -> result A * PDFScraper.

Definition ret {A} (a : A) : M A := fun s => (Returns a, s).
Definition raise {A} : M A := fun s => (Raises, s).
Definition bind {A B} (m : M A) (k : A -> M B) : M B :=
  fun s => match m s with
           | (Returns a, s') => k a s'
           | (Raises, s') => (Raises, s')
           | (Diverges, s') => (Diverges, s')
           end.
(** [try: body except Exception: handler] *)
Definition try_except {A} (body handler : M A) : M A :=
  fun s => match body s with
           | (Raises, s') => handler s'
           | r => r
           end.
Definition gets {A} (f : PDFScraper -> A) : M A := fun s => (Returns (f s), s).
Definition modify (f : PDFScraper -> PDFScraper) : M unit :=
  fun s => (Returns tt, f s).

Notation "'let*' x := m 'in' k" := (bind m (fun x => k))
  (at level 10, x name, m at level 100, k at level 200, only parsing).

Definition set_files (f : gmap string string -> gmap string string)
    (s : PDFScraper) : PDFScraper :=
  {| downloaded_urls := downloaded_urls s;
     downloaded_hashes := downloaded_hashes s;
     files := f (files s) |}.

Section WithEnv.
Variable env : Env.

(** [PDFScraper.save_url_to_history]: mode ["a"] creates the file when
    it is missing and writes at its end. *)
Definition append_line (url : string) (files : gmap string string)
  : gmap string string :=
  <[history_file := default EmptyString (files !! history_file)
                      +:+ url +:+ String LF EmptyString]> files.

Definition save_url_to_history (url : string) : M unit :=
  modify (set_files (append_line url)).

(** [PDFScraper._calculate_file_hash] *)
Definition _calculate_file_hash (filepath : string) : M string :=
  fun s => match files s !! filepath with
           | Some content => (Returns (md5_hexdigest env content), s)
           | None => (Raises, s)
           end.

(** [re.findall('filename="(.+)"', header)], first match. *)
Fixpoint line_of (s : string) : string :=
  match s with
  | EmptyString => EmptyString
  | String c s' => if Ascii.eqb c LF then EmptyString else String c (line_of s')
  end.

Fixpoint before_last_quote (s : string) : option string :=
  match s with
  | EmptyString => None
  | String c s' =>
      match before_last_quote s' with
      | Some p => Some (String c p)
      | None => if Ascii.eqb c dquote then Some EmptyString else None
      end
  end.

Fixpoint skip (n : nat) (s : string) : string :=
  match n, s with
  | S n', String _ s' => skip n' s'
  | _, _ => s
  end.

Fixpoint disposition_filename (header : string) : option string :=
  match header with
  | EmptyString => None
  | String _ rest =>
      if startswith header ("filename=" +:+ String dquote EmptyString) then
        match before_last_quote (line_of (skip 10 header)) with
        | Some (String c name) => Some (String c name)
        | _ => disposition_filename rest
        end
      else disposition_filename rest
  end.

(** Lines 59-75 of [download_pdf]: the file name before collisions are
    resolved. *)
Definition falsy (filename : option string) : bool :=
  match filename with
  | None | Some EmptyString => true
  | Some _ => false
  end.

Definition ensure_pdf (filename : string) : string :=
  if endswith (lower filename) ".pdf" then filename else filename +:+ ".pdf".

Definition url_filename (url : string) : string :=
  let filename := basename (path (urlparse url)) in
  if String.eqb filename "" || negb (endswith (lower filename) ".pdf")
  then md5_hexdigest env url +:+ ".pdf"
  else filename.

Definition choose_filename (url : string) (filename : option string)
    (response : Response) : string :=
  let filename :=
    if falsy filename then
      let filename :=
        match content_disposition response with
        | Some header =>
            match disposition_filename header with
            | Some name => Some name
            | None => filename
            end
        | None => filename
        end in
      if falsy filename then Some (url_filename url) else filename
    else filename in
  ensure_pdf (default EmptyString filename).

(** Lines 80-85: the [while os.path.exists(filepath)] loop. [fuel]
    bounds the number of further names tried. *)
Definition suffixed (original_filename : string) (counter : Z) : string :=
  original_filename +:+ "_" +:+ pretty counter +:+ ".pdf".

Fixpoint unused_name (files : gmap string string) (original_filename : string)
    (fuel : nat) (counter : Z) (filename : string) : option string :=
  match files !! filename with
  | None => Some filename
  | Some _ =>
      match fuel with
      | O => None
      | S fuel' =>
          unused_name files original_filename fuel' (counter + 1)
            (suffixed original_filename counter)
      end
  end.

Definition resolve_collisions (filename : string) : M string :=
  fun s => match unused_name (files s) (remove_dot_pdf filename)
                   (S (size (files s))) 1 filename with
           | Some name => (Returns name, s)
           | None => (Diverges, s)
           end.

(** Lines 88-91: the file is created and the chunks are written to it;
    a broken stream raises after that. *)
Definition write_body (filepath : string) (response : Response) : M unit :=
  let* _ := modify (set_files (<[filepath := String.concat EmptyString (chunks response)]>)) in
  if stream_breaks response then raise else ret tt.

Definition record_download (url file_hash : string) (s : PDFScraper) : PDFScraper :=
  {| downloaded_urls := downloaded_urls s ∪ {[url]};
     downloaded_hashes := downloaded_hashes s ∪ {[file_hash]};
     files := files s |}.

(** [PDFScraper.download_pdf] *)
Definition download_pdf (url : string) (filename : option string) : M bool :=
  let* known := gets (fun s => bool_decide (url ∈ downloaded_urls s)) in
  if known then ret false
  else
    try_except
      (match requests_get env url with
       | None => raise
       | Some response =>
           if negb (status_code response =? 200) then ret false
           else
             let filename := choose_filename url filename response in
             let* filepath := resolve_collisions filename in
             let* _ := write_body filepath response in
             let* file_hash := _calculate_file_hash filepath in
             let* dup := gets (fun s => bool_decide (file_hash ∈ downloaded_hashes s)) in
             if dup then
               let* _ := modify (set_files (delete filepath)) in ret false
             else
               let* _ := modify (record_download url file_hash) in
               let* _ := save_url_to_history url in
               ret true
       end)
      (ret false).

(** [PDFScraper.extract_pdf_links] *)
Definition is_pdf_link (a : Anchor) : bool :=
  negb (String.eqb (href a) "") &&
  (contains (lower (href a)) ".pdf" || bool_decide ("download" ∈ classes a)).

(** The links of one container; [None] when [urljoin] raises. *)
Fixpoint container_links (base_url : string) (links : list Anchor)
  : option (list string) :=
  match links with
  | [] => Some []
  | link :: rest =>
      if is_pdf_link link then
        match urljoin env base_url (href link) with
        | None => None
        | Some full_url =>
            option_map (cons full_url) (container_links base_url rest)
        end
      else container_links base_url rest
  end.

Fixpoint extract_pdf_links (html : list (list Anchor)) (base_url : string)
  : option (list string) :=
  match html with
  | [] => Some []
  | container :: rest =>
      match container_links base_url container with
      | None => None
      | Some links => option_map (app links) (extract_pdf_links rest base_url)
      end
  end.

(** The [for pdf_url in pdf_links] loop of [scrape_page]. *)
Fixpoint download_each (pdf_links : list string) (downloaded_count : Z) : M Z :=
  match pdf_links with
  | [] => ret downloaded_count
  | pdf_url :: rest =>
      let* ok := download_pdf pdf_url None in
      download_each rest (if ok then downloaded_count + 1
                          else downloaded_count)
  end.

(** [PDFScraper.scrape_page] *)
Definition scrape_page (url : string) : M Z :=
  try_except
    (match requests_get env url with
     | None => raise
     | Some response =>
         if negb (status_code response =? 200) then ret 0
         else match extract_pdf_links (pdf_containers response) url with
              | None => raise
              | Some pdf_links => download_each pdf_links 0
              end
     end)
    (ret 0).

(** [PDFScraper.scrape_multiple_pages] *)
Fixpoint scrape_pages (urls : list string) (total_downloaded : Z) : M Z :=
  match urls with
  | [] => ret total_downloaded
  | url :: rest =>
      let* downloaded := scrape_page url in
      scrape_pages rest (total_downloaded + downloaded)
  end.

Definition scrape_multiple_pages (urls : list string) : M Z :=
  scrape_pages urls 0.

End WithEnv.

(** A run of the program's entry point on a directory: build the
    scraper, scrape the pages; the count and the directory afterwards. *)
Definition run (env : Env) (urls : list string) (dir : gmap string string)
  : result Z * gmap string string :=
  let '(r, s) := scrape_multiple_pages env urls (__init__ dir) in (r, files s).

End Scraper.


(** ** The discoverer: what stays true during a run *)

Module CrawlerInv.
Import PyStr UrlParse Crawler.

(** The configuration [__init__] fixed stays as it is. *)
Definition same_config (a b : WebCrawler) : Prop :=
  base_url a = base_url b /\ output_file a = output_file b /\
  max_depth a = max_depth b /\ max_pages a = max_pages b /\
  domain a = domain b.

(** Where a URL on the frontier comes from. *)
Definition known (self0 c : WebCrawler) (url : string) : Prop :=
  url = base_url self0 \/ url ∈ all_urls c.

Definition worker_ok (self0 c : WebCrawler) (w : worker) : Prop :=
  known self0 c (worker_url w) /\
  match w with
  | AtLink _ _ page_urls => page_urls ⊆ all_urls c
  | AtAdd _ full_url _ page_urls =>
      page_urls ⊆ all_urls c /\ is_valid_url self0 full_url = true
  | _ => True
  end.

Definition weight (w : worker) : nat := if in_flight w then 1 else 0.

Definition soft_cap (self0 : WebCrawler) : Z :=
  Z.max 0 (max_pages self0 + Z.of_nat max_workers - 1).

Record crawl_inv (self0 : WebCrawler) (p : pool) : Prop := {
  inv_config : same_config (crawler p) self0;
  inv_all : forall u, u ∈ all_urls (crawler p) -> is_valid_url self0 u = true;
  inv_visited : forall u, u ∈ visited_urls (crawler p) -> known self0 (crawler p) u;
  inv_queue : forall u, u ∈ queue p -> known self0 (crawler p) u;
  inv_running : forall w, w ∈ running p -> worker_ok self0 (crawler p) w;
  inv_next : next_urls p ⊆ all_urls (crawler p);
  inv_workers : (length (running p) <= max_workers)%nat;
  inv_budget :
    Z.of_nat (size (visited_urls (crawler p))) +
    Z.of_nat (list_sum (map weight (running p))) <= soft_cap self0
}.

Definition outcome_weight (r : worker + call_end) : nat :=
  match r with inl w => weight w | inr _ => 0%nat end.

Definition outcome_ok (self0 c : WebCrawler) (r : worker + call_end) : Prop :=
  match r with
  | inl w => worker_ok self0 c w
  | inr (Returned new_urls) => new_urls ⊆ all_urls c
  | inr Raised => True
  end.


(** The pool a level ends with. *)
Definition level_end (web : Web) (depth : Z) (sched : list action)
    (self : WebCrawler) (current_urls : gset string) : pool :=
  let p1 := run web depth sched (start_pool self current_urls) in
  finish web depth (work_left web p1) p1.

(** A start page without eligible links: none of its anchors resolves
    to a URL that passes [is_valid_url]. *)
Definition no_eligible_links (web : Web) (self : WebCrawler) : bool :=
  forallb (fun href =>
             match urljoin web (base_url self) href with
             | Some full_url => negb (is_valid_url self full_url)
             | None => true
             end)
          (hrefs_of web (base_url self)).

Definition dead_links (web : Web) (self : WebCrawler) (hrefs : list string) : Prop :=
  forall href full_url,
    href ∈ hrefs -> urljoin web (base_url self) href = Some full_url ->
    is_valid_url self full_url = false.

(** The start page leads nowhere: whenever its fetch goes through, its
    anchors are dead links. *)
Definition dead_page (web : Web) (self : WebCrawler) : Prop :=
  forall status hrefs,
    get web (base_url self) = Some (status, hrefs) ->
    raise_for_status status = false ->
    dead_links web self hrefs.

(** A call on such a page never gets to add anything. *)
Definition dead_worker (web : Web) (self : WebCrawler) (w : worker) : Prop :=
  worker_url w = base_url self /\
  match w with
  | AtMark _ hrefs => dead_links web self hrefs
  | AtLink _ hrefs page_urls => dead_links web self hrefs /\ page_urls = ∅
  | AtAdd _ _ _ _ => False
  | _ => True
  end.

Definition dead_end (web : Web) (self : WebCrawler) (p : pool) : Prop :=
  all_urls (crawler p) = ∅ /\ domain (crawler p) = domain self /\
  next_urls p = ∅ /\
  (forall u, u ∈ queue p -> u = base_url self) /\
  (forall w, w ∈ running p -> dead_worker web self w).

End CrawlerInv.

(** ** The acquirer: outcomes of a download and what a run preserves *)

Module ScraperInv.
Import PyStr UrlParse Scraper.

(** The bytes of a response, as [write_body] stores them. *)
Definition body (response : Response) : string :=
  String.concat EmptyString (chunks response).

(** The name [download_pdf] writes to for a response to [url]. *)
Definition stored_name (env : Env) (url : string) (filename : option string)
    (response : Response) (s : PDFScraper) : option string :=
  let filename := choose_filename env url filename response in
  unused_name (files s) (remove_dot_pdf filename) (S (size (files s))) 1 filename.

(** The ways a call [download_pdf(url, filename)] can go, with what it
    returns and the state it leaves: the state machine of the design
    document, and the stream that breaks while the file is written. *)
Inductive download_outcome (env : Env) (url : string) (filename : option string)
    (s : PDFScraper) : bool -> PDFScraper -> Prop :=
| AlreadyDownloaded :
    url ∈ downloaded_urls s ->
    download_outcome env url filename s false s
| FetchRaised :
    url ∉ downloaded_urls s ->
    requests_get env url = None ->
    download_outcome env url filename s false s
| FetchFailed response :
    url ∉ downloaded_urls s ->
    requests_get env url = Some response ->
    status_code response <> 200 ->
    download_outcome env url filename s false s
| StreamBroken response name :
    url ∉ downloaded_urls s ->
    requests_get env url = Some response ->
    status_code response = 200 ->
    stored_name env url filename response s = Some name ->
    stream_breaks response = true ->
    download_outcome env url filename s false
      (set_files (<[name := body response]>) s)
| Duplicate response name :
    url ∉ downloaded_urls s ->
    requests_get env url = Some response ->
    status_code response = 200 ->
    stored_name env url filename response s = Some name ->
    stream_breaks response = false ->
    md5_hexdigest env (body response) ∈ downloaded_hashes s ->
    download_outcome env url filename s false
      (set_files (delete name) (set_files (<[name := body response]>) s))
| Accepted response name :
    url ∉ downloaded_urls s ->
    requests_get env url = Some response ->
    status_code response = 200 ->
    stored_name env url filename response s = Some name ->
    stream_breaks response = false ->
    md5_hexdigest env (body response) ∉ downloaded_hashes s ->
    download_outcome env url filename s true
      (set_files (append_line url)
         (record_download url (md5_hexdigest env (body response))
            (set_files (<[name := body response]>) s))).

(** A text file is terminated when it is empty or its last character is
    a line break. *)
Definition is_newline (c : ascii) : bool := Ascii.eqb c LF || Ascii.eqb c CR.

Fixpoint terminated (text : string) : bool :=
  match text with
  | EmptyString => true
  | String c EmptyString => is_newline c
  | String _ rest => terminated rest
  end.

Definition history_terminated (files : gmap string string) : bool :=
  match files !! history_file with
  | Some text => terminated text
  | None => true
  end.

(** A URL that survives being written on a line of its own and read
    back: not empty, no line break inside, no white space at either end. *)
Definition line_safe (url : string) : bool :=
  negb (String.eqb url "") && negb (has_char LF url) && negb (has_char CR url)
  && String.eqb (strip url) url.

(** The links [scrape_page] hands to [download_pdf] for a page. *)
Definition page_links (env : Env) (url : string) : list string :=
  match requests_get env url with
  | Some response =>
      if status_code response =? 200
      then default [] (extract_pdf_links env (pdf_containers response) url)
      else []
  | None => []
  end.

Definition candidates (env : Env) (urls : list string) : list string :=
  flat_map (page_links env) urls.

(** The digest under which the document behind [url] would be kept. *)
Definition digest_of (env : Env) (url : string) : option string :=
  match requests_get env url with
  | Some response =>
      if (status_code response =? 200) && negb (stream_breaks response)
      then Some (md5_hexdigest env (body response))
      else None
  | None => None
  end.

Definition same_digest (env : Env) (u v : string) : bool :=
  match digest_of env u, digest_of env v with
  | Some a, Some b => String.eqb a b
  | _, _ => false
  end.

(** No two different links lead to documents with the same digest. *)
Definition distinct_contents (env : Env) (links : list string) : bool :=
  forallb (fun u => forallb (fun v => implb (same_digest env u v) (String.eqb u v))
                      links)
          links.

(** *** Example sites *)

Definition pdf_response (name : option string) (chunks : list string) : Response :=
  {| status_code := 200; content_type := Some "application/pdf";
     content_disposition := name; pdf_containers := [];
     chunks := chunks; stream_breaks := false |}.

Definition page_response (status : Z) (hrefs : list string) : Response :=
  {| status_code := status; content_type := Some "text/html";
     content_disposition := None;
     pdf_containers := [map (fun h => {| href := h; classes := [] |}) hrefs];
     chunks := []; stream_breaks := false |}.

(** A digest that tells all contents apart. *)
Definition toy_digest (content : string) : string := "md5:" +:+ content.

(** One page with two links; the server says what each link returns. *)
Definition two_links (a b : string) (content_a content_b : string) : Env :=
  {| requests_get := fun u =>
       if String.eqb u "http://doj.example/press" then
         Some (page_response 200 [a; b])
       else if String.eqb u a then Some (pdf_response None [content_a])
       else if String.eqb u b then Some (pdf_response None [content_b])
       else if String.eqb u "http://doj.example/gone" then
         Some (page_response 404 [a])
       else None;
     urljoin := fun _ h => Some h;
     md5_hexdigest := toy_digest |}.

(** What holds of the scraper all through a first run over pages whose
    links are [links]: every digest kept belongs to a link that is in the
    history, the history file is terminated, and reading it back yields
    at least the history in memory. *)
Definition history_sound (env : Env) (links : list string) (s : PDFScraper) : Prop :=
  (forall h, h ∈ downloaded_hashes s ->
             exists v, v ∈ downloaded_urls s /\ v ∈ links /\
                       digest_of env v = Some h) /\
  history_terminated (files s) = true /\
  downloaded_urls s ⊆ read_history (files s).

(** Every link is in the history or cannot be stored. *)
Definition all_settled (env : Env) (links : list string) (s : PDFScraper) : Prop :=
  forall u, u ∈ links -> u ∈ downloaded_urls s \/ digest_of env u = None.

(** What a run may do to the output directory: every document that was
    there stays as it was, the history file only gets longer, and what is
    new apart from the history file carries the extension. *)
Definition grown (before after : gmap string string) : Prop :=
  delete history_file before ⊆ after /\
  (forall text, before !! history_file = Some text ->
                exists appended, after !! history_file = Some (text +:+ appended)) /\
  set_Forall (fun name => endswith (lower name) ".pdf" = true)
             (dom after ∖ dom before ∖ {[history_file]}).

End ScraperInv.

(** ** The rest of the two files: callers and helpers *)

Module CrawlerMore.
Import PyStr UrlParse Crawler CrawlerInv.

(** The links of a page that its call gets to: what [urljoin] makes of
    the anchors, up to the first one it cannot resolve. *)
Fixpoint resolved (web : Web) (url : string) (hrefs : list string)
  : list string :=
  match hrefs with
  | [] => []
  | href :: rest =>
      match urljoin web url href with
      | Some full_url => full_url :: resolved web url rest
      | None => []
      end
  end.

(** [urljoin] resolves every anchor. *)
Definition resolvable (web : Web) (url : string) (hrefs : list string) : bool :=
  forallb (fun href => bool_decide (is_Some (urljoin web url href))) hrefs.

(** The links of a page that [extract_urls] puts on the frontier: among
    those it gets to, the ones accepted by [is_valid_url] and not in
    [all_urls] yet. *)
Definition new_links (web : Web) (self : WebCrawler) (url : string)
    (hrefs : list string) : gset string :=
  list_to_set
    (filter (fun full_url => is_valid_url self full_url = true /\
                             full_url ∉ all_urls self)
            (resolved web url hrefs)).

(** What a finished call adds to [next_urls]: the set it returned, and
    nothing when it raised. *)
Definition handed_on (e : call_end) : gset string :=
  match e with
  | Returned page_urls => page_urls
  | Raised => ∅
  end.

(** A URL whose fetch goes through: [requests.get] returns and
    [raise_for_status] does not raise. *)
Definition fetched_ok (web : Web) (url : string) : bool :=
  match get web url with
  | Some (status, _) => negb (raise_for_status status)
  | None => false
  end.

(** The guard at the head of [extract_urls]. *)
Definition guarded (self : WebCrawler) (url : string) (depth : Z) : bool :=
  bool_decide (url ∈ visited_urls self) || (max_depth self <? depth)
  || over_budget self.

(** During a run, what has been marked visited was fetched, and a call
    about to mark its URL has fetched it. *)
Definition worker_fetched (web : Web) (w : worker) : Prop :=
  match w with
  | AtMark url _ => fetched_ok web url = true
  | _ => True
  end.

Definition visited_fetched (web : Web) (p : pool) : Prop :=
  (forall u, u ∈ visited_urls (crawler p) -> fetched_ok web u = true) /\
  (forall w, w ∈ running p -> worker_fetched web w).

(** How far a URL is from the start URL: [linked_within web start n v]
    when [v] is reached from [start] by following [n] links, each one an
    anchor of a page whose fetch went through. *)
Inductive linked_within (web : Web) (start : string) : nat -> string -> Prop :=
| linked_start : linked_within web start 0 start
| linked_step n u href v :
    linked_within web start n u ->
    fetched_ok web u = true ->
    href ∈ hrefs_of web u ->
    urljoin web u href = Some v ->
    linked_within web start (S n) v.

(** A call at level [n]: its URL is [n] links away, the anchors it still
    has to look at are anchors of its page, and what it collected is one
    link further. *)
Definition worker_linked (web : Web) (start : string) (n : nat) (w : worker)
  : Prop :=
  linked_within web start n (worker_url w) /\
  match w with
  | AtMark url hrefs =>
      fetched_ok web url = true /\ hrefs ⊆ hrefs_of web url
  | AtLink url hrefs page_urls =>
      fetched_ok web url = true /\ hrefs ⊆ hrefs_of web url /\
      (forall u, u ∈ page_urls -> linked_within web start (S n) u)
  | AtAdd url full_url hrefs page_urls =>
      fetched_ok web url = true /\ hrefs ⊆ hrefs_of web url /\
      (forall u, u ∈ page_urls -> linked_within web start (S n) u) /\
      linked_within web start (S n) full_url
  | _ => True
  end.

Record depth_inv (web : Web) (self : WebCrawler) (depth : Z) (p : pool)
  : Prop := {
  di_depth : 0 <= depth < max_depth self;
  di_queue : forall u, u ∈ queue p ->
               linked_within web (base_url self) (Z.to_nat depth) u;
  di_running : forall w, w ∈ running p ->
                 worker_linked web (base_url self) (Z.to_nat depth) w;
  di_next : forall u, u ∈ next_urls p ->
              linked_within web (base_url self) (S (Z.to_nat depth)) u;
  di_all : forall u, u ∈ all_urls (crawler p) ->
             exists n, (1 <= n <= S (Z.to_nat depth))%nat /\
                       linked_within web (base_url self) n u;
  di_visited : forall u, u ∈ visited_urls (crawler p) ->
                 exists n, (n <= Z.to_nat depth)%nat /\
                           linked_within web (base_url self) n u
}.

(** Two calls can be told apart. *)
#[export] Instance worker_eq_dec : EqDecision worker.
Proof. solve_decision. Defined.

(** [v] is an eligible link of page [u]: an anchor of [u] that the call
    for [u] gets to resolves to [v], and [v] passes [is_valid_url]. *)
Definition eligible_link (web : Web) (self : WebCrawler) (u v : string) : Prop :=
  v ∈ resolved web u (hrefs_of web u) /\ is_valid_url self v = true.

(** A call and the page it is expanding: the anchors still to come are
    anchors of the page, and the page is marked visited once the loop over
    them has begun. *)
Definition worker_expanding (web : Web) (self c : WebCrawler) (w : worker)
  : Prop :=
  match w with
  | AtMark url hrefs => hrefs = hrefs_of web url
  | AtLink url hrefs _ =>
      url ∈ visited_urls c /\
      resolved web url hrefs ⊆ resolved web url (hrefs_of web url)
  | AtAdd url full_url hrefs _ =>
      url ∈ visited_urls c /\
      resolved web url hrefs ⊆ resolved web url (hrefs_of web url) /\
      eligible_link web self url full_url
  | _ => True
  end.

(** The call [w] still has to deal with the link [v] of page [u]. *)
Definition pending (web : Web) (u v : string) (w : worker) : Prop :=
  match w with
  | AtLink url hrefs _ => url = u /\ v ∈ resolved web u hrefs
  | AtAdd url full_url hrefs _ =>
      url = u /\ (v = full_url \/ v ∈ resolved web u hrefs)
  | _ => False
  end.

Record expand_inv (web : Web) (self : WebCrawler) (p : pool) : Prop := {
  ei_config : domain (crawler p) = domain self;
  ei_workers : forall w, w ∈ running p ->
                 worker_expanding web self (crawler p) w;
  ei_sound : forall v, v ∈ all_urls (crawler p) ->
               exists u, u ∈ visited_urls (crawler p) /\
                         eligible_link web self u v;
  ei_complete : forall u v, u ∈ visited_urls (crawler p) ->
                  eligible_link web self u v ->
                  v ∈ all_urls (crawler p) \/
                  exists w, w ∈ running p /\ pending web u v w
}.

(** A level of a crawler whose start URL is marked visited already:
    every call is for the start URL and has not passed the first test. *)
Definition already_started (self : WebCrawler) (p : pool) : Prop :=
  crawler p = self /\ next_urls p = ∅ /\
  (forall u, u ∈ queue p -> u = base_url self) /\
  (forall w, w ∈ running p -> w = AtVisited (base_url self)).

(** One turn of a pass that calls [extract_urls] for the frontier URLs
    in turn and treats its result as [crawl] does: what it returns goes
    into [next_urls], an exception is logged and leaves [next_urls] as it
    is. *)
Definition expand_one (web : Web) (depth : Z) (st : WebCrawler * gset string)
    (url : string) : WebCrawler * gset string :=
  let '(self, next_urls) := st in
  match extract_urls web self url depth with
  | (self', Returned new_urls) => (self', next_urls ∪ new_urls)
  | (self', Raised) => (self', next_urls)
  end.

(** The calls of a level do not overlap while a schedule runs: at most
    one call is in progress before every action and after the last. *)
Fixpoint one_by_one (web : Web) (depth : Z) (sched : list action) (p : pool)
  : bool :=
  bool_decide (length (running p) <= 1)%nat &&
  match sched with
  | [] => true
  | a :: rest => one_by_one web depth rest (apply_action web depth p a)
  end.

(** The same for every pass of [crawl]. *)
Fixpoint passes_one_by_one (web : Web) (sched : Z -> list action) (n : nat)
    (depth : Z) (self : WebCrawler) (current_urls : gset string) : bool :=
  match n with
  | O => true
  | S n' =>
      one_by_one web depth (sched depth) (start_pool self current_urls) &&
      let '(self', next) := level web depth (sched depth) self current_urls in
      if bool_decide (next = ∅) then true
      else passes_one_by_one web sched n' (depth + 1) self' next
  end.

Definition sequential (web : Web) (sched : Z -> list action) (self : WebCrawler)
  : bool :=
  passes_one_by_one web sched (Z.to_nat (max_depth self)) 0 self
    {[base_url self]}.

(** A pool between two calls, as a loop over [extract_urls] sees it: the
    calls for [started] have been made, in this order. *)
Definition after_calls (web : Web) (depth : Z) (self : WebCrawler)
    (started : list string) : WebCrawler * gset string :=
  fold_left (expand_one web depth) started (self, ∅).

(** Closing the pool on [p]: every submitted call is run to its end. *)
Definition drain (web : Web) (depth : Z) (p : pool) : pool :=
  finish web depth (work_left web p) p.

(** The calls in progress of a pool, without the calls that wait. *)
Definition in_progress (p : pool) : pool :=
  {| crawler := crawler p; queue := []; running := running p;
     next_urls := next_urls p |}.

(** A pool between two calls: the crawler and [next_urls] as the calls
    made so far left them, and the calls that wait. *)
Definition idle_pool (st : WebCrawler * gset string) (waiting : list string)
  : pool :=
  {| crawler := fst st; queue := waiting; running := [];
     next_urls := snd st |}.

(** What holds of a pool while a pass runs its calls one at a time:
    [started] lists the calls begun so far in the order in which they were
    begun, together with the waiting calls they are the frontier; at most
    the last of them is still in progress, and once it is through the
    crawler and [next_urls] are what a loop over [started] leaves. *)
Definition runs_in_turn (web : Web) (depth : Z) (self : WebCrawler)
    (current_urls : gset string) (p : pool) (started : list string) : Prop :=
  started ++ queue p ≡ₚ elements current_urls /\
  (length (running p) <= 1)%nat /\
  drain web depth (in_progress p) =
    idle_pool (after_calls web depth self started) [].

(** A pool in which calls run one at a time, and its page budget. *)
Definition one_at_a_time (p : pool) : Prop :=
  (length (running p) <= 1)%nat /\
  Z.of_nat (size (visited_urls (crawler p))) +
  Z.of_nat (list_sum (map weight (running p))) <=
  Z.max 0 (max_pages (crawler p)).

(** [main]: the start URL comes from the environment variable
    [WEBSITE_URL] ([None] when it is not set, which [urlparse] turns into
    an empty network location); [parse_error] says for which strings
    [urlparse] raises [ValueError]; every exception ends in the log. The
    result is the disk afterwards. *)
Definition main (website_url : option string) (parse_error : string -> bool)
    (web : Web) (sched : Z -> list action) (fs : gmap string string)
  : gmap string string :=
  match website_url with
  | None => fs
  | Some base_url =>
      match __init__ (parse_error base_url) base_url
              "./discovered_urls.txt" 10 500 with
      | None => fs
      | Some crawler => disk (crawl web sched fs crawler)
      end
  end.

(** *** Example sites with more than one page *)

Fixpoint page_of (pages : list (string * list string)) (url : string)
  : option (list string) :=
  match pages with
  | [] => None
  | (u, hrefs) :: rest => if String.eqb url u then Some hrefs else page_of rest url
  end.

(** A site whose listed pages answer 200 with the given anchors; the
    anchors are absolute links. *)
Definition site (pages : list (string * list string)) : Web :=
  {| get := fun url => option_map (pair 200) (page_of pages url);
     urljoin := fun _ href => Some href |}.

(** A crawler as [WebCrawler(base_url, max_depth=..., max_pages=...)]
    builds it. *)
Definition crawler_with (base_url : string) (max_depth max_pages : Z)
  : WebCrawler :=
  {| base_url := base_url; output_file := "./discovered_urls.txt";
     max_depth := max_depth; max_pages := max_pages;
     visited_urls := ∅; all_urls := ∅;
     domain := netloc (urlparse base_url) |}.

(** A start page whose second anchor [urljoin] cannot resolve. *)
Definition broken_anchor_site : Web :=
  {| get := fun u =>
       if String.eqb u "http://example.com/"
       then Some (200, ["/a"; "http://["; "/b"]) else None;
     urljoin := fun _ href =>
       if String.eqb href "http://[" then None
       else Some ("http://example.com" +:+ href) |}.

(** The start page links to two pages without links. *)
Definition budget_site : Web :=
  site [("http://example.com/", ["http://example.com/a"; "http://example.com/b"]);
        ("http://example.com/a", []);
        ("http://example.com/b", [])].

(** A schedule without overlap: in the second pass the call that waits
    last is started first and runs to its end before the other starts. *)
Definition last_first (depth : Z) : list action :=
  if depth =? 1
  then Start 1 :: replicate 6 (Advance 0) ++ [Start 0; Advance 0]
  else [].

(** A schedule with overlap: in the second pass both calls are started,
    and each passes the budget test before the other marks its page. *)
Definition both_at_once (depth : Z) : list action :=
  if depth =? 1
  then [Start 0; Start 0; Advance 0; Advance 0; Advance 0;
        Advance 1; Advance 1; Advance 1]
  else [].

(** A start page that answers 404; its body has a link to the same
    host. *)
Definition gone_site : Web :=
  {| get := fun url =>
       if String.eqb url "http://example.com/"
       then Some (404, ["http://example.com/a"]) else None;
     urljoin := fun _ href => Some href |}.

End CrawlerMore.

Module ScraperMore.
Import PyStr UrlParse Scraper ScraperInv.

(** [LoadUrls.load_urls_from_file]: the stripped lines of the file that
    are not empty, in order; a missing file raises. [disk] maps paths to
    the text of the files. *)
Definition load_urls_from_file (disk : gmap string string) (file_path : string)
  : result (list string) :=
  match disk !! file_path with
  | Some text =>
      Returns (filter (fun url => url <> EmptyString) (map strip (readlines text)))
  | None => Raises
  end.

(** The script at the end of the file: load the page list, build the
    scraper on the output directory, scrape. *)
Definition script (env : Env) (disk : gmap string string)
    (dir : gmap string string) : result Z * gmap string string :=
  match load_urls_from_file disk "./url-extractor/discovered_urls.txt" with
  | Returns url_list => run env url_list dir
  | _ => (Raises, dir)
  end.

(** The text [save_url_to_history] leaves after it was called for each of
    the URLs in turn: one line per URL. *)
Fixpoint history_lines (urls : list string) : string :=
  match urls with
  | [] => EmptyString
  | url :: rest => url +:+ String LF (history_lines rest)
  end.

Definition history_text (files : gmap string string) : string :=
  default EmptyString (files !! history_file).

(** What one download adds to the record. *)
Definition recorded (ok : bool) (url : string) : list string :=
  if ok then [url] else [].

(** The record of a whole loop: the URLs stored, in the order in which
    they were stored. *)
Definition run_record (s s' : PDFScraper) (links L : list string) : Prop :=
  NoDup L /\ L `sublist_of` links /\
  (forall u, u ∈ L -> u ∉ downloaded_urls s) /\
  downloaded_urls s' = downloaded_urls s ∪ list_to_set L /\
  size (downloaded_hashes s') = (size (downloaded_hashes s) + length L)%nat /\
  history_text (files s') = history_text (files s) +:+ history_lines L.

(** The document behind [u] is in the directory: some file that is not
    the history file holds the bytes the server sends for [u]. *)
Definition stored_in (env : Env) (fs : gmap string string) (u : string) : Prop :=
  exists response name,
    requests_get env u = Some response /\ name <> history_file /\
    endswith (lower name) ".pdf" = true /\
    fs !! name = Some (body response).

(** What a loop stored, by content: the directory has only grown, each
    recorded link came with a digest that was new, no digest came twice,
    the digests are what the set of digests gained, and each document is
    in the directory. *)
Definition store_record (env : Env) (s s' : PDFScraper) (L : list string)
  : Prop :=
  grown (files s) (files s') /\
  Forall (fun u => exists h, digest_of env u = Some h /\
                             h ∉ downloaded_hashes s) L /\
  NoDup (omap (digest_of env) L) /\
  downloaded_hashes s' =
    downloaded_hashes s ∪ list_to_set (omap (digest_of env) L) /\
  Forall (stored_in env (files s')) L.

(** A server whose document stream breaks. *)
Definition broken_stream (url : string) (chunks : list string) : Env :=
  {| requests_get := fun u =>
       if String.eqb u url then
         Some {| status_code := 200; content_type := Some "application/pdf";
                 content_disposition := None; pdf_containers := [];
                 chunks := chunks; stream_breaks := true |}
       else None;
     urljoin := fun _ h => Some h;
     md5_hexdigest := toy_digest |}.

End ScraperMore.

(** * Facts about the string operations *)

Module PyStrFacts.
Import PyStr.

Lemma app_nil_l (s : string) : EmptyString +:+ s = s.
Proof. reflexivity. Qed.

Lemma app_cons (c : ascii) (s t : string) :
  String c s +:+ t = String c (s +:+ t).
Proof. reflexivity. Qed.

Lemma app_nil_r (s : string) : s +:+ EmptyString = s.
Proof. induction s as [|c s IH]; [done|]. by rewrite app_cons, IH. Qed.

Lemma app_assoc (a b c : string) : (a +:+ b) +:+ c = a +:+ (b +:+ c).
Proof.
  induction a as [|x a IH]; [done|]. by rewrite !app_cons, IH.
Qed.

Lemma app_length (a b : string) :
  String.length (a +:+ b) = (String.length a + String.length b)%nat.
Proof.
  induction a as [|x a IH]; [done|]. rewrite app_cons. simpl. by rewrite IH.
Qed.

Lemma app_inv_head (p a b : string) : p +:+ a = p +:+ b -> a = b.
Proof.
  induction p as [|x p IH]; [done|]. rewrite !app_cons. intros [=]. auto.
Qed.

Lemma app_inv_tail (a b s : string) : a +:+ s = b +:+ s -> a = b.
Proof.
  revert b. induction a as [|x a IH]; intros [|y b] H.
  - done.
  - apply (f_equal String.length) in H. rewrite app_nil_l, app_cons in H.
    simpl in H. rewrite app_length in H. lia.
  - apply (f_equal String.length) in H. rewrite app_nil_l, app_cons in H.
    simpl in H. rewrite app_length in H. lia.
  - rewrite !app_cons in H. injection H as -> H. f_equal. by apply IH.
Qed.

(** [endswith] is the suffix relation. *)
Lemma endswith_refl (s : string) : endswith s s = true.
Proof. destruct s; cbn [endswith]; by rewrite String.eqb_refl. Qed.

Lemma endswith_iff (s suf : string) :
  endswith s suf = true <-> exists p, s = p +:+ suf.
Proof.
  split.
  - induction s as [|c s IH]; cbn [endswith].
    + destruct (String.eqb_spec EmptyString suf) as [<-|]; [|done].
      by exists EmptyString.
    + destruct (String.eqb_spec (String c s) suf) as [<-|].
      * by exists EmptyString.
      * intros H. destruct (IH H) as [p ->]. by exists (String c p).
  - intros [p ->]. induction p as [|c p IH].
    + rewrite app_nil_l. apply endswith_refl.
    + rewrite app_cons. cbn [endswith].
      destruct (String.eqb (String c (p +:+ suf)) suf); [done|apply IH].
Qed.

Lemma endswith_app (p suf : string) : endswith (p +:+ suf) suf = true.
Proof. apply endswith_iff. by exists p. Qed.

Lemma lower_app (a b : string) : lower (a +:+ b) = lower a +:+ lower b.
Proof.
  induction a as [|x a IH]; [done|]. rewrite app_cons. simpl.
  by rewrite IH, app_cons.
Qed.

(** The order on strings. *)
Lemma leb_refl (a : string) : leb a a = true.
Proof.
  induction a as [|x a IH]; [done|]. simpl.
  by rewrite N.ltb_irrefl, N.eqb_refl.
Qed.

Lemma ord_inj (x y : ascii) : ord x = ord y -> x = y.
Proof.
  unfold ord. intros H.
  by rewrite <- (ascii_N_embedding x), <- (ascii_N_embedding y), H.
Qed.

Lemma leb_total (a b : string) : leb a b = true \/ leb b a = true.
Proof.
  revert b. induction a as [|x a IH]; intros [|y b]; simpl; auto.
  destruct (N.ltb_spec (ord x) (ord y)); [auto|].
  destruct (N.ltb_spec (ord y) (ord x)); [auto|].
  assert (ord x = ord y) as E by lia.
  rewrite E, N.eqb_refl. apply IH.
Qed.

Lemma leb_trans (a b c : string) :
  leb a b = true -> leb b c = true -> leb a c = true.
Proof.
  revert b c. induction a as [|x a IH]; intros [|y b] [|z c]; simpl; try done.
  destruct (N.ltb_spec (ord x) (ord y)), (N.ltb_spec (ord y) (ord z)),
    (N.ltb_spec (ord x) (ord z)); try done; try lia;
    destruct (N.eqb_spec (ord x) (ord y)), (N.eqb_spec (ord y) (ord z)),
      (N.eqb_spec (ord x) (ord z)); try done; try lia.
  apply IH.
Qed.

Lemma leb_antisym (a b : string) :
  leb a b = true -> leb b a = true -> a = b.
Proof.
  revert b. induction a as [|x a IH]; intros [|y b]; simpl; try done.
  destruct (N.ltb_spec (ord x) (ord y)), (N.ltb_spec (ord y) (ord x));
    try lia;
    destruct (N.eqb_spec (ord x) (ord y)), (N.eqb_spec (ord y) (ord x));
    try done; try lia.
  intros H1 H2. f_equal; [by apply ord_inj | by apply IH].
Qed.

#[export] Instance le_total : Total le.
Proof. intros a b. apply leb_total. Qed.

#[export] Instance le_trans : Transitive le.
Proof. intros a b c. apply leb_trans. Qed.

#[export] Instance le_refl : Reflexive le.
Proof. intros a. apply leb_refl. Qed.

#[export] Instance le_antisym : AntiSymm eq le.
Proof. intros a b. apply leb_antisym. Qed.

(** [sorted] returns the elements it was given, in ascending order. *)
Lemma sorted_perm (xs : list string) : sorted xs ≡ₚ xs.
Proof. apply merge_sort_Permutation. Qed.




(** Encoding goes character by character, and leaves ASCII alone. *)
Lemma encode_utf8_app (a b : string) :
  encode_utf8 (a +:+ b) = encode_utf8 a +:+ encode_utf8 b.
Proof.
  induction a as [|c a IH]; [done|]. rewrite app_cons. cbn [encode_utf8].
  by rewrite IH, app_assoc.
Qed.

Lemma encode_utf8_ascii (s : string) :
  UrlParse.all_chars (fun c => (ord c <? 128)%N) s = true -> encode_utf8 s = s.
Proof.
  induction s as [|c s IH]; [done|]. cbn [UrlParse.all_chars encode_utf8].
  intros [Hc Hs]%andb_true_iff. unfold utf8_char. rewrite Hc, IH by done.
  done.
Qed.



End PyStrFacts.

(** * The discoverer: theorems *)

Module CrawlerSpec.
Import PyStr UrlParse Crawler CrawlerInv PyStrFacts.

(** *** The eligibility test *)

Lemma existsb_endswith_false (url : string) (exts : list string) :
  existsb (fun ext => endswith url ext) exts = false <->
  forall ext, ext ∈ exts -> ~ exists p, url = p +:+ ext.
Proof.
  induction exts as [|e exts IH]; simpl.
  - split; [|done]. intros _ ext H. by apply elem_of_nil in H.
  - rewrite orb_false_iff, IH. split.
    + intros [He Hrest] ext [->|Hin]%elem_of_cons.
      * rewrite <- endswith_iff. by rewrite He.
      * by apply Hrest.
    + intros H. split.
      * destruct (endswith url e) eqn:E; [|done].
        exfalso. apply (H e); [by left|]. by apply endswith_iff.
      * intros ext Hin. apply H. by right.
Qed.

Lemma is_valid_url_config (a b : WebCrawler) (url : string) :
  domain a = domain b -> is_valid_url a url = is_valid_url b url.
Proof. unfold is_valid_url. by intros ->. Qed.

(** C4 (as the code has it): a URL passes [is_valid_url] exactly when its
    network location is the crawler's domain, its scheme is http or https,
    and the URL text itself, query and fragment included, does not end in
    one of [.pdf .jpg .png .gif .css .js]; a link that [urljoin] resolves
    is put on the frontier, and into [all_urls], exactly when it passes
    and is not in [all_urls] yet, and a link that [urljoin] cannot resolve
    ends the turn with the exception. *)
Theorem is_valid_url_iff (web : Web) (self : WebCrawler)
    (url href : string) (page_urls : gset string) :
  (is_valid_url self url = true <->
     netloc (urlparse url) = domain self /\
     (scheme (urlparse url) = "http" \/ scheme (urlparse url) = "https") /\
     forall ext, ext ∈ filtered_extensions -> ~ exists p, url = p +:+ ext) /\
  match urljoin web url href with
  | Some full_url =>
      visit_link web url (self, page_urls) href =
        Some (if is_valid_url self full_url &&
                 negb (bool_decide (full_url ∈ all_urls self))
              then (all_add full_url self, page_urls ∪ {[full_url]})
              else (self, page_urls))
  | None => visit_link web url (self, page_urls) href = None
  end.
Proof.
  split.
  - unfold is_valid_url. rewrite !andb_true_iff, negb_true_iff.
    rewrite existsb_endswith_false, bool_decide_eq_true.
    rewrite !elem_of_cons, elem_of_nil.
    destruct (String.eqb_spec (netloc (urlparse url)) (domain self));
      naive_solver.
  - unfold visit_link.
    destruct (urljoin web url href) as [full_url|]; [|done].
    by destruct (is_valid_url self full_url &&
                 negb (bool_decide (full_url ∈ all_urls self))).
Qed.

(** C4, counterexample: a query string after [.pdf] gets the URL past
    the test although its path ends in a filtered extension. *)
Lemma is_valid_url_query_after_pdf :
  let self := example_crawler "http://example.com/" in
  let url := "http://example.com/a.pdf?x=1" in
  endswith (path (urlparse url)) ".pdf" = true /\
  eligible_by_path self url = false /\
  is_valid_url self url = true.
Proof. vm_compute. done. Qed.


(** *** The invariant of the worker pool *)

Lemma size_add (X : gset string) (u : string) :
  (size (X ∪ {[u]}) <= S (size X))%nat.
Proof.
  destruct (decide (u ∈ X)) as [Hin|Hout].
  - replace (X ∪ {[u]}) with X by set_solver. lia.
  - rewrite size_union by set_solver. rewrite size_singleton. lia.
Qed.

Lemma sum_cons (x : nat) (l : list nat) :
  list_sum (x :: l) = (x + list_sum l)%nat.
Proof. reflexivity. Qed.

Lemma weight_le_1 (l : list worker) :
  (list_sum (map weight l) <= length l)%nat.
Proof.
  induction l as [|w l IH]; simpl; [lia|].
  unfold weight at 1. destruct (in_flight w); lia.
Qed.

Lemma known_mono (self0 c c' : WebCrawler) (u : string) :
  all_urls c ⊆ all_urls c' -> known self0 c u -> known self0 c' u.
Proof. unfold known. set_solver. Qed.

Lemma worker_ok_mono (self0 c c' : WebCrawler) (w : worker) :
  all_urls c ⊆ all_urls c' -> worker_ok self0 c w -> worker_ok self0 c' w.
Proof.
  intros Hsub [Hk Hw]. split; [by eapply known_mono|].
  destruct w; try done; set_solver.
Qed.

Local Ltac unchanged_budget :=
  left; unfold outcome_weight, weight; cbn; lia.

Lemma worker_step_inv (web : Web) (depth : Z) (self0 c : WebCrawler) (w : worker) :
  same_config c self0 ->
  (forall u, u ∈ all_urls c -> is_valid_url self0 u = true) ->
  (forall u, u ∈ visited_urls c -> known self0 c u) ->
  worker_ok self0 c w ->
  let c' := fst (worker_step web depth c w) in
  let r := snd (worker_step web depth c w) in
  same_config c' self0 /\
  all_urls c ⊆ all_urls c' /\
  (forall u, u ∈ all_urls c' -> is_valid_url self0 u = true) /\
  (forall u, u ∈ visited_urls c' -> known self0 c' u) /\
  outcome_ok self0 c' r /\
  ((size (visited_urls c') + outcome_weight r <=
      size (visited_urls c) + weight w)%nat \/
   (visited_urls c' = visited_urls c /\ outcome_weight r = 1%nat /\
    weight w = 0%nat /\ Z.of_nat (size (visited_urls c)) < max_pages self0)).
Proof.
  intros Hcfg Hall Hvis [Hk Hw].
  assert (∅ ⊆ all_urls c) as Hempty by set_solver.
  destruct w as [url|url|url|url|url hrefs|url hrefs page|url full hrefs page];
    cbn [worker_step worker_url] in *.
  - destruct (bool_decide (url ∈ visited_urls c)); cbn;
      (split_and!; [done|done|done|done|done|unchanged_budget]).
  - destruct (max_depth c <? depth); cbn;
      (split_and!; [done|done|done|done|done|unchanged_budget]).
  - unfold over_budget.
    destruct (Z.leb_spec (max_pages c) (Z.of_nat (size (visited_urls c))));
      cbn; (split_and!; [done|done|done|done|done|]).
    + unchanged_budget.
    + right. split_and!; try done.
      destruct Hcfg as (_ & _ & _ & <- & _). lia.
  - destruct (get web url) as [[status hrefs]|]; cbn.
    + destruct (raise_for_status status); cbn;
        (split_and!; [done|done|done|done|done|unchanged_budget]).
    + split_and!; [done|done|done|done|done|unchanged_budget].
  - cbn. split_and!; [done|done|done| |split; [done|set_solver]|].
    + intros u [Hu| ->%elem_of_singleton]%elem_of_union; [by apply Hvis|done].
    + left. unfold weight, outcome_weight; cbn.
      pose proof (size_add (visited_urls c) url). lia.
  - destruct hrefs as [|href hrefs]; cbn.
    + split_and!; [done|done|done|done|done|unchanged_budget].
    + destruct (urljoin web url href) as [full_url|]; cbn;
        [|split_and!; [done|done|done|done|done|unchanged_budget]].
      destruct (is_valid_url c full_url &&
                negb (bool_decide (full_url ∈ all_urls c))) eqn:E; cbn.
      * split_and!; [done|done|done|done| |unchanged_budget].
        split; [done|]. split; [done|].
        apply andb_true_iff in E as [E _].
        rewrite <- E. apply is_valid_url_config. symmetry. apply Hcfg.
      * split_and!; [done|done|done|done|done|unchanged_budget].
  - cbn. destruct Hw as [Hpage Hvalid].
    split_and!; [done|set_solver| | | |unchanged_budget].
    + intros u [Hu| ->%elem_of_singleton]%elem_of_union; [by apply Hall|done].
    + intros u Hu. eapply known_mono; [|by apply Hvis]. cbn. set_solver.
    + split; [|cbn; set_solver]. eapply known_mono; [|done]. cbn. set_solver.
Qed.

Lemma crawl_inv_start (self0 : WebCrawler) :
  fresh self0 -> crawl_inv self0 (start_pool self0 {[base_url self0]}).
Proof.
  intros (Hv & Ha & _). split; cbn.
  - done.
  - rewrite Ha. set_solver.
  - rewrite Hv. set_solver.
  - intros u Hu%elem_of_elements. left. set_solver.
  - intros w Hw. by apply elem_of_nil in Hw.
  - set_solver.
  - lia.
  - rewrite Hv, size_empty. unfold soft_cap. lia.
Qed.

Lemma crawl_inv_level (self0 : WebCrawler) (p : pool) :
  crawl_inv self0 p -> running p = [] ->
  crawl_inv self0 (start_pool (crawler p) (next_urls p)).
Proof.
  intros [] Hrun. split; cbn; try done.
  - intros u Hu%elem_of_elements. right. set_solver.
  - intros w Hw. by apply elem_of_nil in Hw.
  - lia.
  - rewrite Hrun in *. cbn in *. lia.
Qed.

Lemma crawl_inv_action (web : Web) (depth : Z) (self0 : WebCrawler)
    (p : pool) (a : action) :
  crawl_inv self0 p -> crawl_inv self0 (apply_action web depth p a).
Proof.
  intros Hinv. destruct a as [k|i]; cbn [apply_action].
  - destruct (queue p !! k) as [url|] eqn:Hk; [|done].
    case_bool_decide as Hlen; [|done].
    destruct Hinv. split; cbn; try done.
    + intros u Hu. apply inv_queue0.
      eapply elem_of_sublist; [done|apply sublist_delete].
    + intros w [Hw| ->%list_elem_of_singleton]%elem_of_app; [by apply inv_running0|].
      split; [|done]. cbn. apply inv_queue0. by eapply list_elem_of_lookup_2.
    + rewrite length_app. cbn. lia.
    + rewrite map_app, list_sum_app. cbn. lia.
  - destruct (running p !! i) as [w|] eqn:Hi; [|done].
    pose proof (take_drop_middle _ _ _ Hi) as Hsplit.
    pose proof (lookup_lt_Some _ _ _ Hi) as Hlt.
    destruct Hinv.
    assert (worker_ok self0 (crawler p) w) as Hw
      by (apply inv_running0; by eapply list_elem_of_lookup_2).
    pose proof (worker_step_inv web depth self0 (crawler p) w
                  inv_config0 inv_all0 inv_visited0 Hw) as Hstep.
    destruct (worker_step web depth (crawler p) w) as [c' r].
    cbn in Hstep. destruct Hstep as (Hcfg & Hsub & Hall & Hvis & Hout & Hbud).
    assert (forall w0, w0 ∈ (take i (running p) ++ drop (S i) (running p))%list ->
                       worker_ok self0 c' w0) as Hrest.
    { intros w0 Hw0. eapply worker_ok_mono; [done|]. apply inv_running0.
      rewrite <- Hsplit. set_solver. }
    assert (Z.of_nat (size (visited_urls c')) +
            Z.of_nat (list_sum (map weight (take i (running p))) +
                      outcome_weight r +
                      list_sum (map weight (drop (S i) (running p))))
            <= soft_cap self0) as Hcap.
    { rewrite <- Hsplit in inv_budget0, inv_workers0.
      rewrite map_app, list_sum_app in inv_budget0.
      rewrite map_cons, sum_cons in inv_budget0.
      destruct Hbud as [Hbud|(Hv & Hr & Hw0 & Hpages)]; [lia|].
      rewrite Hv, Hr.
      pose proof (weight_le_1 (take i (running p))).
      pose proof (weight_le_1 (drop (S i) (running p))).
      rewrite length_app in inv_workers0. cbn [length] in inv_workers0.
      unfold soft_cap. lia. }
    destruct r as [w'|[new_urls|]]; split; cbn; try done.
    + intros u Hu. eapply known_mono; [done|]. by apply inv_queue0.
    + rewrite insert_take_drop by done.
      intros w0 [Hw0|[->|Hw0]%elem_of_cons]%elem_of_app;
        [apply Hrest; set_solver|done|apply Hrest; set_solver].
    + set_solver.
    + by rewrite length_insert.
    + rewrite insert_take_drop by done.
      rewrite map_app, list_sum_app. rewrite ?map_cons, ?sum_cons. cbn [outcome_weight] in *. lia.
    + intros u Hu. eapply known_mono; [done|]. by apply inv_queue0.
    + rewrite delete_take_drop. apply Hrest.
    + cbn in Hout. set_solver.
    + rewrite length_delete by done. lia.
    + rewrite delete_take_drop, map_app, list_sum_app.
      rewrite ?map_cons, ?sum_cons. cbn [outcome_weight] in *. lia.
    + intros u Hu. eapply known_mono; [done|]. by apply inv_queue0.
    + rewrite delete_take_drop. apply Hrest.
    + set_solver.
    + rewrite length_delete by done. lia.
    + rewrite delete_take_drop, map_app, list_sum_app.
      rewrite ?map_cons, ?sum_cons. cbn [outcome_weight] in *. lia.
Qed.

Lemma reachable_inv (web : Web) (self : WebCrawler) (depth : Z) (p : pool) :
  fresh self -> reachable web self depth p -> crawl_inv self p.
Proof.
  intros Hfresh Hreach. induction Hreach.
  - by apply crawl_inv_start.
  - by apply crawl_inv_action.
  - by apply crawl_inv_level.
Qed.


(** *** Closing the pool: every submitted call finishes *)

Lemma worker_step_progress (web : Web) (depth : Z) (c : WebCrawler) (w : worker) :
  match snd (worker_step web depth c w) with
  | inl w' => (steps_left web w' < steps_left web w)%nat
  | inr _ => (0 < steps_left web w)%nat
  end.
Proof.
  destruct w as [url|url|url|url|url hrefs|url hrefs page|url full hrefs page];
    cbn [worker_step].
  - destruct (bool_decide _); cbn; lia.
  - destruct (_ <? _); cbn; lia.
  - destruct (over_budget c); cbn; lia.
  - unfold steps_left, hrefs_of.
    destruct (get web url) as [[status hrefs]|]; cbn; [|lia].
    destruct (raise_for_status status); cbn; lia.
  - cbn; lia.
  - destruct hrefs as [|href hrefs]; cbn; [lia|].
    destruct (urljoin web url href); cbn; [|lia].
    destruct (_ && _); cbn; lia.
  - cbn; lia.
Qed.

Lemma next_action_progress (web : Web) (depth : Z) (p : pool) (a : action) :
  next_action p = Some a ->
  (work_left web (apply_action web depth p a) < work_left web p)%nat.
Proof.
  unfold next_action, work_left.
  destruct (running p) as [|w rest] eqn:Hrun.
  - destruct (queue p) as [|url q] eqn:Hq; [done|].
    intros [= <-]. cbn [apply_action]. rewrite Hq, Hrun. cbn [lookup list_lookup].
    case_bool_decide as Hb; [|exfalso; apply Hb; unfold max_workers; cbn; lia].
    unfold list_sum. cbn. lia.
  - intros [= <-]. cbn [apply_action]. rewrite Hrun. cbn [lookup list_lookup].
    pose proof (worker_step_progress web depth (crawler p) w) as Hstep.
    destruct (worker_step web depth (crawler p) w) as [c' [w'|[new_urls|]]];
      unfold list_sum in *; cbn in *; lia.
Qed.

Lemma next_action_None (p : pool) :
  next_action p = None -> queue p = [] /\ running p = [].
Proof.
  unfold next_action. by destruct (running p), (queue p).
Qed.

Lemma finish_drains (web : Web) (depth : Z) (fuel : nat) (p : pool) :
  (work_left web p <= fuel)%nat ->
  queue (finish web depth fuel p) = [] /\ running (finish web depth fuel p) = [].
Proof.
  revert p. induction fuel as [|fuel IH]; intros p Hle; cbn [finish].
  - destruct (next_action p) as [a|] eqn:Ha; [|by apply next_action_None].
    pose proof (next_action_progress web depth p a Ha). lia.
  - destruct (next_action p) as [a|] eqn:Ha; [|by apply next_action_None].
    apply IH. pose proof (next_action_progress web depth p a Ha). lia.
Qed.

Lemma run_reachable (web : Web) (self : WebCrawler) (depth : Z)
    (sched : list action) (p : pool) :
  reachable web self depth p -> reachable web self depth (run web depth sched p).
Proof.
  revert p. induction sched as [|a sched IH]; intros p Hp; [done|].
  cbn. apply IH. by constructor.
Qed.

Lemma finish_reachable (web : Web) (self : WebCrawler) (depth : Z)
    (fuel : nat) (p : pool) :
  reachable web self depth p -> reachable web self depth (finish web depth fuel p).
Proof.
  revert p. induction fuel as [|fuel IH]; intros p Hp; [done|].
  cbn. destruct (next_action p); [|done]. apply IH. by constructor.
Qed.

Lemma level_unfold web depth sched self current_urls :
  level web depth sched self current_urls =
    (crawler (level_end web depth sched self current_urls),
     next_urls (level_end web depth sched self current_urls)).
Proof. reflexivity. Qed.

Lemma crawl_loop_reachable (web : Web) (sched : Z -> list action)
    (self : WebCrawler) (n : nat) (depth : Z) (c : WebCrawler) (cur : gset string) :
  Z.of_nat n = max_depth self - depth ->
  reachable web self depth (start_pool c cur) ->
  exists depth' p,
    reachable web self depth' p /\
    crawler p = fst (crawl_loop web sched n depth c cur).
Proof.
  revert depth c cur. induction n as [|n IH]; intros depth c cur Hn Hreach.
  - by exists depth, (start_pool c cur).
  - cbn [crawl_loop]. rewrite level_unfold.
    set (p2 := level_end web depth (sched depth) c cur).
    assert (reachable web self depth p2) as Hp2
      by (apply finish_reachable, run_reachable, Hreach).
    destruct (finish_drains web depth
                (work_left web (run web depth (sched depth) (start_pool c cur)))
                (run web depth (sched depth) (start_pool c cur)))
      as [Hq Hr]; [lia|]. fold (level_end web depth (sched depth) c cur) in Hq, Hr.
    fold p2 in Hq, Hr.
    case_bool_decide as Hnext; [by exists depth, p2|].
    destruct n as [|n].
    + cbn. by exists depth, p2.
    + destruct (IH (depth + 1) (crawler p2) (next_urls p2)) as (d' & p' & Hp' & Heq).
      * lia.
      * apply reach_level; try done. lia.
      * exists d', p'. split; [done|]. rewrite Heq.
        by destruct (crawl_loop web sched (S n) (depth + 1) (crawler p2) (next_urls p2)).
Qed.

Lemma crawl_final_inv (web : Web) (sched : Z -> list action)
    (fs : gmap string string) (self : WebCrawler) :
  fresh self ->
  exists p, crawl_inv self p /\ crawler p = final (crawl web sched fs self).
Proof.
  intros Hfresh. unfold crawl.
  destruct (Z.to_nat (max_depth self)) as [|n] eqn:Hn.
  - cbn. exists (start_pool self {[base_url self]}).
    split; [by apply crawl_inv_start|done].
  - destruct (crawl_loop_reachable web sched self (S n) 0 self {[base_url self]})
      as (d & p & Hp & Heq); [lia|apply reach_first; lia|].
    exists p. split; [by eapply reachable_inv|].
    rewrite Heq.
    by destruct (crawl_loop web sched (S n) 0 self {[base_url self]}).
Qed.


Local Ltac by_computation := apply (bool_decide_unpack _); vm_compute; exact I.

(** *** What is expanded (C5) *)

(** C5 (as the code has it): at every point of every run, a URL that has
    been expanded or is being fetched is either the start URL or a URL
    that passed [is_valid_url]; the start URL is in the fixed domain but
    is never put to the extension or scheme test; and the number of
    expanded URLs stays within [max_pages] plus the nine other calls that
    can be in flight when the budget is reached. The same holds for the
    crawler [crawl] returns. *)
Theorem crawl_expands_only_eligible (web : Web) (self : WebCrawler)
    (depth : Z) (p : pool) :
  fresh self ->
  reachable web self depth p ->
  (forall u, u ∈ visited_urls (crawler p) ->
             u = base_url self \/ is_valid_url self u = true) /\
  (forall w, w ∈ running p ->
             worker_url w = base_url self \/
             is_valid_url self (worker_url w) = true) /\
  netloc (urlparse (base_url self)) = domain self /\
  Z.of_nat (size (visited_urls (crawler p))) <=
    Z.max 0 (max_pages self + Z.of_nat max_workers - 1) /\
  (forall sched fs,
      let c := final (crawl web sched fs self) in
      (forall u, u ∈ visited_urls c ->
                 u = base_url self \/ is_valid_url self u = true) /\
      Z.of_nat (size (visited_urls c)) <=
        Z.max 0 (max_pages self + Z.of_nat max_workers - 1)).
Proof.
  intros Hfresh Hreach.
  pose proof (reachable_inv web self depth p Hfresh Hreach) as [].
  split_and!.
  - intros u Hu. destruct (inv_visited0 u Hu) as [->|Hall]; auto.
  - intros w Hw. destruct (inv_running0 w Hw) as [[->|Hall] _]; auto.
  - symmetry. apply Hfresh.
  - fold (soft_cap self). lia.
  - intros sched fs c.
    destruct (crawl_final_inv web sched fs self Hfresh) as (p' & [] & Heq).
    fold c in Heq. rewrite <- Heq. split.
    + intros u Hu. destruct (inv_visited1 u Hu) as [->|Hall]; auto.
    + fold (soft_cap self). lia.
Qed.

Lemma example_crawler_fresh : fresh (example_crawler "http://example.com/").
Proof. by vm_compute. Qed.

Lemma crawl_expands_only_eligible_witness :
  let web := one_page "http://example.com/" ["http://example.com/a"] in
  let self := example_crawler "http://example.com/" in
  let p := apply_action web 0 (start_pool self {[base_url self]}) (Start 0) in
  fresh self /\ reachable web self 0 p /\
  (forall w, w ∈ running p ->
             worker_url w = base_url self \/
             is_valid_url self (worker_url w) = true) /\
  Z.of_nat (size (visited_urls (crawler p))) <= 509.
Proof.
  intros web self p.
  assert (fresh self) as Hfresh by apply example_crawler_fresh.
  assert (reachable web self 0 p) as Hreach.
  { apply reach_action, reach_first. vm_compute. reflexivity. }
  destruct (crawl_expands_only_eligible web self 0 p Hfresh Hreach)
    as (_ & Hrun & _ & Hcap & _).
  split_and!; [exact Hfresh|exact Hreach|exact Hrun|exact Hcap].
Defined.

(** C5, counterexample: a start URL that ends in [.pdf] is fetched and
    expanded like any other. *)
Lemma crawl_expands_filtered_start_url :
  let start := "http://example.com/manual.pdf" in
  let self := example_crawler start in
  let r := crawl (one_page start []) idle ∅ self in
  is_valid_url self start = false /\
  endswith start ".pdf" = true /\
  start ∈ visited_urls (final r).
Proof.
  split_and!; [by vm_compute|by vm_compute|].
  by_computation.
Qed.

(** *** The start URL and the discovered set (C1, C2) *)

(** C1, at the failing input: the design document's own example. The
    start page links to [/a] (twice) and to another host; after the run
    the start URL has been expanded and is not in [all_urls]. *)
Theorem crawl_start_url_not_discovered :
  let start := "http://example.com/" in
  let web := one_page start ["http://example.com/a"; "http://example.com/a";
                             "http://other.com/b"] in
  let r := crawl web idle ∅ (example_crawler start) in
  elements (visited_urls (final r)) = [start] /\
  elements (all_urls (final r)) = ["http://example.com/a"] /\
  ~ visited_urls (final r) ⊆ all_urls (final r).
Proof.
  split_and!; [by vm_compute|by vm_compute|].
  intros Hsub. specialize (Hsub "http://example.com/").
  assert ("http://example.com/" ∉ all_urls
    (final (crawl (one_page "http://example.com/"
       ["http://example.com/a"; "http://example.com/a"; "http://other.com/b"])
       idle ∅ (example_crawler "http://example.com/")))) as Hout
    by by_computation.
  apply Hout, Hsub. by_computation.
Qed.

(** C2, at the failing input: a start page without links. The run makes
    one pass and ends with an empty [all_urls] and an empty output file;
    the start URL is not in the result. *)
Theorem crawl_without_links_discovers_nothing :
  let start := "http://example.com/" in
  let r := crawl (one_page start []) idle ∅ (example_crawler start) in
  levels r = 1%nat /\
  returned r = ∅ /\
  returned r <> {[start]} /\
  disk r !! "./discovered_urls.txt" = Some EmptyString.
Proof.
  assert (returned (crawl (one_page "http://example.com/" []) idle ∅
                      (example_crawler "http://example.com/")) = ∅) as Hempty.
  { apply leibniz_equiv. apply elements_empty_iff. by vm_compute. }
  split_and!; [by vm_compute|done| |by vm_compute].
  cbv zeta. rewrite Hempty. intros H.
  assert ("http://example.com/" ∈ (∅ : gset string)) as Hin
    by (rewrite H; set_solver).
  set_solver.
Qed.


(** *** A pool with nothing left to do *)

Lemma finish_idle (web : Web) (depth : Z) (fuel : nat) (c : WebCrawler)
    (nxt : gset string) :
  finish web depth fuel
    {| crawler := c; queue := []; running := []; next_urls := nxt |} =
  {| crawler := c; queue := []; running := []; next_urls := nxt |}.
Proof. by destruct fuel. Qed.


(** Apart from the start URL, what has been expanded has been discovered. *)
Lemma visited_discovered_or_start (web : Web) (self : WebCrawler)
    (depth : Z) (p : pool) :
  fresh self -> reachable web self depth p ->
  visited_urls (crawler p) ⊆ all_urls (crawler p) ∪ {[base_url self]}.
Proof.
  intros Hfresh Hreach u Hu.
  destruct (reachable_inv web self depth p Hfresh Hreach) as [_ _ Hvis _ _ _ _ _].
  destruct (Hvis u Hu) as [->|Hin]; set_solver.
Qed.

(** *** A start page without eligible links *)

Lemma dead_worker_step (web : Web) (depth : Z) (self c : WebCrawler) (w : worker) :
  dead_page web self ->
  all_urls c = ∅ -> domain c = domain self -> dead_worker web self w ->
  all_urls (fst (worker_step web depth c w)) = ∅ /\
  domain (fst (worker_step web depth c w)) = domain self /\
  match snd (worker_step web depth c w) with
  | inl w' => dead_worker web self w'
  | inr (Returned new_urls) => new_urls = ∅
  | inr Raised => True
  end.
Proof.
  intros Hdead Hall Hdom [Hurl Hw].
  destruct w as [url|url|url|url|url hrefs|url hrefs page|url full hrefs page];
    cbn [worker_step worker_url] in *; subst.
  - by destruct (bool_decide _).
  - by destruct (_ <? _).
  - by destruct (over_budget c).
  - destruct (get web (base_url self)) as [[status hrefs]|] eqn:Hget; [|done].
    destruct (raise_for_status status) eqn:Hstatus; [done|].
    cbn. split_and!; [done|done|]. split; [done|]. by eapply Hdead.
  - done.
  - destruct Hw as [Hlinks ->]. destruct hrefs as [|href hrefs]; [done|].
    destruct (urljoin web (base_url self) href) as [full_url|] eqn:Hjoin; [|done].
    rewrite (is_valid_url_config c self) by done.
    rewrite (Hlinks href full_url) by (done || by left). cbn.
    split_and!; [done|done|]. split; [done|]. split; [|done].
    intros h f Hh. apply Hlinks. by right.
  - done.
Qed.

Lemma dead_end_action (web : Web) (depth : Z) (self : WebCrawler)
    (p : pool) (a : action) :
  dead_page web self ->
  dead_end web self p -> dead_end web self (apply_action web depth p a).
Proof.
  intros Hdead (Hall & Hdom & Hnext & Hqueue & Hrun).
  destruct a as [k|i]; cbn [apply_action].
  - destruct (queue p !! k) as [url|] eqn:Hk; [|done].
    case_bool_decide; [|done]. split_and!; cbn; try done.
    + intros u Hu. apply Hqueue.
      eapply elem_of_sublist; [done|apply sublist_delete].
    + intros w [Hw| ->%list_elem_of_singleton]%elem_of_app; [by apply Hrun|].
      split; [|done]. cbn. apply Hqueue. by eapply list_elem_of_lookup_2.
  - destruct (running p !! i) as [w|] eqn:Hi; [|done].
    pose proof (lookup_lt_Some _ _ _ Hi) as Hlt.
    assert (dead_worker web self w) as Hw
      by (apply Hrun; by eapply list_elem_of_lookup_2).
    pose proof (dead_worker_step web depth self (crawler p) w Hdead Hall Hdom Hw)
      as (Hall' & Hdom' & Hout).
    destruct (worker_step web depth (crawler p) w) as [c' [w'|[new_urls|]]];
      cbn in Hall', Hdom', Hout; split_and!; cbn; try done.
    + intros w0 Hw0. apply list_elem_of_lookup in Hw0 as [j Hj].
      destruct (decide (j = i)) as [->|Hne].
      * rewrite list_lookup_insert_eq in Hj by done. by injection Hj as <-.
      * rewrite list_lookup_insert_ne in Hj by done.
        apply Hrun. by eapply list_elem_of_lookup_2.
    + rewrite Hnext, Hout. set_solver.
    + intros w0 Hw0. apply Hrun.
      eapply elem_of_sublist; [done|apply sublist_delete].
    + intros w0 Hw0. apply Hrun.
      eapply elem_of_sublist; [done|apply sublist_delete].
Qed.

Lemma dead_end_level (web : Web) (depth : Z) (sched : list action)
    (self c : WebCrawler) :
  dead_page web self ->
  all_urls c = ∅ -> domain c = domain self ->
  dead_end web self (level_end web depth sched c {[base_url self]}).
Proof.
  intros Hdead Hall Hdom. unfold level_end.
  assert (forall fuel p, dead_end web self p ->
                         dead_end web self (finish web depth fuel p)) as Hfinish.
  { induction fuel as [|fuel IH]; intros p Hp; [done|]. cbn.
    destruct (next_action p); [|done]. by apply IH, dead_end_action. }
  assert (forall acts p, dead_end web self p ->
                         dead_end web self (run web depth acts p)) as Hrun.
  { induction acts as [|a acts IH]; intros p Hp; [done|]. cbn.
    by apply IH, dead_end_action. }
  apply Hfinish, Hrun. split_and!; cbn; try done.
  - intros u Hu%elem_of_elements. set_solver.
  - intros w Hw. by apply elem_of_nil in Hw.
Qed.

Lemma dead_page_crawl (web : Web) (sched : Z -> list action)
    (fs : gmap string string) (self : WebCrawler) :
  fresh self -> 0 < max_depth self -> dead_page web self ->
  levels (crawl web sched fs self) = 1%nat /\
  returned (crawl web sched fs self) = ∅.
Proof.
  intros (_ & Hall & _) Hdepth Hdead.
  unfold crawl. destruct (Z.to_nat (max_depth self)) as [|n] eqn:Hn; [lia|].
  cbn [crawl_loop]. rewrite level_unfold.
  destruct (dead_end_level web 0 (sched 0) self self Hdead Hall eq_refl)
    as (Hall' & _ & Hnext & _).
  rewrite Hnext. by rewrite bool_decide_eq_true_2.
Qed.

Lemma no_eligible_links_dead (web : Web) (self : WebCrawler) :
  no_eligible_links web self = true -> dead_page web self.
Proof.
  unfold no_eligible_links, hrefs_of. rewrite forallb_forall. intros Hno.
  intros status hrefs Hget _ href full_url Hin%list_elem_of_In Hjoin.
  rewrite Hget in Hno. specialize (Hno href Hin). rewrite Hjoin in Hno.
  by apply negb_true_iff.
Qed.

(** Whatever the scheduler does, a crawl from a start page without
    eligible links makes one pass and returns the empty set: the start
    URL is not in it. *)
Lemma dead_end_crawl (web : Web) (sched : Z -> list action)
    (fs : gmap string string) (self : WebCrawler) :
  fresh self -> 0 < max_depth self -> no_eligible_links web self = true ->
  levels (crawl web sched fs self) = 1%nat /\
  returned (crawl web sched fs self) = ∅.
Proof.
  intros Hfresh Hdepth Hno.
  by apply dead_page_crawl, no_eligible_links_dead.
Qed.

(** *** The output file (C9) *)

Lemma same_config_refl (c : WebCrawler) : same_config c c.
Proof. by repeat split. Qed.

Lemma same_config_trans (a b c : WebCrawler) :
  same_config a b -> same_config b c -> same_config a c.
Proof. unfold same_config. intros (?&?&?&?&?) (?&?&?&?&?). split_and!; congruence. Qed.

Lemma worker_step_config (web : Web) (depth : Z) (c : WebCrawler) (w : worker) :
  same_config (fst (worker_step web depth c w)) c.
Proof.
  destruct w as [url|url|url|url|url hrefs|url [|href hrefs] page|url full hrefs page];
    cbn [worker_step];
    repeat match goal with
           | |- context [match ?x with _ => _ end] => destruct x
           end; by repeat split.
Qed.

Lemma apply_action_config (web : Web) (depth : Z) (p : pool) (a : action) :
  same_config (crawler (apply_action web depth p a)) (crawler p).
Proof.
  destruct a as [k|i]; cbn [apply_action].
  - destruct (queue p !! k); [|apply same_config_refl].
    case_bool_decide; apply same_config_refl.
  - destruct (running p !! i) as [w|]; [|apply same_config_refl].
    pose proof (worker_step_config web depth (crawler p) w) as H.
    by destruct (worker_step web depth (crawler p) w) as [c' [w'|[new_urls|]]].
Qed.

Lemma run_config (web : Web) (depth : Z) (sched : list action) (p : pool) :
  same_config (crawler (run web depth sched p)) (crawler p).
Proof.
  revert p. induction sched as [|a sched IH]; intros p; [apply same_config_refl|].
  cbn. eapply same_config_trans; [apply IH|apply apply_action_config].
Qed.

Lemma finish_config (web : Web) (depth : Z) (fuel : nat) (p : pool) :
  same_config (crawler (finish web depth fuel p)) (crawler p).
Proof.
  revert p. induction fuel as [|fuel IH]; intros p; [apply same_config_refl|].
  cbn. destruct (next_action p); [|apply same_config_refl].
  eapply same_config_trans; [apply IH|apply apply_action_config].
Qed.

Lemma crawl_loop_config (web : Web) (sched : Z -> list action) (n : nat)
    (depth : Z) (c : WebCrawler) (cur : gset string) :
  same_config (fst (crawl_loop web sched n depth c cur)) c.
Proof.
  revert depth c cur. induction n as [|n IH]; intros depth c cur;
    [apply same_config_refl|].
  cbn [crawl_loop]. rewrite level_unfold.
  assert (same_config (crawler (level_end web depth (sched depth) c cur)) c) as Hl.
  { unfold level_end. eapply same_config_trans; [apply finish_config|].
    apply (run_config web depth (sched depth) (start_pool c cur)). }
  case_bool_decide; [done|].
  specialize (IH (depth + 1) (crawler (level_end web depth (sched depth) c cur))
                (next_urls (level_end web depth (sched depth) c cur))).
  destruct (crawl_loop web sched n (depth + 1) _ _) as [c'' k].
  cbn in *. by eapply same_config_trans.
Qed.

Lemma crawl_config (web : Web) (sched : Z -> list action)
    (fs : gmap string string) (self : WebCrawler) :
  same_config (final (crawl web sched fs self)) self.
Proof.
  unfold crawl.
  pose proof (crawl_loop_config web sched (Z.to_nat (max_depth self)) 0 self
                {[base_url self]}) as H.
  by destruct (crawl_loop web sched _ 0 self _).
Qed.

Lemma crawl_disk (web : Web) (sched : Z -> list action)
    (fs : gmap string string) (self : WebCrawler) :
  disk (crawl web sched fs self) =
    <[output_file self :=
        encode_utf8 (write_lines (output_lines (final (crawl web sched ∅ self))))]> fs.
Proof.
  pose proof (crawl_config web sched fs self) as (_ & Hout & _).
  revert Hout. unfold crawl.
  destruct (crawl_loop web sched _ 0 self _) as [c k]. cbn.
  by intros ->.
Qed.

Lemma encode_utf8_lines (lines : list string) :
  encode_utf8 (write_lines lines) = write_lines (map encode_utf8 lines).
Proof.
  induction lines as [|l lines IH]; [done|]. cbn [write_lines map].
  rewrite encode_utf8_app. cbn [encode_utf8]. by rewrite IH.
Qed.







(** An instance of C9 with a file already in place, and one with a
    character outside ASCII: [é] (code point 233) is written as the two
    bytes 195 and 169. *)
Example crawl_overwrites_old_output :
  let start := "http://example.com/" in
  let web := one_page start ["http://example.com/b"; "http://example.com/a"] in
  let old := {[ "./discovered_urls.txt" := "stale" ]} in
  disk (crawl web idle old (example_crawler start)) !! "./discovered_urls.txt"
  = Some ("http://example.com/a" +:+ String LF
            ("http://example.com/b" +:+ String LF EmptyString)).
Proof. by vm_compute. Qed.

Example crawl_writes_two_bytes :
  let start := "http://example.com/" in
  let link := "http://example.com/caf" +:+ String (ascii_of_N 233) EmptyString in
  disk (crawl (one_page start [link]) idle ∅ (example_crawler start))
    !! "./discovered_urls.txt"
  = Some ("http://example.com/caf" +:+
          String (ascii_of_N 195) (String (ascii_of_N 169) (String LF EmptyString))).
Proof. by vm_compute. Qed.

End CrawlerSpec.

(** * The acquirer: theorems *)

Module ScraperSpec.
Import PyStr UrlParse Scraper ScraperInv PyStrFacts.

(** *** File names *)

Lemma ensure_pdf_ends (filename : string) :
  endswith (lower (ensure_pdf filename)) ".pdf" = true.
Proof.
  unfold ensure_pdf. destruct (endswith (lower filename) ".pdf") eqn:E; [done|].
  rewrite lower_app. apply endswith_app.
Qed.

Lemma suffixed_ends (original_filename : string) (counter : Z) :
  endswith (suffixed original_filename counter) ".pdf" = true /\
  endswith (lower (suffixed original_filename counter)) ".pdf" = true.
Proof.
  unfold suffixed. split.
  - rewrite <- !app_assoc. apply endswith_app.
  - rewrite !lower_app. rewrite <- !app_assoc. apply (endswith_app _ ".pdf").
Qed.

Lemma suffixed_inj (original_filename : string) (a b : Z) :
  suffixed original_filename a = suffixed original_filename b -> a = b.
Proof.
  unfold suffixed. intros H.
  apply app_inv_head, app_inv_head, app_inv_tail in H.
  by apply pretty_Z_inj in H.
Qed.

Lemma pdf_name_not_history (name : string) :
  endswith (lower name) ".pdf" = true -> name <> history_file.
Proof. intros H ->. vm_compute in H. discriminate. Qed.

(** The loop stops at the first free name. *)
Lemma unused_name_spec (files : gmap string string) (original_filename : string)
    (fuel : nat) (counter : Z) (filename name : string) :
  unused_name files original_filename fuel counter filename = Some name ->
  files !! name = None /\
  (name = filename \/
   is_Some (files !! filename) /\
   exists k, counter <= k /\ name = suffixed original_filename k /\
             forall j, counter <= j < k ->
                       is_Some (files !! suffixed original_filename j)).
Proof.
  revert counter filename.
  induction fuel as [|fuel IH]; intros counter filename; cbn [unused_name].
  - destruct (files !! filename) eqn:E; [done|]. intros [= <-]. auto.
  - destruct (files !! filename) eqn:E; [|intros [= <-]; auto].
    intros H. apply IH in H as [Hfree Hname]. split; [done|]. right.
    split; [done|].
    destruct Hname as [->|[Htaken (k & Hk & -> & Hbelow)]].
    + exists counter. split_and!; [lia|done|]. intros j Hj. lia.
    + exists k. split_and!; [lia|done|]. intros j Hj.
      destruct (decide (j = counter)) as [->|]; [done|]. apply Hbelow. lia.
Qed.

Lemma unused_name_enough (files : gmap string string) (original_filename : string)
    (fuel : nat) (counter : Z) (filename : string) :
  files !! filename = None \/
  (exists j, (j < fuel)%nat /\
             files !! suffixed original_filename (counter + Z.of_nat j) = None) ->
  is_Some (unused_name files original_filename fuel counter filename).
Proof.
  revert counter filename.
  induction fuel as [|fuel IH]; intros counter filename H; cbn [unused_name].
  - destruct H as [->|(j & Hj & _)]; [done|lia].
  - destruct (files !! filename) eqn:E; [|done].
    destruct H as [H|(j & Hj & Hfree)]; [done|].
    apply IH. destruct j as [|j].
    + left. by rewrite Z.add_0_r in Hfree.
    + right. exists j. split; [lia|].
      by replace (counter + 1 + Z.of_nat j) with (counter + Z.of_nat (S j)) by lia.
Qed.

(** More names than files: one of them is free. *)
Lemma free_suffix_exists (files : gmap string string) (original_filename : string) :
  exists j, (j < S (size files))%nat /\
            files !! suffixed original_filename (1 + Z.of_nat j) = None.
Proof.
  set (names := map (fun j => suffixed original_filename (1 + Z.of_nat j))
                    (seq 0 (S (size files)))).
  destruct (decide (Forall (fun x => is_Some (files !! x)) names)) as [Hall|Hex].
  - exfalso.
    assert (NoDup names) as Hnd.
    { apply NoDup_fmap_2; [|apply NoDup_seq].
      intros a b Hab. apply suffixed_inj in Hab. lia. }
    assert (list_to_set names ⊆ (dom files : gset string)) as Hsub.
    { intros x Hx. apply elem_of_list_to_set in Hx. apply elem_of_dom.
      rewrite Forall_forall in Hall. by apply Hall. }
    apply subseteq_size in Hsub.
    rewrite size_list_to_set in Hsub by done. rewrite size_dom in Hsub.
    unfold names in Hsub. rewrite length_map, length_seq in Hsub. lia.
  - apply not_Forall_Exists in Hex; [|apply _].
    apply Exists_exists in Hex as (x & Hx & Hfree).
    apply list_elem_of_fmap in Hx as (j & -> & Hj).
    apply elem_of_seq in Hj. exists j. split; [lia|].
    by apply eq_None_not_Some.
Qed.

Lemma stored_name_total (env : Env) (url : string) (filename : option string)
    (response : Response) (s : PDFScraper) :
  exists name, stored_name env url filename response s = Some name.
Proof.
  unfold stored_name.
  destruct (free_suffix_exists (files s)
              (remove_dot_pdf (choose_filename env url filename response)))
    as (j & Hj & Hfree).
  apply (unused_name_enough _ _ _ 1). right. by exists j.
Qed.

Lemma choose_filename_ends (env : Env) (url : string) (filename : option string)
    (response : Response) :
  endswith (lower (choose_filename env url filename response)) ".pdf" = true.
Proof. unfold choose_filename. apply ensure_pdf_ends. Qed.

Lemma stored_name_fresh (env : Env) (url : string) (filename : option string)
    (response : Response) (s : PDFScraper) (name : string) :
  stored_name env url filename response s = Some name ->
  files s !! name = None /\ endswith (lower name) ".pdf" = true /\
  name <> history_file.
Proof.
  unfold stored_name. intros H.
  apply unused_name_spec in H as [Hfree Hname].
  assert (endswith (lower name) ".pdf" = true) as Hpdf.
  { destruct Hname as [->|[_ (k & _ & -> & _)]].
    - apply choose_filename_ends.
    - apply suffixed_ends. }
  split_and!; [done|done|by apply pdf_name_not_history].
Qed.


(** *** [download_pdf], case by case *)

Lemma download_pdf_outcome (env : Env) (url : string) (filename : option string)
    (s : PDFScraper) :
  exists ok s', download_pdf env url filename s = (Returns ok, s') /\
                download_outcome env url filename s ok s'.
Proof.
  unfold download_pdf, bind, gets. cbn beta iota.
  case_bool_decide as Hknown.
  { exists false, s. split; [done|]. by constructor. }
  unfold try_except.
  destruct (requests_get env url) as [response|] eqn:Hget.
  2:{ exists false, s. split; [done|]. by apply FetchRaised. }
  destruct (Z.eqb_spec (status_code response) 200) as [Hstatus|Hstatus]; cbn [negb].
  2:{ exists false, s. split; [done|]. by eapply FetchFailed. }
  destruct (stored_name_total env url filename response s) as [name Hname].
  pose proof Hname as Hname'. unfold stored_name in Hname'.
  unfold resolve_collisions, ret. rewrite Hname'.
  unfold write_body, bind, modify, raise, ret.
  destruct (stream_breaks response) eqn:Hbreak.
  { eexists false, _. split; [done|]. by eapply StreamBroken. }
  unfold _calculate_file_hash. cbn [files set_files].
  rewrite lookup_insert_eq. fold (body response).
  case_bool_decide as Hdup.
  - eexists false, _. split; [done|]. by eapply Duplicate.
  - eexists true, _. split; [done|]. by eapply Accepted.
Qed.


(** *** Nothing escapes (C8) *)

Lemma download_each_returns (env : Env) (links : list string) (n : Z)
    (s : PDFScraper) :
  exists m s', download_each env links n s = (Returns m, s').
Proof.
  revert n s. induction links as [|u links IH]; intros n s; cbn [download_each].
  - by exists n, s.
  - unfold bind.
    destruct (download_pdf_outcome env u None s) as (ok & s1 & -> & _).
    apply IH.
Qed.

Lemma scrape_page_returns (env : Env) (url : string) (s : PDFScraper) :
  exists n s', scrape_page env url s = (Returns n, s').
Proof.
  unfold scrape_page, try_except.
  destruct (requests_get env url) as [response|]; [|by exists 0, s].
  destruct (negb (status_code response =? 200)); [by exists 0, s|].
  destruct (extract_pdf_links env (pdf_containers response) url)
    as [pdf_links|]; [|by exists 0, s].
  destruct (download_each_returns env pdf_links 0 s) as (m & s' & ->).
  by exists m, s'.
Qed.

Lemma scrape_pages_returns (env : Env) (urls : list string) (total : Z)
    (s : PDFScraper) :
  exists n s', scrape_pages env urls total s = (Returns n, s').
Proof.
  revert total s. induction urls as [|url urls IH]; intros total s;
    cbn [scrape_pages].
  - by exists total, s.
  - unfold bind. destruct (scrape_page_returns env url s) as (n & s1 & ->).
    apply IH.
Qed.

Lemma scrape_page_failed (env : Env) (url : string) (response : Response)
    (s : PDFScraper) :
  requests_get env url = Some response -> status_code response <> 200 ->
  scrape_page env url s = (Returns 0, s).
Proof.
  intros Hget Hstatus. unfold scrape_page, try_except. rewrite Hget.
  by destruct (Z.eqb_spec (status_code response) 200).
Qed.

Lemma scrape_pages_skip (env : Env) (url : string) (before after : list string)
    (total : Z) (s : PDFScraper) :
  (forall s0, scrape_page env url s0 = (Returns 0, s0)) ->
  scrape_pages env (before ++ url :: after) total s =
  scrape_pages env (before ++ after) total s.
Proof.
  intros Hskip. revert total s.
  induction before as [|u before IH]; intros total s; cbn [app scrape_pages].
  - unfold bind. rewrite Hskip. by rewrite Z.add_0_r.
  - unfold bind. destruct (scrape_page env u s) as [[n| |] s1]; [apply IH|done|done].
Qed.

(** C8: a page whose fetch answers with a status other than 200 counts
    zero documents and leaves the scraper and the directory as they were;
    the run goes on as if the page were not in the list; and
    [scrape_multiple_pages] returns a count whatever the pages and the
    network do. *)
Theorem failed_page_is_skipped (env : Env) (url : string) (response : Response)
    (before after : list string) (s : PDFScraper) :
  requests_get env url = Some response ->
  status_code response <> 200 ->
  scrape_page env url s = (Returns 0, s) /\
  scrape_multiple_pages env (before ++ url :: after) s =
    scrape_multiple_pages env (before ++ after) s /\
  (forall urls s0, exists n s', scrape_multiple_pages env urls s0 = (Returns n, s')).
Proof.
  intros Hget Hstatus. split_and!.
  - by eapply scrape_page_failed.
  - apply scrape_pages_skip. intros s0. by eapply scrape_page_failed.
  - intros urls s0. apply scrape_pages_returns.
Qed.

Lemma failed_page_is_skipped_witness :
  let env := two_links "http://doj.example/a.pdf" "http://doj.example/b.pdf"
               "A" "B" in
  let s := __init__ ∅ in
  status_code (page_response 404 ["http://doj.example/a.pdf"]) <> 200 /\
  scrape_page env "http://doj.example/gone" s = (Returns 0, s) /\
  scrape_multiple_pages env
    (["http://doj.example/press"] ++ "http://doj.example/gone" :: []) s =
    scrape_multiple_pages env (["http://doj.example/press"] ++ []) s.
Proof.
  intros env s.
  assert (status_code (page_response 404 ["http://doj.example/a.pdf"]) <> 200)
    as Hstatus by (cbn; lia).
  split; [exact Hstatus|].
  destruct (failed_page_is_skipped env "http://doj.example/gone"
              (page_response 404 ["http://doj.example/a.pdf"])
              ["http://doj.example/press"] [] s eq_refl Hstatus)
    as (Hpage & Hrun & _).
  split; [exact Hpage|exact Hrun].
Defined.


(** *** Duplicate content (C7) *)

Lemma set_files_id (s : PDFScraper) : set_files (fun f => f) s = s.
Proof. by destruct s. Qed.

Lemma write_then_delete (name content : string) (s : PDFScraper) :
  files s !! name = None ->
  set_files (delete name) (set_files (<[name := content]>) s) = s.
Proof.
  intros Hfree. destruct s as [urls hashes fs]. unfold set_files; cbn in *.
  by rewrite delete_insert_id.
Qed.

(** C7: when the digest of the fetched body is already in
    [downloaded_hashes], [download_pdf] writes the body under a name that
    was free, removes that file again and returns [False]; the scraper and
    the whole directory, the history file included, are as before. *)
Theorem duplicate_content_is_discarded (env : Env) (url : string)
    (filename : option string) (response : Response) (s : PDFScraper) :
  url ∉ downloaded_urls s ->
  requests_get env url = Some response ->
  status_code response = 200 ->
  stream_breaks response = false ->
  md5_hexdigest env (body response) ∈ downloaded_hashes s ->
  exists name,
    files s !! name = None /\
    download_pdf env url filename s =
      (Returns false,
       set_files (delete name) (set_files (<[name := body response]>) s)) /\
    set_files (delete name) (set_files (<[name := body response]>) s) = s.
Proof.
  intros Hnew Hget Hstatus Hstream Hdup.
  destruct (download_pdf_outcome env url filename s) as (ok & s' & Hrun & Hout).
  inversion Hout as [| | | |r name Hn Hg Hs Hname Hb Hd|r name Hn Hg Hs Hname Hb Hd];
    subst; try congruence.
  rewrite Hget in Hg; injection Hg as <-.
  exists name. destruct (stored_name_fresh _ _ _ _ _ _ Hname) as (Hfree & _ & _).
  split_and!; [done|done|by apply write_then_delete].
Qed.

(** Two links to one document: the second download is the duplicate. *)
Lemma duplicate_content_is_discarded_witness :
  let env := two_links "http://doj.example/a.pdf" "http://doj.example/b.pdf"
               "same bytes" "same bytes" in
  let s := snd (download_pdf env "http://doj.example/a.pdf" None (__init__ ∅)) in
  ("http://doj.example/b.pdf" ∉ downloaded_urls s) /\
  (md5_hexdigest env (body (pdf_response None ["same bytes"])) ∈ downloaded_hashes s) /\
  download_pdf env "http://doj.example/b.pdf" None s = (Returns false, s).
Proof.
  intros env s.
  assert ("http://doj.example/b.pdf" ∉ downloaded_urls s) as Hnew
    by (apply (bool_decide_unpack _); vm_compute; exact I).
  assert (md5_hexdigest env (body (pdf_response None ["same bytes"]))
            ∈ downloaded_hashes s) as Hdup
    by (apply (bool_decide_unpack _); vm_compute; exact I).
  split; [exact Hnew|]. split; [exact Hdup|].
  destruct (duplicate_content_is_discarded env "http://doj.example/b.pdf" None
              (pdf_response None ["same bytes"]) s Hnew eq_refl eq_refl eq_refl Hdup)
    as (name & _ & Hrun & Hsame).
  rewrite Hrun. f_equal. exact Hsame.
Defined.


(** *** Existing files are never written over (C6) *)

Lemma grown_refl (fs : gmap string string) : grown fs fs.
Proof.
  split_and!.
  - apply delete_subseteq.
  - intros text H. exists EmptyString. by rewrite app_nil_r.
  - intros name Hname. set_solver.
Qed.

Lemma grown_trans (a b c : gmap string string) :
  grown a b -> grown b c -> grown a c.
Proof.
  intros (Hab & Hhab & Hnab) (Hbc & Hhbc & Hnbc). split_and!.
  - etrans; [|exact Hbc].
    rewrite <- (delete_delete_eq a). by apply delete_mono.
  - intros text Ha. destruct (Hhab text Ha) as [x Hb].
    destruct (Hhbc _ Hb) as [y Hc]. exists (x +:+ y).
    by rewrite Hc, app_assoc.
  - intros name Hname.
    destruct (decide (name ∈ dom b)); [apply Hnab|apply Hnbc]; set_solver.
Qed.

Lemma grown_insert_pdf (fs : gmap string string) (name content : string) :
  fs !! name = None -> endswith (lower name) ".pdf" = true ->
  grown fs (<[name := content]> fs).
Proof.
  intros Hfree Hpdf.
  pose proof (pdf_name_not_history name Hpdf) as Hne. split_and!.
  - etrans; [apply delete_subseteq|]. by apply insert_subseteq.
  - intros text H. exists EmptyString.
    by rewrite lookup_insert_ne, app_nil_r.
  - intros x Hx. rewrite dom_insert_L in Hx.
    assert (x = name) as -> by set_solver. done.
Qed.

Lemma grown_append_line (fs : gmap string string) (url : string) :
  grown fs (append_line url fs).
Proof.
  unfold append_line. split_and!.
  - apply map_subseteq_spec. intros k v Hk.
    apply lookup_delete_Some in Hk as [Hne Hk]. by rewrite lookup_insert_ne.
  - intros text H. rewrite H. cbn. eexists. by rewrite lookup_insert_eq.
  - intros x Hx. rewrite dom_insert_L in Hx. set_solver.
Qed.

Lemma download_outcome_grown (env : Env) (url : string) (filename : option string)
    (s s' : PDFScraper) (ok : bool) :
  download_outcome env url filename s ok s' -> grown (files s) (files s').
Proof.
  intros Hout.
  inversion Hout as [| | |r name Hn Hg Hs Hname Hb
                     |r name Hn Hg Hs Hname Hb Hd|r name Hn Hg Hs Hname Hb Hd];
    subst; try apply grown_refl;
    destruct (stored_name_fresh _ _ _ _ _ _ Hname) as (Hfree & Hpdf & Hne).
  - by apply grown_insert_pdf.
  - rewrite write_then_delete by done. apply grown_refl.
  - cbn [files set_files record_download].
    eapply grown_trans; [by apply grown_insert_pdf|apply grown_append_line].
Qed.

Lemma download_each_grown (env : Env) (links : list string) (n : Z)
    (s : PDFScraper) :
  grown (files s) (files (snd (download_each env links n s))).
Proof.
  revert n s. induction links as [|u links IH]; intros n s; cbn [download_each].
  - apply grown_refl.
  - unfold bind.
    destruct (download_pdf_outcome env u None s) as (ok & s1 & -> & Hout).
    eapply grown_trans; [by eapply download_outcome_grown|apply IH].
Qed.

Lemma scrape_page_grown (env : Env) (url : string) (s : PDFScraper) :
  grown (files s) (files (snd (scrape_page env url s))).
Proof.
  unfold scrape_page, try_except.
  destruct (requests_get env url) as [response|]; [|apply grown_refl].
  destruct (negb (status_code response =? 200)); [apply grown_refl|].
  destruct (extract_pdf_links env (pdf_containers response) url)
    as [pdf_links|]; [|apply grown_refl].
  pose proof (download_each_grown env pdf_links 0 s) as H.
  destruct (download_each_returns env pdf_links 0 s) as (m & s' & Heq).
  by rewrite Heq in *.
Qed.

Lemma scrape_pages_grown (env : Env) (urls : list string) (total : Z)
    (s : PDFScraper) :
  grown (files s) (files (snd (scrape_pages env urls total s))).
Proof.
  revert total s. induction urls as [|url urls IH]; intros total s;
    cbn [scrape_pages].
  - apply grown_refl.
  - unfold bind. pose proof (scrape_page_grown env url s) as H.
    destruct (scrape_page_returns env url s) as (n & s1 & Heq).
    rewrite Heq in *. eapply grown_trans; [exact H|apply IH].
Qed.


(** Two documents that both want the name [a.pdf]. *)
Example second_document_gets_suffix :
  let env := two_links "http://doj.example/x/a.pdf" "http://doj.example/y/a.pdf"
               "first" "second" in
  let dir := snd (run env ["http://doj.example/press"] ∅) in
  dir !! "a.pdf" = Some "first" /\ dir !! "a_1.pdf" = Some "second" /\
  size dir = 3%nat.
Proof. by vm_compute. Qed.


(** *** The history file, written and read back *)

Lemma readlines_nil (text : string) : readlines text = [] -> text = EmptyString.
Proof.
  destruct text as [|c rest]; [done|]. cbn [readlines].
  destruct (Ascii.eqb c LF); [done|].
  destruct (Ascii.eqb c CR).
  - destruct rest as [|c' rest']; [done|]. by destruct (Ascii.eqb c' LF).
  - by destruct (readlines rest).
Qed.

Lemma terminated_cons (c : ascii) (rest : string) :
  terminated (String c rest) = true ->
  rest = EmptyString /\ is_newline c = true \/
  rest <> EmptyString /\ terminated rest = true.
Proof. destruct rest; cbn; auto. Qed.

Lemma terminated_app_LF (text : string) :
  terminated (text +:+ String LF EmptyString) = true.
Proof.
  induction text as [|c text IH]; [done|]. rewrite app_cons.
  cbn [terminated]. destruct (text +:+ String LF EmptyString) eqn:E; [|done].
  by destruct text.
Qed.

(** Appending to a terminated text appends to its lines. *)
Lemma readlines_app (text line : string) (c : ascii) :
  terminated text = true -> Ascii.eqb c LF = false ->
  readlines (text +:+ String c line) =
    (readlines text ++ readlines (String c line))%list.
Proof.
  intros Hterm Hc.
  remember (String.length text) as n eqn:Hn.
  assert (String.length text <= n)%nat as Hlen by lia. clear Hn.
  revert text Hterm Hlen. induction n as [|n IH]; intros text Hterm Hlen.
  { destruct text; [done|cbn in Hlen; lia]. }
  destruct text as [|a rest]; [done|]. cbn [String.length] in Hlen.
  rewrite app_cons. cbn [readlines].
  destruct (Ascii.eqb a LF) eqn:Ea.
  { cbn [app]. f_equal. destruct (terminated_cons _ _ Hterm) as [[-> _]|[_ Hr]];
      [done|apply IH; [done|lia]]. }
  destruct (Ascii.eqb a CR) eqn:Eb.
  { destruct rest as [|b rest'].
    - rewrite app_nil_l. cbn [readlines]. by rewrite Hc.
    - rewrite app_cons. destruct (terminated_cons _ _ Hterm) as [[? _]|[_ Hr]]; [done|].
      destruct (Ascii.eqb b LF) eqn:Ec.
      + cbn [app]. f_equal.
        destruct (terminated_cons _ _ Hr) as [[-> _]|[_ Hr']];
          [done|apply IH; [done|cbn in Hlen; lia]].
      + cbn [app]. f_equal. rewrite <- app_cons. apply IH; [done|lia]. }
  destruct (terminated_cons _ _ Hterm) as [[-> Hnl]|[Hne Hr]].
  { unfold is_newline in Hnl. by rewrite Ea, Eb in Hnl. }
  rewrite IH by (done || lia).
  destruct (readlines rest) as [|l ls] eqn:El; [by apply readlines_nil in El|].
  done.
Qed.

Lemma readlines_one_line (url : string) :
  has_char LF url = false -> has_char CR url = false ->
  readlines (url +:+ String LF EmptyString) = [url +:+ String LF EmptyString].
Proof.
  induction url as [|c url IH]; [done|]. cbn [has_char].
  intros [Hc Hu]%orb_false_iff [Hc' Hu']%orb_false_iff.
  rewrite app_cons. cbn [readlines]. rewrite Hc, Hc'. by rewrite IH.
Qed.

Lemma rstrip_length (s : string) : (String.length (rstrip s) <= String.length s)%nat.
Proof.
  induction s as [|c s IH]; [done|]. cbn [rstrip].
  destruct (rstrip s); [destruct (isspace c)|]; cbn in *; lia.
Qed.

Lemma lstrip_length (s : string) : (String.length (lstrip s) <= String.length s)%nat.
Proof.
  induction s as [|c s IH]; [done|]. cbn [lstrip].
  destruct (isspace c); cbn in *; lia.
Qed.

Lemma rstrip_app_space (s : string) (c : ascii) :
  isspace c = true -> rstrip (s +:+ String c EmptyString) = rstrip s.
Proof.
  intros Hc. induction s as [|a s IH].
  - rewrite app_nil_l. cbn. by rewrite Hc.
  - rewrite app_cons. cbn [rstrip]. by rewrite IH.
Qed.

Lemma strip_line (url : string) :
  strip url = url -> strip (url +:+ String LF EmptyString) = url.
Proof.
  unfold strip. intros H. destruct url as [|c url]; [done|].
  cbn [lstrip] in *. rewrite app_cons. cbn [lstrip].
  destruct (isspace c) eqn:Ec.
  - exfalso. apply (f_equal String.length) in H.
    pose proof (rstrip_length (lstrip url)). pose proof (lstrip_length url).
    cbn in H. lia.
  - rewrite <- app_cons. by rewrite rstrip_app_space.
Qed.

Lemma line_safe_spec (url : string) :
  line_safe url = true ->
  url <> EmptyString /\ has_char LF url = false /\ has_char CR url = false /\
  strip url = url.
Proof.
  unfold line_safe. rewrite !andb_true_iff, !negb_true_iff.
  intros [[[Hne Hlf] Hcr] Hs]. split_and!; try done.
  - intros ->. done.
  - by apply String.eqb_eq.
Qed.

Lemma read_history_append (url : string) (fs : gmap string string) :
  history_terminated fs = true -> line_safe url = true ->
  read_history (append_line url fs) = read_history fs ∪ {[url]} /\
  history_terminated (append_line url fs) = true.
Proof.
  intros Hterm (Hne & Hlf & Hcr & Hstrip)%line_safe_spec.
  unfold read_history, history_terminated, append_line in *.
  rewrite lookup_insert_eq. split; [|rewrite <- app_assoc; apply terminated_app_LF].
  assert (terminated (default EmptyString (fs !! history_file)) = true) as Ht
    by (by destruct (fs !! history_file)).
  assert (read_history fs =
          list_to_set (map strip (readlines (default EmptyString (fs !! history_file)))))
    as Hold by (unfold read_history; by destruct (fs !! history_file)).
  unfold read_history in Hold. rewrite Hold.
  destruct url as [|c url]; [done|].
  rewrite app_cons, readlines_app; [|done|by apply orb_false_iff in Hlf as [? _]].
  rewrite <- app_cons, readlines_one_line by done.
  rewrite map_app, list_to_set_app_L. cbn [map list_to_set].
  rewrite strip_line by done. set_solver.
Qed.


(** C10 (as the code has it): a URL that is not empty, has no line
    break in it and no white space at its ends is found in the history of
    a new [PDFScraper] after [save_url_to_history] wrote it, provided the
    history file was absent, empty or ended in a line break before; and
    every history file that [save_url_to_history] has written to ends in a
    line break. *)
Theorem history_round_trip (url : string) (s : PDFScraper) :
  line_safe url = true ->
  history_terminated (files s) = true ->
  url ∈ downloaded_urls (__init__ (files (snd (save_url_to_history url s)))) /\
  forall url' s', history_terminated
                    (files (snd (save_url_to_history url' s'))) = true.
Proof.
  intros Hsafe Hterm. split.
  - change (url ∈ read_history (append_line url (files s))).
    destruct (read_history_append url (files s) Hterm Hsafe) as [-> _].
    set_solver.
  - intros url' s'.
    change (history_terminated (append_line url' (files s')) = true).
    unfold history_terminated, append_line.
    rewrite lookup_insert_eq, <- app_assoc. apply terminated_app_LF.
Qed.

Lemma history_round_trip_witness :
  let url := "http://doj.example/b.pdf" in
  let s := __init__ {[ history_file := "http://doj.example/a.pdf" +:+ String LF "" ]} in
  line_safe url = true /\ history_terminated (files s) = true /\
  url ∈ downloaded_urls (__init__ (files (snd (save_url_to_history url s)))).
Proof.
  intros url s.
  assert (line_safe url = true) as Hsafe by (vm_compute; reflexivity).
  assert (history_terminated (files s) = true) as Hterm by (vm_compute; reflexivity).
  split; [exact Hsafe|]. split; [exact Hterm|].
  exact (proj1 (history_round_trip url s Hsafe Hterm)).
Defined.

(** C10, counterexample: a history file whose last line has no line
    break. The appended URL is glued to that line and is not found again. *)
Lemma history_without_final_newline :
  let url := "http://doj.example/b.pdf" in
  let s := __init__ {[ history_file := "http://doj.example/a.pdf" ]} in
  line_safe url = true /\
  files (snd (save_url_to_history url s)) !! history_file =
    Some ("http://doj.example/a.pdfhttp://doj.example/b.pdf" +:+ String LF "") /\
  url ∉ downloaded_urls (__init__ (files (snd (save_url_to_history url s)))).
Proof.
  split_and!; [by vm_compute|by vm_compute|].
  apply (bool_decide_unpack _). vm_compute. exact I.
Qed.


(** *** Running the acquirer twice (C3) *)

Lemma digest_of_stored (env : Env) (url : string) (response : Response) :
  requests_get env url = Some response -> status_code response = 200 ->
  stream_breaks response = false ->
  digest_of env url = Some (md5_hexdigest env (body response)).
Proof.
  intros Hget Hstatus Hstream. unfold digest_of.
  by rewrite Hget, Hstatus, Hstream.
Qed.

Lemma distinct_contents_spec (env : Env) (links : list string) (u v h : string) :
  distinct_contents env links = true -> u ∈ links -> v ∈ links ->
  digest_of env u = Some h -> digest_of env v = Some h -> u = v.
Proof.
  unfold distinct_contents. rewrite forallb_forall.
  intros Hall Hu%list_elem_of_In Hv%list_elem_of_In Hdu Hdv.
  specialize (Hall u Hu). rewrite forallb_forall in Hall.
  specialize (Hall v Hv). unfold same_digest in Hall.
  rewrite Hdu, Hdv, String.eqb_refl in Hall. by apply String.eqb_eq.
Qed.

Lemma read_history_insert (fs : gmap string string) (name content : string) :
  name <> history_file ->
  read_history (<[name := content]> fs) = read_history fs /\
  history_terminated (<[name := content]> fs) = history_terminated fs.
Proof.
  intros Hne. unfold read_history, history_terminated.
  by rewrite lookup_insert_ne.
Qed.

Section TwoRuns.
Variable env : Env.
Variable links : list string.
Hypothesis links_safe : forallb line_safe links = true.
Hypothesis links_distinct : distinct_contents env links = true.

Lemma link_safe (u : string) : u ∈ links -> line_safe u = true.
Proof.
  intros Hu%list_elem_of_In. rewrite forallb_forall in links_safe. auto.
Qed.

(** The first run keeps the history sound and settles the link. *)
Lemma first_run_download (u : string) (s s' : PDFScraper) (ok : bool) :
  u ∈ links -> history_sound env links s ->
  download_outcome env u None s ok s' ->
  history_sound env links s' /\
  downloaded_urls s ⊆ downloaded_urls s' /\
  (u ∈ downloaded_urls s' \/ digest_of env u = None).
Proof.
  intros Hu (Hhash & Hterm & Hsub) Hout.
  inversion Hout as [Hin|Hn Hg|r Hn Hg Hs|r name Hn Hg Hs Hname Hb
                     |r name Hn Hg Hs Hname Hb Hd|r name Hn Hg Hs Hname Hb Hd];
    subst.
  - split_and!; [done|done|by left].
  - split_and!; [done|done|]. right. unfold digest_of. by rewrite Hg.
  - split_and!; [done|done|]. right. unfold digest_of. rewrite Hg.
    by destruct (Z.eqb_spec (status_code r) 200).
  - destruct (stored_name_fresh _ _ _ _ _ _ Hname) as (_ & _ & Hne).
    destruct (read_history_insert (files s) name (body r) Hne) as [Hr Ht].
    split_and!; [|done|].
    + split_and!; cbn [downloaded_hashes downloaded_urls files set_files];
        [done|by rewrite Ht|by rewrite Hr].
    + right. unfold digest_of. rewrite Hg, Hb.
      by destruct (status_code r =? 200).
  - exfalso. destruct (Hhash _ Hd) as (v & Hv & Hvl & Hdv).
    pose proof (digest_of_stored env u r Hg Hs Hb) as Hdu.
    assert (u = v) as -> by (by eapply distinct_contents_spec).
    done.
  - destruct (stored_name_fresh _ _ _ _ _ _ Hname) as (_ & _ & Hne).
    destruct (read_history_insert (files s) name (body r) Hne) as [Hr Ht].
    destruct (read_history_append u (<[name := body r]> (files s)))
      as [Happ Hterm']; [by rewrite Ht|by apply link_safe|].
    unfold history_sound.
    cbn [downloaded_hashes downloaded_urls files set_files record_download].
    split_and!.
    + intros h [Hh| ->%elem_of_singleton]%elem_of_union.
      * destruct (Hhash h Hh) as (v & Hv & Hvl & Hdv). exists v.
        split_and!; [set_solver|done|done].
      * exists u. split_and!; [set_solver|done|by apply digest_of_stored].
    + done.
    + rewrite Happ, Hr. set_solver.
    + set_solver.
    + left. set_solver.
Qed.

Lemma first_run_each (us : list string) (n : Z) (s : PDFScraper) :
  (forall u, u ∈ us -> u ∈ links) -> history_sound env links s ->
  let s' := snd (download_each env us n s) in
  history_sound env links s' /\
  downloaded_urls s ⊆ downloaded_urls s' /\
  (forall u, u ∈ us -> u ∈ downloaded_urls s' \/ digest_of env u = None).
Proof.
  revert n s. induction us as [|u us IH]; intros n s Hus Hsound;
    cbn [download_each].
  - split_and!; [done|done|]. intros u Hu. by apply elem_of_nil in Hu.
  - unfold bind.
    destruct (download_pdf_outcome env u None s) as (ok & s1 & -> & Hout).
    destruct (first_run_download u s s1 ok) as (Hs1 & Hmono1 & Hu1);
      [apply Hus; by left|done|done|].
    destruct (IH (if ok then n + 1 else n) s1) as (Hs' & Hmono & Hrest);
      [intros v Hv; apply Hus; by right|done|].
    split_and!; [done|set_solver|].
    intros v [->|Hv]%elem_of_cons; [|by apply Hrest].
    destruct Hu1 as [Hu1|Hu1]; [left; set_solver|by right].
Qed.

Lemma first_run_page (url : string) (s : PDFScraper) :
  (forall u, u ∈ page_links env url -> u ∈ links) -> history_sound env links s ->
  let s' := snd (scrape_page env url s) in
  history_sound env links s' /\
  downloaded_urls s ⊆ downloaded_urls s' /\
  (forall u, u ∈ page_links env url ->
             u ∈ downloaded_urls s' \/ digest_of env u = None).
Proof.
  unfold page_links, scrape_page, try_except. intros Hus Hsound.
  destruct (requests_get env url) as [response|].
  2:{ split_and!; [done|done|]. intros u Hu. by apply elem_of_nil in Hu. }
  destruct (status_code response =? 200); cbn [negb].
  2:{ split_and!; [done|done|]. intros u Hu. by apply elem_of_nil in Hu. }
  destruct (extract_pdf_links env (pdf_containers response) url)
    as [pdf_links|]; cbn [default] in *.
  2:{ split_and!; [done|done|]. intros u Hu. by apply elem_of_nil in Hu. }
  pose proof (first_run_each pdf_links 0 s Hus Hsound) as H.
  destruct (download_each_returns env pdf_links 0 s) as (m & s' & Heq).
  by rewrite Heq in *.
Qed.

Lemma first_run_pages (urls : list string) (total : Z) (s : PDFScraper) :
  (forall u, u ∈ candidates env urls -> u ∈ links) -> history_sound env links s ->
  let s' := snd (scrape_pages env urls total s) in
  history_sound env links s' /\
  downloaded_urls s ⊆ downloaded_urls s' /\
  (forall u, u ∈ candidates env urls ->
             u ∈ downloaded_urls s' \/ digest_of env u = None).
Proof.
  revert total s. induction urls as [|url urls IH]; intros total s Hus Hsound;
    cbn [scrape_pages].
  - split_and!; [done|done|]. intros u Hu. by apply elem_of_nil in Hu.
  - unfold bind. unfold candidates in Hus. cbn [flat_map] in Hus.
    destruct (first_run_page url s) as (Hs1 & Hmono1 & Hpage);
      [intros u Hu; apply Hus; set_solver|done|].
    destruct (scrape_page_returns env url s) as (n & s1 & Heq).
    rewrite Heq in *. cbn [snd] in *.
    destruct (IH (total + n) s1) as (Hs' & Hmono & Hrest);
      [intros u Hu; apply Hus; set_solver|done|].
    split_and!; [done|set_solver|].
    unfold candidates. cbn [flat_map].
    intros u [Hu|Hu]%elem_of_app; [|by apply Hrest].
    destruct (Hpage u Hu) as [Hin|Hnone]; [left; set_solver|by right].
Qed.

(** The second run: a settled link is never stored. *)
Lemma second_run_download (u : string) (s s' : PDFScraper) (ok : bool) :
  u ∈ links -> all_settled env links s ->
  download_outcome env u None s ok s' ->
  ok = false /\ downloaded_urls s' = downloaded_urls s.
Proof.
  clear links_safe links_distinct. intros Hu Hsettled Hout.
  inversion Hout as [Hin|Hn Hg|r Hn Hg Hs|r name Hn Hg Hs Hname Hb
                     |r name Hn Hg Hs Hname Hb Hd|r name Hn Hg Hs Hname Hb Hd];
    subst; try done.
  destruct (Hsettled u Hu) as [Hin|Hnone]; [done|].
  by rewrite (digest_of_stored env u r Hg Hs Hb) in Hnone.
Qed.

Lemma second_run_each (us : list string) (n : Z) (s : PDFScraper) :
  (forall u, u ∈ us -> u ∈ links) -> all_settled env links s ->
  exists s', download_each env us n s = (Returns n, s') /\
             downloaded_urls s' = downloaded_urls s.
Proof.
  clear links_safe links_distinct. revert s. induction us as [|u us IH]; intros s Hus Hsettled;
    cbn [download_each].
  - by exists s.
  - unfold bind.
    destruct (download_pdf_outcome env u None s) as (ok & s1 & -> & Hout).
    destruct (second_run_download u s s1 ok) as [-> Hsame];
      [apply Hus; by left|done|done|].
    destruct (IH s1) as (s' & Heq & Hsame');
      [intros v Hv; apply Hus; by right
      |intros v Hv; rewrite Hsame; by apply Hsettled|].
    exists s'. split; [done|congruence].
Qed.

Lemma second_run_pages (urls : list string) (total : Z) (s : PDFScraper) :
  (forall u, u ∈ candidates env urls -> u ∈ links) -> all_settled env links s ->
  exists s', scrape_pages env urls total s = (Returns total, s').
Proof.
  clear links_safe links_distinct. revert s. induction urls as [|url urls IH]; intros s Hus Hsettled;
    cbn [scrape_pages].
  - by exists s.
  - unfold bind. unfold candidates in Hus. cbn [flat_map] in Hus.
    assert (exists s1, scrape_page env url s = (Returns 0, s1) /\
                       downloaded_urls s1 = downloaded_urls s) as (s1 & -> & Hsame).
    { unfold scrape_page, try_except.
      pose proof (fun u (H : u ∈ page_links env url) =>
                    Hus u (proj2 (elem_of_app _ _ u) (or_introl H))) as Hpage.
      unfold page_links in Hpage.
      destruct (requests_get env url) as [response|]; [|by exists s].
      destruct (status_code response =? 200); cbn [negb]; [|by exists s].
      destruct (extract_pdf_links env (pdf_containers response) url)
        as [pdf_links|]; cbn [default] in *; [|by exists s].
      destruct (second_run_each pdf_links 0 s Hpage Hsettled)
        as (s1 & -> & Hsame).
      by exists s1. }
    rewrite Z.add_0_r. apply IH.
    + intros u Hu. apply Hus. set_solver.
    + intros v Hv. rewrite Hsame. by apply Hsettled.
Qed.
End TwoRuns.

(** C3 (as the code has it): a second run over the same pages, on the
    directory the first run left and against the same network, stores
    nothing new, provided that the history file it started from was
    absent, empty or ended in a line break, that every link can be written
    on a line and read back, and that no two different links lead to
    documents with the same digest. *)
Theorem second_run_stores_nothing (env : Env) (urls : list string)
    (dir : gmap string string) :
  history_terminated dir = true ->
  forallb line_safe (candidates env urls) = true ->
  distinct_contents env (candidates env urls) = true ->
  fst (run env urls (snd (run env urls dir))) = Returns 0.
Proof.
  intros Hterm Hsafe Hdist. unfold run, scrape_multiple_pages.
  assert (history_sound env (candidates env urls) (__init__ dir)) as Hsound.
  { split_and!; cbn; [set_solver|done|done]. }
  destruct (first_run_pages env (candidates env urls) Hsafe Hdist urls 0
              (__init__ dir)) as ((_ & _ & Hsub) & _ & Hsettled); [done|done|].
  destruct (scrape_pages env urls 0 (__init__ dir)) as [r1 s1]. cbn [snd] in *.
  destruct (second_run_pages env (candidates env urls) urls 0
              (__init__ (files s1))) as (s2 & ->); [done| |done].
  intros u Hu. destruct (Hsettled u Hu) as [Hin|Hnone]; [left|by right].
  cbn. by apply Hsub.
Qed.

Lemma second_run_stores_nothing_witness :
  let env := two_links "http://doj.example/a.pdf" "http://doj.example/b.pdf"
               "first document" "second document" in
  let urls := ["http://doj.example/press"; "http://doj.example/gone"] in
  fst (run env urls ∅) = Returns 2 /\
  fst (run env urls (snd (run env urls ∅))) = Returns 0.
Proof.
  intros env urls. split; [vm_compute; reflexivity|].
  apply (second_run_stores_nothing env urls ∅); vm_compute; reflexivity.
Defined.

(** C3, counterexample: two links to the same bytes. The first run keeps
    the first and drops the second without entering it in the history;
    the second run starts with no digests, so it fetches the second link
    again and keeps it. *)
Lemma second_run_stores_dropped_duplicate :
  let env := two_links "http://doj.example/a.pdf" "http://doj.example/b.pdf"
               "same bytes" "same bytes" in
  let urls := ["http://doj.example/press"] in
  fst (run env urls ∅) = Returns 1 /\
  snd (run env urls ∅) !! history_file =
    Some ("http://doj.example/a.pdf" +:+ String LF "") /\
  fst (run env urls (snd (run env urls ∅))) = Returns 1.
Proof. by vm_compute. Qed.

(** The other two conditions are needed as well: a link with a space at
    its end is stored by every run. *)
Example second_run_stores_unsafe_link :
  let env := two_links "http://doj.example/a.pdf " "http://doj.example/b.pdf"
               "first document" "second document" in
  let urls := ["http://doj.example/press"] in
  fst (run env urls (snd (run env urls ∅))) = Returns 1.
Proof. by vm_compute. Qed.

End ScraperSpec.

(** * The discoverer: further properties *)

Module CrawlerMoreSpec.
Import PyStr UrlParse Crawler CrawlerInv CrawlerMore PyStrFacts CrawlerSpec.

(** *** One call of [extract_urls] *)

Lemma new_links_skip (web : Web) (self : WebCrawler) (url href full_url : string)
    (hrefs : list string) :
  urljoin web url href = Some full_url ->
  ~ (is_valid_url self full_url = true /\ full_url ∉ all_urls self) ->
  new_links web self url (href :: hrefs) = new_links web self url hrefs.
Proof.
  intros Hjoin Hno. unfold new_links. cbn [resolved]. rewrite Hjoin.
  by rewrite filter_cons_False.
Qed.

Lemma new_links_add (web : Web) (self : WebCrawler) (url href full_url : string)
    (hrefs : list string) :
  urljoin web url href = Some full_url ->
  is_valid_url self full_url = true -> full_url ∉ all_urls self ->
  new_links web self url (href :: hrefs) =
    {[full_url]} ∪ new_links web (all_add full_url self) url hrefs.
Proof.
  intros Hjoin Hvalid Hnew. unfold new_links. cbn [resolved]. rewrite Hjoin.
  rewrite filter_cons_True by done.
  apply set_eq. intros u. rewrite elem_of_union, elem_of_singleton.
  rewrite !elem_of_list_to_set, elem_of_cons, !list_elem_of_filter.
  cbn [all_urls all_add].
  rewrite (is_valid_url_config (all_add full_url self) self) by done.
  destruct (decide (u = full_url)) as [->|Hne]; [tauto|].
  set_solver.
Qed.

Lemma visit_links_spec (web : Web) (url : string) (hrefs : list string)
    (self : WebCrawler) (page_urls : gset string) :
  let r := visit_links web url hrefs (self, page_urls) in
  same_config (fst r) self /\
  visited_urls (fst r) = visited_urls self /\
  all_urls (fst r) = all_urls self ∪ new_links web self url hrefs /\
  snd r = if resolvable web url hrefs
          then Returned (page_urls ∪ new_links web self url hrefs)
          else Raised.
Proof.
  revert self page_urls.
  induction hrefs as [|href hrefs IH]; intros self page_urls;
    cbn [visit_links resolvable forallb].
  - unfold new_links. cbn. split_and!; [apply same_config_refl|done| |].
    + set_solver.
    + f_equal. set_solver.
  - unfold visit_link.
    destruct (urljoin web url href) as [full_url|] eqn:Hjoin.
    2:{ unfold new_links. cbn [resolved]. rewrite Hjoin. cbn.
        split_and!; [apply same_config_refl|done|set_solver|done]. }
    rewrite (bool_decide_eq_true_2 (is_Some (Some full_url)))
      by (by eexists). cbn [andb].
    fold (resolvable web url hrefs).
    destruct (is_valid_url self full_url) eqn:Hvalid; cbn [andb].
    + case_bool_decide as Hin; cbn [negb].
      * destruct (IH self page_urls) as (Hc & Hv & Ha & Hp).
        rewrite (new_links_skip web self url href full_url) by tauto. done.
      * destruct (IH (all_add full_url self) (page_urls ∪ {[full_url]}))
          as (Hc & Hv & Ha & Hp).
        rewrite (new_links_add web self url href full_url) by done.
        split_and!.
        -- eapply same_config_trans; [exact Hc|]. by repeat split.
        -- by rewrite Hv.
        -- rewrite Ha. cbn [all_urls all_add]. set_solver.
        -- rewrite Hp. destruct (resolvable web url hrefs); [|done].
           f_equal. set_solver.
    + destruct (IH self page_urls) as (Hc & Hv & Ha & Hp).
      rewrite (new_links_skip web self url href full_url); [done|done|].
      rewrite Hvalid. by intros [? _].
Qed.

(** X1: what one call of [extract_urls] does. When the URL was visited
    before, the depth or the page budget is used up, or the fetch fails,
    it returns the empty set and leaves the crawler as it was: a URL whose
    fetch failed is not marked visited. Otherwise it marks the URL
    visited and goes through the page's anchors up to the first one that
    [urljoin] cannot resolve: the links it gets to that pass
    [is_valid_url] and were not discovered before are what it adds to
    [all_urls]. If every anchor is resolved, this set is what the call
    returns; if not, the [ValueError] escapes the call, and the URL stays
    marked and the links stay added. *)
Theorem extract_urls_spec (web : Web) (self : WebCrawler) (url : string) (depth : Z) :
  let self' := fst (extract_urls web self url depth) in
  let result := snd (extract_urls web self url depth) in
  let found := new_links web self url (hrefs_of web url) in
  same_config self' self /\
  (if guarded self url depth || negb (fetched_ok web url)
   then self' = self /\ result = Returned ∅
   else visited_urls self' = visited_urls self ∪ {[url]} /\
        all_urls self' = all_urls self ∪ found /\
        found ## all_urls self /\
        set_Forall (fun u => is_valid_url self u = true) found /\
        result = if resolvable web url (hrefs_of web url)
                 then Returned found else Raised).
Proof.
  unfold extract_urls, guarded, fetched_ok, hrefs_of.
  destruct (bool_decide (url ∈ visited_urls self) || (max_depth self <? depth)
            || over_budget self); cbn [orb fst snd].
  { split; [apply same_config_refl|done]. }
  destruct (get web url) as [[status hrefs]|]; cbn [negb fst snd];
    [|split; [apply same_config_refl|done]].
  destruct (raise_for_status status); cbn [negb fst snd];
    [split; [apply same_config_refl|done]|].
  destruct (visit_links_spec web url hrefs (visited_add url self) ∅)
    as (Hc & Hv & Ha & Hp).
  change (new_links web (visited_add url self) url hrefs)
    with (new_links web self url hrefs) in *.
  split_and!.
  - eapply same_config_trans; [exact Hc|]. by repeat split.
  - by rewrite Hv.
  - by rewrite Ha.
  - unfold new_links. intros u Hu Hall.
    apply elem_of_list_to_set, list_elem_of_filter in Hu as [[_ Hout] _].
    by apply Hout.
  - unfold new_links. intros u Hu.
    by apply elem_of_list_to_set, list_elem_of_filter in Hu as [[Hvalid _] _].
  - rewrite Hp. destruct (resolvable web url hrefs); [|done].
    f_equal. set_solver.
Qed.

(** X1, an instance: the second anchor cannot be resolved. The call
    raises; the page stays marked visited and the first link stays in
    [all_urls], but nothing is handed on to the next level. *)
Example extract_urls_raises_midway :
  let start := "http://example.com/" in
  let web := broken_anchor_site in
  let r := extract_urls web (example_crawler start) start 0 in
  snd r = Raised /\
  elements (visited_urls (fst r)) = [start] /\
  elements (all_urls (fst r)) = ["http://example.com/a"] /\
  returned (crawl web idle ∅ (example_crawler start)) = all_urls (fst r) /\
  levels (crawl web idle ∅ (example_crawler start)) = 1%nat.
Proof. by vm_compute. Qed.

(** *** Where a run of [crawl] ends *)

Local Ltac by_computation := apply (bool_decide_unpack _); vm_compute; exact I.

Lemma crawl_final_reachable (web : Web) (sched : Z -> list action)
    (fs : gmap string string) (self : WebCrawler) :
  0 < max_depth self ->
  exists depth p, reachable web self depth p /\
                  crawler p = final (crawl web sched fs self).
Proof.
  intros Hdepth. unfold crawl.
  destruct (crawl_loop_reachable web sched self (Z.to_nat (max_depth self)) 0
              self {[base_url self]}) as (d & p & Hp & Heq);
    [lia|by apply reach_first|].
  exists d, p. split; [done|]. rewrite Heq.
  by destruct (crawl_loop web sched (Z.to_nat (max_depth self)) 0 self
                 {[base_url self]}).
Qed.

Lemma crawl_no_depth (web : Web) (sched : Z -> list action)
    (fs : gmap string string) (self : WebCrawler) :
  max_depth self <= 0 ->
  final (crawl web sched fs self) = self /\
  levels (crawl web sched fs self) = 0%nat.
Proof.
  intros Hdepth. unfold crawl.
  by replace (Z.to_nat (max_depth self)) with 0%nat by lia.
Qed.

(** X2: everything [crawl] discovers passed [is_valid_url]. At every point
    of every run of a fresh crawler, each URL in [all_urls] passed the
    test, and the frontier of the next level holds discovered URLs only;
    so every line [crawl] writes to the output file passed the test. *)
Theorem discovered_urls_are_eligible (web : Web) (self : WebCrawler)
    (depth : Z) (p : pool) :
  fresh self ->
  reachable web self depth p ->
  set_Forall (fun u => is_valid_url self u = true) (all_urls (crawler p)) /\
  next_urls p ⊆ all_urls (crawler p) /\
  forall sched fs,
    Forall (fun u => is_valid_url self u = true)
           (output_lines (final (crawl web sched fs self))).
Proof.
  intros Hfresh Hreach.
  destruct (reachable_inv web self depth p Hfresh Hreach).
  split_and!; [done|done|].
  intros sched fs.
  destruct (crawl_final_inv web sched fs self Hfresh) as (q & [] & Hq).
  apply Forall_forall. intros u Hu. apply inv_all1. rewrite Hq.
  unfold output_lines in Hu. rewrite sorted_perm in Hu.
  by apply elem_of_elements in Hu.
Qed.

Lemma discovered_urls_are_eligible_witness :
  let web := one_page "http://example.com/"
               ["http://example.com/a"; "http://other.com/b"] in
  let self := example_crawler "http://example.com/" in
  Forall (fun u => is_valid_url self u = true)
         (output_lines (final (crawl web idle ∅ self))).
Proof.
  intros web self.
  apply (discovered_urls_are_eligible web self 0
           (start_pool self {[base_url self]})).
  - apply example_crawler_fresh.
  - apply reach_first. vm_compute. reflexivity.
Defined.

(** X3: a URL is only ever expanded after it was discovered. At every
    point of every run of a fresh crawler, and in what [crawl] returns,
    every visited URL other than the start URL is in [all_urls]. *)
Theorem visited_urls_are_known (web : Web) (self : WebCrawler)
    (depth : Z) (p : pool) :
  fresh self ->
  reachable web self depth p ->
  visited_urls (crawler p) ⊆ all_urls (crawler p) ∪ {[base_url self]} /\
  forall sched fs,
    visited_urls (final (crawl web sched fs self)) ⊆
      returned (crawl web sched fs self) ∪ {[base_url self]}.
Proof.
  intros Hfresh Hreach. split.
  - destruct (reachable_inv web self depth p Hfresh Hreach).
    intros u Hu. destruct (inv_visited0 u Hu) as [->|Hall]; set_solver.
  - intros sched fs.
    destruct (crawl_final_inv web sched fs self Hfresh) as (q & [] & Hq).
    assert (returned (crawl web sched fs self) =
            all_urls (final (crawl web sched fs self))) as ->.
    { unfold crawl. by destruct (crawl_loop _ _ _ _ _ _). }
    rewrite <- Hq. intros u Hu.
    destruct (inv_visited0 u Hu) as [->|Hall]; set_solver.
Qed.

Lemma visited_urls_are_known_witness :
  let web := one_page "http://example.com/" ["http://example.com/a"] in
  let self := example_crawler "http://example.com/" in
  visited_urls (final (crawl web idle ∅ self)) ⊆
    returned (crawl web idle ∅ self) ∪ {[base_url self]}.
Proof.
  intros web self.
  apply (visited_urls_are_known web self 0 (start_pool self {[base_url self]})).
  - apply example_crawler_fresh.
  - apply reach_first. vm_compute. reflexivity.
Defined.

(** *** Only fetched pages count as visited *)

Lemma worker_step_fetched (web : Web) (depth : Z) (c : WebCrawler) (w : worker) :
  (forall u, u ∈ visited_urls c -> fetched_ok web u = true) ->
  worker_fetched web w ->
  (forall u, u ∈ visited_urls (fst (worker_step web depth c w)) ->
             fetched_ok web u = true) /\
  match snd (worker_step web depth c w) with
  | inl w' => worker_fetched web w'
  | inr _ => True
  end.
Proof.
  intros Hvis Hw.
  destruct w as [url|url|url|url|url hrefs|url hrefs page|url full hrefs page];
    cbn [worker_step].
  - by destruct (bool_decide _).
  - by destruct (_ <? _).
  - by destruct (over_budget c).
  - destruct (get web url) as [[status hrefs]|] eqn:Hget; [|done].
    destruct (raise_for_status status) eqn:Hstatus; [done|].
    split; [done|]. cbn. unfold fetched_ok. by rewrite Hget, Hstatus.
  - cbn. split; [|done].
    intros u [Hu| ->%elem_of_singleton]%elem_of_union; [by apply Hvis|done].
  - destruct hrefs as [|href hrefs]; [done|].
    destruct (urljoin web url href); [|done]. by destruct (_ && _).
  - done.
Qed.

Lemma visited_fetched_action (web : Web) (depth : Z) (p : pool) (a : action) :
  visited_fetched web p -> visited_fetched web (apply_action web depth p a).
Proof.
  intros [Hvis Hrun]. destruct a as [k|i]; cbn [apply_action].
  - destruct (queue p !! k) as [url|]; [|done].
    case_bool_decide; [|done]. split; cbn; [done|].
    intros w [Hw| ->%list_elem_of_singleton]%elem_of_app; [by apply Hrun|done].
  - destruct (running p !! i) as [w|] eqn:Hi; [|done].
    pose proof (lookup_lt_Some _ _ _ Hi) as Hlt.
    assert (worker_fetched web w) as Hw
      by (apply Hrun; by eapply list_elem_of_lookup_2).
    destruct (worker_step_fetched web depth (crawler p) w Hvis Hw) as [Hvis' Hw'].
    destruct (worker_step web depth (crawler p) w) as [c' [w'|[new_urls|]]];
      cbn in Hvis', Hw'; split; cbn; try done.
    + rewrite insert_take_drop by done.
      intros w0 [Hw0|[->|Hw0]%elem_of_cons]%elem_of_app; [|done|].
      * apply Hrun. eapply elem_of_sublist; [done|apply sublist_take].
      * apply Hrun. eapply elem_of_sublist; [done|apply sublist_drop].
    + intros w0 Hw0. apply Hrun.
      eapply elem_of_sublist; [done|apply sublist_delete].
    + intros w0 Hw0. apply Hrun.
      eapply elem_of_sublist; [done|apply sublist_delete].
Qed.

Lemma reachable_fetched (web : Web) (self : WebCrawler) (depth : Z) (p : pool) :
  fresh self -> reachable web self depth p -> visited_fetched web p.
Proof.
  intros (Hv & _) Hreach. induction Hreach as [|depth p a _ IH|depth p _ IH].
  - split; cbn; [rewrite Hv; set_solver|].
    intros w Hw. by apply elem_of_nil in Hw.
  - by apply visited_fetched_action.
  - split; cbn; [apply IH|]. intros w Hw. by apply elem_of_nil in Hw.
Qed.

(** X4: a page counts as visited only when its fetch went through. At
    every point of every run of a fresh crawler, and in the crawler
    [crawl] leaves, every URL in [visited_urls] is one for which
    [requests.get] returned and [raise_for_status] did not raise: a URL
    whose fetch fails is never marked, whatever the threads do. *)
Theorem visited_urls_were_fetched (web : Web) (self : WebCrawler)
    (depth : Z) (p : pool) :
  fresh self ->
  reachable web self depth p ->
  set_Forall (fun u => fetched_ok web u = true) (visited_urls (crawler p)) /\
  forall sched fs,
    set_Forall (fun u => fetched_ok web u = true)
               (visited_urls (final (crawl web sched fs self))).
Proof.
  intros Hfresh Hreach. split.
  - by destruct (reachable_fetched web self depth p Hfresh Hreach).
  - intros sched fs.
    destruct (decide (0 < max_depth self)) as [Hdepth|Hdepth].
    + destruct (crawl_final_reachable web sched fs self Hdepth)
        as (d & q & Hq & <-).
      by destruct (reachable_fetched web self d q Hfresh Hq).
    + destruct (crawl_no_depth web sched fs self) as [-> _]; [lia|].
      destruct Hfresh as (-> & _). set_solver.
Qed.

Lemma visited_urls_were_fetched_witness :
  let web := one_page "http://example.com/" ["http://example.com/a"] in
  let self := example_crawler "http://example.com/" in
  set_Forall (fun u => fetched_ok web u = true)
             (visited_urls (final (crawl web idle ∅ self))).
Proof.
  intros web self.
  apply (visited_urls_were_fetched web self 0
           (start_pool self {[base_url self]})).
  - apply example_crawler_fresh.
  - apply reach_first. vm_compute. reflexivity.
Defined.

(** *** The depth limit *)

Local Ltac linked_goals :=
  cbn [fst snd visited_add all_add visited_urls all_urls handed_on];
  unfold worker_linked; cbn [worker_url]; split_and!; try done.

Lemma worker_step_linked (web : Web) (depth : Z) (c : WebCrawler) (w : worker)
    (start : string) (n : nat) :
  worker_linked web start n w ->
  (forall u, u ∈ all_urls c ->
             exists m, (1 <= m <= S n)%nat /\ linked_within web start m u) ->
  (forall u, u ∈ visited_urls c ->
             exists m, (m <= n)%nat /\ linked_within web start m u) ->
  (forall u, u ∈ all_urls (fst (worker_step web depth c w)) ->
             exists m, (1 <= m <= S n)%nat /\ linked_within web start m u) /\
  (forall u, u ∈ visited_urls (fst (worker_step web depth c w)) ->
             exists m, (m <= n)%nat /\ linked_within web start m u) /\
  match snd (worker_step web depth c w) with
  | inl w' => worker_linked web start n w'
  | inr e => forall u, u ∈ handed_on e -> linked_within web start (S n) u
  end.
Proof.
  intros [Hurl Hw] Hall Hvis.
  destruct w as [url|url|url|url|url hrefs|url hrefs page|url full hrefs page];
    cbn [worker_step worker_url] in *.
  - destruct (bool_decide _); linked_goals; set_solver.
  - destruct (_ <? _); linked_goals; set_solver.
  - destruct (over_budget c); linked_goals; set_solver.
  - destruct (get web url) as [[status hrefs]|] eqn:Hget;
      [|linked_goals; set_solver].
    destruct (raise_for_status status) eqn:Hstatus;
      [linked_goals; set_solver|].
    linked_goals.
    + unfold fetched_ok. by rewrite Hget, Hstatus.
    + unfold hrefs_of. by rewrite Hget.
  - destruct Hw as [Hok Hsub]. linked_goals.
    + intros u [Hu| ->%elem_of_singleton]%elem_of_union; [by apply Hvis|].
      by exists n.
  - destruct Hw as (Hok & Hsub & Hpage).
    destruct hrefs as [|href hrefs]; [by linked_goals|].
    assert (hrefs ⊆ hrefs_of web url) as Hsub' by set_solver.
    destruct (urljoin web url href) as [full_url|] eqn:Hjoin; [|by linked_goals].
    destruct (_ && _); linked_goals.
    eapply linked_step; [done|done| |done]. apply Hsub. set_solver.
  - destruct Hw as (Hok & Hsub & Hpage & Hfull). linked_goals.
    + intros u [Hu| ->%elem_of_singleton]%elem_of_union; [by apply Hall|].
      exists (S n). split; [lia|done].
    + intros u [Hu| ->%elem_of_singleton]%elem_of_union; [by apply Hpage|done].
Qed.

Lemma depth_inv_action (web : Web) (self : WebCrawler) (depth : Z)
    (p : pool) (a : action) :
  depth_inv web self depth p -> depth_inv web self depth (apply_action web depth p a).
Proof.
  intros Hinv. destruct a as [k|i]; cbn [apply_action].
  - destruct (queue p !! k) as [url|] eqn:Hk; [|done].
    case_bool_decide; [|done].
    destruct Hinv. split; cbn; try done.
    + intros u Hu. apply di_queue0.
      eapply elem_of_sublist; [done|apply sublist_delete].
    + intros w [Hw| ->%list_elem_of_singleton]%elem_of_app; [by apply di_running0|].
      split; [|done]. cbn. apply di_queue0. by eapply list_elem_of_lookup_2.
  - destruct (running p !! i) as [w|] eqn:Hi; [|done].
    pose proof (lookup_lt_Some _ _ _ Hi) as Hlt.
    destruct Hinv.
    assert (worker_linked web (base_url self) (Z.to_nat depth) w) as Hw
      by (apply di_running0; by eapply list_elem_of_lookup_2).
    destruct (worker_step_linked web depth (crawler p) w (base_url self)
                (Z.to_nat depth) Hw di_all0 di_visited0) as (Hall & Hvis & Hout).
    destruct (worker_step web depth (crawler p) w) as [c' [w'|[new_urls|]]];
      cbn in Hall, Hvis, Hout; split; cbn; try done.
    + rewrite insert_take_drop by done.
      intros w0 [Hw0|[->|Hw0]%elem_of_cons]%elem_of_app; [|done|].
      * apply di_running0. eapply elem_of_sublist; [done|apply sublist_take].
      * apply di_running0. eapply elem_of_sublist; [done|apply sublist_drop].
    + intros w0 Hw0. apply di_running0.
      eapply elem_of_sublist; [done|apply sublist_delete].
    + intros u [Hu|Hu]%elem_of_union; [by apply di_next0|by apply Hout].
    + intros w0 Hw0. apply di_running0.
      eapply elem_of_sublist; [done|apply sublist_delete].
Qed.

Lemma reachable_depth (web : Web) (self : WebCrawler) (depth : Z) (p : pool) :
  fresh self -> reachable web self depth p -> depth_inv web self depth p.
Proof.
  intros (Hv & Ha & _) Hreach.
  induction Hreach as [Hdepth|depth p a _ IH|depth p _ IH Hq Hr Hn Hdepth].
  - split; cbn.
    + lia.
    + intros u ->%elem_of_elements%elem_of_singleton. constructor.
    + intros w Hw. by apply elem_of_nil in Hw.
    + set_solver.
    + rewrite Ha. set_solver.
    + rewrite Hv. set_solver.
  - by apply depth_inv_action.
  - destruct IH.
    assert (Z.to_nat (depth + 1) = S (Z.to_nat depth)) as Hsucc by lia.
    split; cbn.
    + lia.
    + intros u Hu%elem_of_elements. rewrite Hsucc. by apply di_next0.
    + intros w Hw. by apply elem_of_nil in Hw.
    + set_solver.
    + intros u Hu. destruct (di_all0 u Hu) as (m & Hm & Hlink).
      exists m. split; [lia|done].
    + intros u Hu. destruct (di_visited0 u Hu) as (m & Hm & Hlink).
      exists m. split; [lia|done].
Qed.

(** X5: the depth limit. What a fresh crawler's [crawl] returns lies
    within [max_depth] links of the start URL: every discovered URL is
    reached from the start URL by following at least one and at most
    [max_depth] anchors, each on a page whose fetch went through; every
    visited page is fewer than [max_depth] links away. This holds under
    every schedule of the threads. *)
Theorem crawl_respects_max_depth (web : Web) (sched : Z -> list action)
    (fs : gmap string string) (self : WebCrawler) :
  fresh self ->
  (forall u, u ∈ returned (crawl web sched fs self) ->
             exists n, (1 <= n)%nat /\ Z.of_nat n <= max_depth self /\
                       linked_within web (base_url self) n u) /\
  (forall u, u ∈ visited_urls (final (crawl web sched fs self)) ->
             exists n, Z.of_nat n < max_depth self /\
                       linked_within web (base_url self) n u).
Proof.
  intros Hfresh.
  assert (returned (crawl web sched fs self) =
          all_urls (final (crawl web sched fs self))) as ->.
  { unfold crawl. by destruct (crawl_loop _ _ _ _ _ _). }
  destruct (decide (0 < max_depth self)) as [Hdepth|Hdepth].
  - destruct (crawl_final_reachable web sched fs self Hdepth)
      as (d & q & Hq & <-).
    destruct (reachable_depth web self d q Hfresh Hq).
    split; intros u Hu.
    + destruct (di_all0 u Hu) as (m & Hm & Hlink).
      exists m. split_and!; [lia|lia|done].
    + destruct (di_visited0 u Hu) as (m & Hm & Hlink).
      exists m. split; [lia|done].
  - destruct (crawl_no_depth web sched fs self) as [-> _]; [lia|].
    destruct Hfresh as (-> & -> & _).
    split; intros u Hu; by apply elem_of_empty in Hu.
Qed.

Lemma crawl_respects_max_depth_witness :
  let start := "http://example.com/" in
  let web := one_page start ["http://example.com/a"] in
  exists n, (1 <= n)%nat /\ Z.of_nat n <= 10 /\
            linked_within web start n "http://example.com/a".
Proof.
  intros start web.
  apply (proj1 (crawl_respects_max_depth web idle ∅ (example_crawler start)
                  example_crawler_fresh)).
  by_computation.
Defined.

(** *** The sets only grow *)

Lemma worker_step_grows (web : Web) (depth : Z) (c : WebCrawler) (w : worker) :
  visited_urls c ⊆ visited_urls (fst (worker_step web depth c w)) /\
  all_urls c ⊆ all_urls (fst (worker_step web depth c w)).
Proof.
  destruct w as [url|url|url|url|url hrefs|url hrefs page|url full hrefs page];
    cbn [worker_step].
  - by destruct (bool_decide _).
  - by destruct (_ <? _).
  - by destruct (over_budget c).
  - destruct (get web url) as [[status hrefs]|]; [|done].
    by destruct (raise_for_status status).
  - cbn. set_solver.
  - destruct hrefs as [|href hrefs]; [done|].
    destruct (urljoin web url href); [|done]. by destruct (_ && _).
  - cbn. set_solver.
Qed.

Lemma apply_action_grows (web : Web) (depth : Z) (p : pool) (a : action) :
  visited_urls (crawler p) ⊆ visited_urls (crawler (apply_action web depth p a)) /\
  all_urls (crawler p) ⊆ all_urls (crawler (apply_action web depth p a)) /\
  next_urls p ⊆ next_urls (apply_action web depth p a).
Proof.
  destruct a as [k|i]; cbn [apply_action].
  - destruct (queue p !! k); [|done]. by case_bool_decide.
  - destruct (running p !! i) as [w|]; [|done].
    destruct (worker_step_grows web depth (crawler p) w) as [Hv Ha].
    destruct (worker_step web depth (crawler p) w) as [c' [w'|[new_urls|]]];
      cbn in *; split_and!; try done. set_solver.
Qed.

Lemma run_grows (web : Web) (depth : Z) (sched : list action) (p : pool) :
  visited_urls (crawler p) ⊆ visited_urls (crawler (run web depth sched p)) /\
  all_urls (crawler p) ⊆ all_urls (crawler (run web depth sched p)).
Proof.
  revert p. induction sched as [|a sched IH]; intros p; [done|].
  cbn. destruct (IH (apply_action web depth p a)) as [Hv Ha].
  destruct (apply_action_grows web depth p a) as (Hv' & Ha' & _).
  split; etrans; done.
Qed.

Lemma finish_grows (web : Web) (depth : Z) (fuel : nat) (p : pool) :
  visited_urls (crawler p) ⊆ visited_urls (crawler (finish web depth fuel p)) /\
  all_urls (crawler p) ⊆ all_urls (crawler (finish web depth fuel p)).
Proof.
  revert p. induction fuel as [|fuel IH]; intros p; [done|].
  cbn. destruct (next_action p) as [a|]; [|done].
  destruct (IH (apply_action web depth p a)) as [Hv Ha].
  destruct (apply_action_grows web depth p a) as (Hv' & Ha' & _).
  split; etrans; done.
Qed.

Lemma crawl_loop_grows (web : Web) (sched : Z -> list action) (n : nat)
    (depth : Z) (c : WebCrawler) (cur : gset string) :
  visited_urls c ⊆ visited_urls (fst (crawl_loop web sched n depth c cur)) /\
  all_urls c ⊆ all_urls (fst (crawl_loop web sched n depth c cur)).
Proof.
  revert depth c cur. induction n as [|n IH]; intros depth c cur; [done|].
  cbn [crawl_loop]. rewrite level_unfold.
  set (p2 := level_end web depth (sched depth) c cur).
  assert (visited_urls c ⊆ visited_urls (crawler p2) /\
          all_urls c ⊆ all_urls (crawler p2)) as [Hv Ha].
  { unfold p2, level_end.
    destruct (run_grows web depth (sched depth) (start_pool c cur)) as [Hv Ha].
    destruct (finish_grows web depth
                (work_left web (run web depth (sched depth) (start_pool c cur)))
                (run web depth (sched depth) (start_pool c cur))) as [Hv' Ha'].
    cbn in Hv, Ha. split; etrans; done. }
  case_bool_decide; [done|].
  destruct (IH (depth + 1) (crawler p2) (next_urls p2)) as [Hv' Ha'].
  destruct (crawl_loop web sched n (depth + 1) (crawler p2) (next_urls p2)).
  cbn in *. split; etrans; done.
Qed.

(** X6: nothing is ever taken out of the two sets. Whatever a thread
    does next, [visited_urls], [all_urls] and the frontier being collected
    keep what they held; so a crawler that is used again keeps its earlier
    discoveries: what [crawl] returns contains the [all_urls] it started
    with, and so does the file it writes. *)
Theorem crawl_never_forgets (web : Web) (sched : Z -> list action)
    (fs : gmap string string) (self : WebCrawler) :
  (forall depth p a,
      visited_urls (crawler p) ⊆ visited_urls (crawler (apply_action web depth p a)) /\
      all_urls (crawler p) ⊆ all_urls (crawler (apply_action web depth p a)) /\
      next_urls p ⊆ next_urls (apply_action web depth p a)) /\
  visited_urls self ⊆ visited_urls (final (crawl web sched fs self)) /\
  all_urls self ⊆ returned (crawl web sched fs self) /\
  (forall u, u ∈ all_urls self ->
             u ∈ output_lines (final (crawl web sched fs self))).
Proof.
  split; [intros; apply apply_action_grows|].
  destruct (crawl_loop_grows web sched (Z.to_nat (max_depth self)) 0 self
              {[base_url self]}) as [Hv Ha].
  unfold crawl.
  destruct (crawl_loop web sched (Z.to_nat (max_depth self)) 0 self
              {[base_url self]}) as [self' k].
  cbn in *. split_and!; [done|done|].
  intros u Hu. unfold output_lines. rewrite sorted_perm.
  apply elem_of_elements. by apply Ha.
Qed.

(** *** The number of passes *)

Lemma crawl_loop_levels (web : Web) (sched : Z -> list action) (n : nat)
    (depth : Z) (c : WebCrawler) (cur : gset string) :
  (snd (crawl_loop web sched n depth c cur) <= n)%nat /\
  (0 < n -> 1 <= snd (crawl_loop web sched n depth c cur))%nat.
Proof.
  revert depth c cur. induction n as [|n IH]; intros depth c cur; [cbn; lia|].
  cbn [crawl_loop]. rewrite level_unfold.
  case_bool_decide; [cbn; lia|].
  destruct (IH (depth + 1)
              (crawler (level_end web depth (sched depth) c cur))
              (next_urls (level_end web depth (sched depth) c cur))) as [Hle _].
  destruct (crawl_loop web sched n (depth + 1) _ _). cbn in *. lia.
Qed.

(** X7: the passes of [crawl]. It makes at most [max_depth] passes, and
    at least one when [max_depth] is positive. With [max_depth] zero or
    negative it fetches nothing and leaves the crawler as it was, and
    still writes the output file, from the [all_urls] it was given. *)
Theorem crawl_passes (web : Web) (sched : Z -> list action)
    (fs : gmap string string) (self : WebCrawler) :
  let r := crawl web sched fs self in
  Z.of_nat (levels r) <= Z.max 0 (max_depth self) /\
  (0 < max_depth self -> (1 <= levels r)%nat) /\
  (max_depth self <= 0 ->
   final r = self /\ levels r = 0%nat /\
   disk r = <[output_file self :=
                encode_utf8 (write_lines (output_lines self))]> fs).
Proof.
  cbn zeta.
  destruct (crawl_loop_levels web sched (Z.to_nat (max_depth self)) 0 self
              {[base_url self]}) as [Hle Hge].
  split_and!.
  - unfold crawl. destruct (crawl_loop _ _ _ _ _ _). cbn in *. lia.
  - intros Hdepth. unfold crawl. destruct (crawl_loop _ _ _ _ _ _).
    cbn in *. lia.
  - intros Hdepth. unfold crawl.
    by replace (Z.to_nat (max_depth self)) with 0%nat by lia.
Qed.

(** *** Using a crawler again *)

Lemma already_started_action (web : Web) (depth : Z) (self : WebCrawler)
    (p : pool) (a : action) :
  base_url self ∈ visited_urls self ->
  already_started self p -> already_started self (apply_action web depth p a).
Proof.
  intros Hin (Hc & Hn & Hq & Hr). destruct a as [k|i]; cbn [apply_action].
  - destruct (queue p !! k) as [url|] eqn:Hk; [|done].
    case_bool_decide; [|done]. split_and!; cbn; try done.
    + intros u Hu. apply Hq.
      eapply elem_of_sublist; [done|apply sublist_delete].
    + intros w [Hw| ->%list_elem_of_singleton]%elem_of_app; [by apply Hr|].
      f_equal. apply Hq. by eapply list_elem_of_lookup_2.
  - destruct (running p !! i) as [w|] eqn:Hi; [|done].
    rewrite (Hr w) by (by eapply list_elem_of_lookup_2).
    cbn [worker_step]. rewrite Hc.
    rewrite bool_decide_eq_true_2 by done.
    split_and!; cbn; try done.
    + rewrite Hn. set_solver.
    + intros w0 Hw0. apply Hr.
      eapply elem_of_sublist; [done|apply sublist_delete].
Qed.

Lemma already_started_level (web : Web) (depth : Z) (sched : list action)
    (self : WebCrawler) :
  base_url self ∈ visited_urls self ->
  already_started self (level_end web depth sched self {[base_url self]}).
Proof.
  intros Hin. unfold level_end.
  assert (already_started self (start_pool self {[base_url self]})) as H0.
  { split_and!; cbn; try done.
    - by intros u ->%elem_of_elements%elem_of_singleton.
    - intros w Hw. by apply elem_of_nil in Hw. }
  assert (forall acts p, already_started self p ->
                         already_started self (run web depth acts p)) as Hrun.
  { induction acts as [|a acts IH]; intros p Hp; [done|].
    cbn. by apply IH, already_started_action. }
  assert (forall fuel p, already_started self p ->
                         already_started self (finish web depth fuel p)) as Hfin.
  { induction fuel as [|fuel IH]; intros p Hp; [done|].
    cbn. destruct (next_action p); [|done].
    by apply IH, already_started_action. }
  by apply Hfin, Hrun.
Qed.

(** X8: a crawler whose start URL is marked visited does no work when
    [crawl] is called: the one call of the first pass returns at its first
    test, so nothing is fetched, the crawler stays as it was, and the
    output file is written again from the same [all_urls]. In particular
    a second [crawl] on the same object repeats the first one's result. *)
Theorem crawl_again_fetches_nothing (web : Web) (sched : Z -> list action)
    (fs : gmap string string) (self : WebCrawler) :
  base_url self ∈ visited_urls self ->
  final (crawl web sched fs self) = self /\
  returned (crawl web sched fs self) = all_urls self /\
  (levels (crawl web sched fs self) <= 1)%nat /\
  disk (crawl web sched fs self) =
    <[output_file self := encode_utf8 (write_lines (output_lines self))]> fs.
Proof.
  intros Hin. unfold crawl.
  destruct (Z.to_nat (max_depth self)) as [|n];
    [cbn; split_and!; [done|done|lia|done]|].
  cbn [crawl_loop]. rewrite level_unfold.
  destruct (already_started_level web 0 (sched 0) self Hin) as (-> & -> & _).
  rewrite bool_decide_eq_true_2 by done. cbn. split_and!; [done|done|lia|done].
Qed.

Lemma crawl_again_fetches_nothing_witness :
  let start := "http://example.com/" in
  let web := one_page start ["http://example.com/a"] in
  let self := final (crawl web idle ∅ (example_crawler start)) in
  base_url self ∈ visited_urls self /\
  final (crawl web idle ∅ self) = self.
Proof.
  intros start web self.
  assert (base_url self ∈ visited_urls self) as Hin by by_computation.
  split; [exact Hin|].
  exact (proj1 (crawl_again_fetches_nothing web idle ∅ self Hin)).
Defined.

(** *** The page budget when calls do not overlap *)

Lemma worker_step_budget (web : Web) (depth : Z) (c : WebCrawler) (w : worker) :
  let c' := fst (worker_step web depth c w) in
  let r := snd (worker_step web depth c w) in
  (size (visited_urls c') + outcome_weight r <=
     size (visited_urls c) + weight w)%nat \/
  (visited_urls c' = visited_urls c /\ outcome_weight r = 1%nat /\
   weight w = 0%nat /\ Z.of_nat (size (visited_urls c)) < max_pages c).
Proof.
  destruct w as [url|url|url|url|url hrefs|url hrefs page|url full hrefs page];
    cbn [worker_step].
  - destruct (bool_decide _); left; cbn; lia.
  - destruct (_ <? _); left; cbn; lia.
  - unfold over_budget. destruct (Z.leb_spec (max_pages c) (Z.of_nat (size (visited_urls c)))).
    + left. cbn. lia.
    + right. cbn. split_and!; [done|done|done|lia].
  - destruct (get web url) as [[status hrefs]|]; [|left; cbn; lia].
    destruct (raise_for_status status); left; cbn; lia.
  - left. cbn. pose proof (size_add (visited_urls c) url). lia.
  - destruct hrefs as [|href hrefs]; [left; cbn; lia|].
    destruct (urljoin web url href); [|left; cbn; lia].
    destruct (_ && _); left; cbn; lia.
  - left. cbn. lia.
Qed.


Lemma one_at_a_time_action (web : Web) (depth : Z) (p : pool) (a : action) :
  one_at_a_time p ->
  (length (running (apply_action web depth p a)) <= 1)%nat ->
  one_at_a_time (apply_action web depth p a).
Proof.
  intros [Hlen Hcap] Hone. split; [done|]. clear Hone.
  destruct a as [k|i]; cbn [apply_action].
  - destruct (queue p !! k) as [url|]; [|done].
    case_bool_decide; [|done]. cbn [running crawler].
    rewrite map_app, list_sum_app. cbn. lia.
  - destruct (running p) as [|w rest] eqn:Hrun; [by rewrite lookup_nil, Hrun|].
    destruct rest as [|w2 rest]; [|cbn in Hlen; lia].
    destruct i as [|i];
      [|by rewrite (lookup_ge_None_2 [w] (S i)), Hrun by (cbn; lia)].
    cbn [lookup list_lookup].
    pose proof (worker_step_budget web depth (crawler p) w) as Hstep.
    pose proof (worker_step_config web depth (crawler p) w) as (_ & _ & _ & Hpages & _).
    destruct (worker_step web depth (crawler p) w) as [c' [w'|[new_urls|]]];
      cbn [fst snd outcome_weight crawler running] in *;
      rewrite Hpages;
      (destruct Hstep as [Hstep|(Hv & Hr & Hw & Hlt)]; [|rewrite Hv]);
      try change (<[0%nat:=w']> [w]) with [w'];
      try change (delete 0%nat [w]) with (@nil worker);
      unfold list_sum in *; cbn [map foldr] in *; lia.
Qed.

Lemma next_action_alone (web : Web) (depth : Z) (p : pool) (a : action) :
  (length (running p) <= 1)%nat -> next_action p = Some a ->
  (length (running (apply_action web depth p a)) <= 1)%nat.
Proof.
  intros Hlen Hnext. unfold next_action in Hnext.
  destruct (running p) as [|w rest] eqn:Hrun.
  - destruct (queue p) as [|url q] eqn:Hq; [done|].
    injection Hnext as <-. cbn [apply_action]. rewrite Hq, Hrun.
    cbn [lookup list_lookup].
    rewrite bool_decide_eq_true_2 by (unfold max_workers; cbn; lia).
    cbn. lia.
  - destruct rest as [|w2 rest]; [|cbn in Hlen; lia].
    injection Hnext as <-. cbn [apply_action]. rewrite Hrun.
    cbn [lookup list_lookup].
    destruct (worker_step web depth (crawler p) w) as [c' [w'|[new_urls|]]];
      cbn; lia.
Qed.

Lemma finish_one_at_a_time (web : Web) (depth : Z) (fuel : nat) (p : pool) :
  one_at_a_time p -> one_at_a_time (finish web depth fuel p).
Proof.
  revert p. induction fuel as [|fuel IH]; intros p Hp; [done|].
  cbn [finish]. destruct (next_action p) as [a|] eqn:Ha; [|done].
  apply IH, one_at_a_time_action; [done|].
  apply next_action_alone; [apply Hp|done].
Qed.

Lemma run_one_at_a_time (web : Web) (depth : Z) (sched : list action) (p : pool) :
  one_by_one web depth sched p = true -> one_at_a_time p ->
  one_at_a_time (run web depth sched p).
Proof.
  revert p. induction sched as [|a rest IH]; intros p Hseq Hp; [done|].
  cbn [one_by_one] in Hseq. apply andb_true_iff in Hseq as [_ Hseq].
  unfold run. cbn [fold_left]. apply IH; [done|].
  apply one_at_a_time_action; [done|].
  destruct rest; cbn [one_by_one] in Hseq;
    apply andb_true_iff in Hseq as [Hone _];
    by apply bool_decide_eq_true in Hone.
Qed.

Lemma crawl_loop_one_at_a_time (web : Web) (sched : Z -> list action) (n : nat)
    (depth : Z) (c : WebCrawler) (cur : gset string) :
  passes_one_by_one web sched n depth c cur = true ->
  Z.of_nat (size (visited_urls c)) <= Z.max 0 (max_pages c) ->
  Z.of_nat (size (visited_urls (fst (crawl_loop web sched n depth c cur)))) <=
    Z.max 0 (max_pages c).
Proof.
  revert depth c cur. induction n as [|n IH]; intros depth c cur Hseq Hc; [done|].
  cbn [crawl_loop passes_one_by_one] in *.
  apply andb_true_iff in Hseq as [Hone Hseq].
  rewrite level_unfold in *.
  assert (one_at_a_time (level_end web depth (sched depth) c cur)) as [_ Hcap].
  { apply finish_one_at_a_time, run_one_at_a_time; [done|]. split; cbn; lia. }
  pose proof (finish_config web depth
                (work_left web (run web depth (sched depth) (start_pool c cur)))
                (run web depth (sched depth) (start_pool c cur)))
    as (_ & _ & _ & Hpages & _).
  pose proof (run_config web depth (sched depth) (start_pool c cur))
    as (_ & _ & _ & Hpages' & _).
  fold (level_end web depth (sched depth) c cur) in Hpages.
  cbn [start_pool crawler] in Hpages'.
  set (p2 := level_end web depth (sched depth) c cur) in *.
  assert (Z.of_nat (size (visited_urls (crawler p2))) <=
          Z.max 0 (max_pages (crawler p2))) as Hc2 by lia.
  case_bool_decide; [cbn [fst]; lia|].
  specialize (IH (depth + 1) (crawler p2) (next_urls p2) Hseq Hc2).
  destruct (crawl_loop web sched n (depth + 1) (crawler p2) (next_urls p2)).
  cbn [fst] in *. lia.
Qed.

(** X9: the page budget is exact when no two calls overlap. Under every
    schedule that never has two calls of [extract_urls] in progress at the
    same time, in whatever order the calls are started, a crawler that
    starts within its budget never visits more than [max_pages] pages
    (none at all when [max_pages] is zero or negative). The nine extra
    pages of the threaded bound come from overlapping calls only. *)
Theorem crawl_in_sequence_keeps_budget (web : Web) (sched : Z -> list action)
    (fs : gmap string string) (self : WebCrawler) :
  sequential web sched self = true ->
  Z.of_nat (size (visited_urls self)) <= Z.max 0 (max_pages self) ->
  Z.of_nat (size (visited_urls (final (crawl web sched fs self)))) <=
    Z.max 0 (max_pages self).
Proof.
  intros Hseq Hself.
  pose proof (crawl_loop_one_at_a_time web sched (Z.to_nat (max_depth self)) 0 self
                {[base_url self]} Hseq Hself) as Hcap.
  unfold crawl.
  by destruct (crawl_loop web sched (Z.to_nat (max_depth self)) 0 self
                 {[base_url self]}).
Qed.

Lemma crawl_in_sequence_keeps_budget_witness :
  sequential budget_site last_first (crawler_with "http://example.com/" 10 2) = true /\
  Z.of_nat (size (visited_urls
     (final (crawl budget_site last_first ∅
               (crawler_with "http://example.com/" 10 2))))) <= Z.max 0 2.
Proof.
  assert (sequential budget_site last_first
            (crawler_with "http://example.com/" 10 2) = true) as Hseq
    by (vm_compute; reflexivity).
  split; [exact Hseq|].
  apply (crawl_in_sequence_keeps_budget budget_site last_first ∅
           (crawler_with "http://example.com/" 10 2) Hseq).
  vm_compute. discriminate.
Defined.

(** The budget of two is used up: the start page and one of its two links
    are visited when the calls run in sequence, and all three pages when
    the two calls of the second pass overlap. *)
Example crawl_budget_of_two :
  size (visited_urls (final (crawl budget_site last_first ∅
          (crawler_with "http://example.com/" 10 2)))) = 2%nat /\
  sequential budget_site both_at_once (crawler_with "http://example.com/" 10 2)
    = false /\
  size (visited_urls (final (crawl budget_site both_at_once ∅
          (crawler_with "http://example.com/" 10 2)))) = 3%nat.
Proof. by vm_compute. Qed.

(** *** A start page that leads nowhere *)

Lemma unfetched_dead (web : Web) (self : WebCrawler) :
  fetched_ok web (base_url self) = false -> dead_page web self.
Proof.
  unfold fetched_ok. intros Hno status hrefs Hget Hstatus.
  rewrite Hget, Hstatus in Hno. done.
Qed.

(** X10: a start page that cannot be fetched (the request raises, or the
    answer is a 4xx or 5xx status), or none of whose anchors resolves to
    a URL that passes [is_valid_url], ends the crawl after one pass, under
    every schedule: nothing is discovered, the output file is written
    empty, and no page other than the start URL is visited. *)
Theorem crawl_dead_end (web : Web) (sched : Z -> list action)
    (fs : gmap string string) (self : WebCrawler) :
  fresh self -> 0 < max_depth self ->
  fetched_ok web (base_url self) = false \/ no_eligible_links web self = true ->
  levels (crawl web sched fs self) = 1%nat /\
  returned (crawl web sched fs self) = ∅ /\
  disk (crawl web sched fs self) = <[output_file self := EmptyString]> fs /\
  visited_urls (final (crawl web sched fs self)) ⊆ {[base_url self]}.
Proof.
  intros Hfresh Hdepth Hnone.
  assert (dead_page web self) as Hdead.
  { destruct Hnone; [by apply unfetched_dead|by apply no_eligible_links_dead]. }
  destruct (dead_page_crawl web sched fs self Hfresh Hdepth Hdead) as [Hl Hr].
  assert (all_urls (final (crawl web sched fs self)) = ∅) as Hall.
  { rewrite <- Hr. unfold crawl. by destruct (crawl_loop _ _ _ _ _ _). }
  split_and!; [done|done| |].
  - rewrite crawl_disk. f_equal.
    assert (all_urls (final (crawl web sched ∅ self)) = ∅) as Hall'.
    { destruct (dead_page_crawl web sched ∅ self Hfresh Hdepth Hdead) as [_ <-].
      unfold crawl. by destruct (crawl_loop _ _ _ _ _ _). }
    unfold output_lines. rewrite Hall'. by vm_compute.
  - destruct (crawl_final_inv web sched fs self Hfresh) as (q & [] & Hq).
    rewrite <- Hq. intros u Hu.
    destruct (inv_visited0 u Hu) as [->|Hin]; [set_solver|].
    rewrite Hq, Hall in Hin. set_solver.
Qed.

Lemma crawl_dead_end_witness :
  fetched_ok gone_site "http://example.com/" = false /\
  no_eligible_links gone_site (example_crawler "http://example.com/") = false /\
  returned (crawl gone_site idle ∅ (example_crawler "http://example.com/")) = ∅ /\
  visited_urls (final (crawl gone_site idle ∅ (example_crawler "http://example.com/")))
    ⊆ {[ "http://example.com/" ]}.
Proof.
  assert (fetched_ok gone_site "http://example.com/" = false) as Hgone
    by (vm_compute; reflexivity).
  split; [exact Hgone|]. split; [vm_compute; reflexivity|].
  assert (0 < max_depth (example_crawler "http://example.com/")) as Hdepth
    by (vm_compute; reflexivity).
  split.
  - exact (proj1 (proj2 (crawl_dead_end gone_site idle ∅
             (example_crawler "http://example.com/")
             example_crawler_fresh Hdepth (or_introl Hgone)))).
  - exact (proj2 (proj2 (proj2 (crawl_dead_end gone_site idle ∅
             (example_crawler "http://example.com/")
             example_crawler_fresh Hdepth (or_introl Hgone))))).
Defined.

(** The other way to lead nowhere: the page is fetched, and its anchors
    are on another host or name a file of an excluded kind. *)
Example crawl_dead_end_links :
  let start := "http://example.com/" in
  let web := one_page start ["http://other.com/b"; "http://example.com/a.pdf"] in
  fetched_ok web start = true /\
  no_eligible_links web (example_crawler start) = true /\
  elements (visited_urls (final (crawl web idle ∅ (example_crawler start)))) =
    [start].
Proof. split_and!; by vm_compute. Qed.

(** *** The entry point *)


Lemma crawl_disk_final (web : Web) (sched : Z -> list action)
    (fs : gmap string string) (self : WebCrawler) :
  disk (crawl web sched fs self) =
    <[output_file self :=
        encode_utf8 (write_lines (output_lines (final (crawl web sched fs self))))]> fs.
Proof.
  destruct (crawl_config web sched fs self) as (_ & <- & _).
  unfold crawl. by destruct (crawl_loop _ _ _ _ _ _).
Qed.


(** [main] on a two-page site, on a start URL that [urlparse] rejects,
    and on one without a network location. *)
Example main_runs :
  let fs : gmap string string := {[ "./notes.txt" := "keep" ]} in
  let raises := fun url => String.eqb url "http://[::1" in
  main (Some "http://example.com/") raises budget_site idle fs =
    <["./discovered_urls.txt" :=
        "http://example.com/a" +:+ String LF
          ("http://example.com/b" +:+ String LF EmptyString)]> fs /\
  main (Some "http://[::1") raises budget_site idle fs = fs /\
  main (Some "example.com/") raises budget_site idle fs = fs /\
  main None raises budget_site idle fs = fs.
Proof. split_and!; by vm_compute. Qed.

(** *** What is discovered, exactly *)

Lemma elem_of_insert_other {A} (l : list A) (i : nat) (x y z : A) :
  l !! i = Some x -> z ∈ l -> z <> x -> z ∈ <[i := y]> l.
Proof.
  intros Hi Hz Hne. pose proof (lookup_lt_Some _ _ _ Hi) as Hlt.
  rewrite insert_take_drop by done.
  rewrite <- (take_drop_middle _ _ _ Hi) in Hz.
  apply elem_of_app in Hz as [Hz|[->|Hz]%elem_of_cons]; [| |]; set_solver.
Qed.

Lemma elem_of_delete_other {A} (l : list A) (i : nat) (x z : A) :
  l !! i = Some x -> z ∈ l -> z <> x -> z ∈ delete i l.
Proof.
  intros Hi Hz Hne. rewrite delete_take_drop.
  rewrite <- (take_drop_middle _ _ _ Hi) in Hz.
  apply elem_of_app in Hz as [Hz|[->|Hz]%elem_of_cons]; [| |]; set_solver.
Qed.

Lemma elem_of_insert_inv {A} (l : list A) (i : nat) (y z : A) :
  z ∈ <[i := y]> l -> z = y \/ z ∈ l.
Proof.
  destruct (decide (i < length l)%nat) as [Hlt|Hge].
  - rewrite insert_take_drop by done.
    intros [Hz|[->|Hz]%elem_of_cons]%elem_of_app; [right|by left|right].
    + eapply elem_of_sublist; [done|apply sublist_take].
    + eapply elem_of_sublist; [done|apply sublist_drop].
  - rewrite list_insert_ge by lia. by right.
Qed.

Lemma worker_expanding_mono (web : Web) (self c c' : WebCrawler) (w : worker) :
  visited_urls c ⊆ visited_urls c' ->
  worker_expanding web self c w -> worker_expanding web self c' w.
Proof.
  intros Hsub. destruct w; cbn; try done.
  - intros [Hin Hh]. split; [by apply Hsub|done].
  - intros (Hin & Hh & He). split_and!; [by apply Hsub|done|done].
Qed.

(** What one step does to the two sets and to the links its call has
    still to deal with. *)
Lemma worker_step_expanding (web : Web) (depth : Z) (self c : WebCrawler)
    (w : worker) :
  domain c = domain self ->
  worker_expanding web self c w ->
  (forall v, v ∈ all_urls (fst (worker_step web depth c w)) ->
             v ∈ all_urls c \/
             exists u, u ∈ visited_urls c /\ eligible_link web self u v) /\
  (forall u, u ∈ visited_urls (fst (worker_step web depth c w)) ->
             u ∈ visited_urls c \/ exists hrefs, w = AtMark u hrefs) /\
  match snd (worker_step web depth c w) with
  | inl w' =>
      worker_expanding web self (fst (worker_step web depth c w)) w' /\
      (forall u v, eligible_link web self u v ->
                   pending web u v w \/ (exists hrefs, w = AtMark u hrefs) ->
                   v ∈ all_urls (fst (worker_step web depth c w)) \/
                   pending web u v w')
  | inr _ =>
      visited_urls (fst (worker_step web depth c w)) = visited_urls c /\
      forall u v, eligible_link web self u v -> pending web u v w ->
                  v ∈ all_urls (fst (worker_step web depth c w))
  end.
Proof.
  intros Hdom Hw.
  assert (forall v, is_valid_url c v = is_valid_url self v) as Hvalid
    by (intros v; by apply is_valid_url_config).
  destruct w as [url|url|url|url|url hrefs|url hrefs page|url full hrefs page];
    cbn [worker_step].
  - destruct (bool_decide _); cbn [fst snd]; split_and!; auto.
    + by intros u v _ [].
    + cbn. intros u v _ [[]|(hrefs & [=])].
  - destruct (_ <? _); cbn [fst snd]; split_and!; auto.
    + by intros u v _ [].
    + cbn. intros u v _ [[]|(hrefs & [=])].
  - destruct (over_budget _); cbn [fst snd]; split_and!; auto.
    + by intros u v _ [].
    + cbn. intros u v _ [[]|(hrefs & [=])].
  - destruct (get web url) as [[status hrefs]|] eqn:Hget; cbn [fst snd];
      [|split_and!; auto; by intros u v _ []].
    destruct (raise_for_status status); cbn [fst snd]; split_and!; auto.
    + by intros u v _ [].
    + cbn. unfold hrefs_of. by rewrite Hget.
    + cbn. intros u v _ [[]|(hrefs' & [=])].
  - cbn [fst snd visited_add visited_urls all_urls]. cbn in Hw. subst hrefs.
    split_and!; auto.
    + intros u [Hu| ->%elem_of_singleton]%elem_of_union; [by left|right].
      by eexists.
    + cbn. split; [set_solver|done].
    + intros u v [Hres Hv] [[]|(hrefs' & [= <- _])].
      right. by cbn.
  - destruct Hw as [Hin Hsub].
    destruct hrefs as [|href hrefs]; cbn [fst snd].
    { split_and!; auto. intros u v _ (_ & Hnone).
      by apply elem_of_nil in Hnone. }
    cbn [resolved] in Hsub.
    destruct (urljoin web url href) as [full_url|] eqn:Hjoin; cbn [fst snd].
    2: { split_and!; auto. intros u v _ (-> & Hnone).
         cbn [resolved] in Hnone. rewrite Hjoin in Hnone.
         by apply elem_of_nil in Hnone. }
    assert (full_url ∈ resolved web url (hrefs_of web url)) as Hfull
      by set_solver.
    assert (resolved web url hrefs ⊆ resolved web url (hrefs_of web url))
      as Hsub' by set_solver.
    assert (forall u v, pending web u v (AtLink url (href :: hrefs) page) ->
                        u = url /\ (v = full_url \/ v ∈ resolved web url hrefs))
      as Hpending.
    { intros u v (-> & Hv). cbn [resolved] in Hv. rewrite Hjoin in Hv.
      by apply elem_of_cons in Hv. }
    destruct (is_valid_url c full_url) eqn:Hok;
      cbn [andb]; [case_bool_decide as Hknown; cbn [negb]|]; cbn [fst snd].
    + split_and!; auto; [by split|].
      intros u v Hv [(-> & [->|Hh])%Hpending|(? & [=])]; [by left|right].
      by cbn.
    + split_and!; auto.
      * cbn. split_and!; [done|done|]. split; [done|by rewrite <- Hvalid].
      * intros u v Hv [(-> & [->|Hh])%Hpending|(? & [=])];
          right; cbn; (split; [done|]); [by left|by right].
    + split_and!; auto; [by split|].
      intros u v [_ Hv] [(-> & [->|Hh])%Hpending|(? & [=])].
      * rewrite <- Hvalid in Hv. congruence.
      * right. by cbn.
  - destruct Hw as (Hin & Hsub & Hfull).
    cbn [fst snd all_add visited_urls all_urls]. split_and!; auto.
    + intros v [Hv| ->%elem_of_singleton]%elem_of_union; [by left|right].
      by exists url.
    + by split.
    + intros u v Hv [(-> & [->|Hh])|(? & [=])].
      * left. set_solver.
      * right. by cbn.
Qed.

Lemma expand_inv_action (web : Web) (depth : Z) (self : WebCrawler)
    (p : pool) (a : action) :
  expand_inv web self p -> expand_inv web self (apply_action web depth p a).
Proof.
  intros Hinv. destruct a as [k|i]; cbn [apply_action].
  - destruct (queue p !! k) as [url|] eqn:Hk; [|done].
    case_bool_decide; [|done].
    destruct Hinv. split; cbn; try done.
    + intros w [Hw| ->%list_elem_of_singleton]%elem_of_app; [by apply ei_workers0|].
      done.
    + intros u v Hu Hv. destruct (ei_complete0 u v Hu Hv) as [Hin|(w & Hw & Hp)];
        [by left|right]. exists w. split; [|done]. apply elem_of_app. by left.
  - destruct (running p !! i) as [w|] eqn:Hi; [|done].
    destruct Hinv as [Hcfg Hworkers Hsound Hcomplete].
    assert (worker_expanding web self (crawler p) w) as Hw
      by (apply Hworkers; by eapply list_elem_of_lookup_2).
    destruct (worker_step_grows web depth (crawler p) w) as [Hvis Hall].
    pose proof (worker_step_config web depth (crawler p) w)
      as (_ & _ & _ & _ & Hdom).
    destruct (worker_step_expanding web depth self (crawler p) w Hcfg Hw)
      as (Hnew_all & Hnew_vis & Hnext).
    destruct (worker_step web depth (crawler p) w) as [c' [w'|[new_urls|]]];
      cbn [fst snd] in *.
    + destruct Hnext as [Hw' Hpend]. split; cbn [crawler running].
      * congruence.
      * intros w0 [->|Hw0]%elem_of_insert_inv; [done|].
        eapply worker_expanding_mono; [done|by apply Hworkers].
      * intros v Hv. destruct (Hnew_all v Hv) as [Hold|(u & Hu & He)].
        -- destruct (Hsound v Hold) as (u & Hu & He).
           exists u. split; [by apply Hvis|done].
        -- exists u. split; [by apply Hvis|done].
      * intros u v Hu He.
        assert (v ∈ all_urls c' \/ pending web u v w' \/
                exists w0, w0 ∈ running p /\ w0 <> w /\ pending web u v w0)
          as [Hin|[Hp|(w0 & Hw0 & Hne & Hp)]].
        { destruct (Hnew_vis u Hu) as [Hold|Hmark].
          - destruct (Hcomplete u v Hold He) as [Hin|(w0 & Hw0 & Hp)];
              [left; by apply Hall|].
            destruct (decide (w0 = w)) as [->|Hne].
            + destruct (Hpend u v He (or_introl Hp)); auto.
            + right. right. by exists w0.
          - destruct (Hpend u v He (or_intror Hmark)); auto. }
        -- by left.
        -- right. exists w'. split; [|done].
           apply list_elem_of_lookup. exists i. apply list_lookup_insert_eq.
           by eapply lookup_lt_Some.
        -- right. exists w0. split; [|done]. by eapply elem_of_insert_other.
    + split; cbn [crawler running].
      * congruence.
      * intros w0 Hw0. eapply worker_expanding_mono; [done|]. apply Hworkers.
        eapply elem_of_sublist; [done|apply sublist_delete].
      * intros v Hv. destruct (Hnew_all v Hv) as [Hold|(u & Hu & He)].
        -- destruct (Hsound v Hold) as (u & Hu & He).
           exists u. split; [by apply Hvis|done].
        -- exists u. split; [by apply Hvis|done].
      * intros u v Hu He.
        destruct Hnext as [Hsame Hnext]. rewrite Hsame in Hu.
        destruct (Hcomplete u v Hu He) as [Hin|(w0 & Hw0 & Hp)];
          [left; by apply Hall|].
        destruct (decide (w0 = w)) as [->|Hne]; [left; by eapply Hnext|].
        right. exists w0. split; [|done]. by eapply elem_of_delete_other.
    + split; cbn [crawler running].
      * congruence.
      * intros w0 Hw0. eapply worker_expanding_mono; [done|]. apply Hworkers.
        eapply elem_of_sublist; [done|apply sublist_delete].
      * intros v Hv. destruct (Hnew_all v Hv) as [Hold|(u & Hu & He)].
        -- destruct (Hsound v Hold) as (u & Hu & He).
           exists u. split; [by apply Hvis|done].
        -- exists u. split; [by apply Hvis|done].
      * intros u v Hu He.
        destruct Hnext as [Hsame Hnext]. rewrite Hsame in Hu.
        destruct (Hcomplete u v Hu He) as [Hin|(w0 & Hw0 & Hp)];
          [left; by apply Hall|].
        destruct (decide (w0 = w)) as [->|Hne]; [left; by eapply Hnext|].
        right. exists w0. split; [|done]. by eapply elem_of_delete_other.
Qed.

Lemma reachable_expand (web : Web) (self : WebCrawler) (depth : Z) (p : pool) :
  fresh self -> reachable web self depth p -> expand_inv web self p.
Proof.
  intros (Hv & Ha & _) Hreach.
  induction Hreach as [|depth p a _ IH|depth p _ IH Hq Hr _ _].
  - split; cbn.
    + done.
    + intros w Hw. by apply elem_of_nil in Hw.
    + rewrite Ha. set_solver.
    + rewrite Hv. set_solver.
  - by apply expand_inv_action.
  - destruct IH. split; cbn; try done.
    + intros w Hw. by apply elem_of_nil in Hw.
    + intros u v Hu He. destruct (ei_complete0 u v Hu He) as [Hin|(w & Hw & _)];
        [by left|]. rewrite Hr in Hw. by apply elem_of_nil in Hw.
Qed.

Lemma crawl_loop_drained (web : Web) (sched : Z -> list action)
    (self : WebCrawler) (n : nat) (depth : Z) (c : WebCrawler) (cur : gset string) :
  Z.of_nat n = max_depth self - depth ->
  reachable web self depth (start_pool c cur) ->
  exists depth' p,
    reachable web self depth' p /\ running p = [] /\
    crawler p = fst (crawl_loop web sched n depth c cur).
Proof.
  revert depth c cur. induction n as [|n IH]; intros depth c cur Hn Hreach.
  - by exists depth, (start_pool c cur).
  - cbn [crawl_loop]. rewrite level_unfold.
    set (p2 := level_end web depth (sched depth) c cur).
    assert (reachable web self depth p2) as Hp2
      by (apply finish_reachable, run_reachable, Hreach).
    destruct (finish_drains web depth
                (work_left web (run web depth (sched depth) (start_pool c cur)))
                (run web depth (sched depth) (start_pool c cur)))
      as [Hq Hr]; [lia|]. fold (level_end web depth (sched depth) c cur) in Hq, Hr.
    fold p2 in Hq, Hr.
    case_bool_decide as Hnext; [by exists depth, p2|].
    destruct n as [|n].
    + cbn. by exists depth, p2.
    + destruct (IH (depth + 1) (crawler p2) (next_urls p2))
        as (d' & p' & Hp' & Hr' & Heq).
      * lia.
      * apply reach_level; try done. lia.
      * exists d', p'. split_and!; [done|done|]. rewrite Heq.
        by destruct (crawl_loop web sched (S n) (depth + 1) (crawler p2) (next_urls p2)).
Qed.

(** X21: what [crawl] discovers, exactly. For a fresh crawler and every
    schedule of the threads, the set [crawl] returns is the set of
    eligible links of the pages it visited: a URL is returned if and only
    if it passes [is_valid_url] and is what [urljoin] makes of an anchor
    of some visited page that comes before the first anchor of that page
    on which [urljoin] raises (the call for the page ends there). No such
    link is lost to the races between the threads, and none is lost when
    the call raises later on. *)
Theorem crawl_discovers_the_eligible_links (web : Web)
    (sched : Z -> list action) (fs : gmap string string) (self : WebCrawler)
    (v : string) :
  fresh self ->
  v ∈ returned (crawl web sched fs self) <->
  exists u, u ∈ visited_urls (final (crawl web sched fs self)) /\
            eligible_link web self u v.
Proof.
  intros Hfresh.
  assert (returned (crawl web sched fs self) =
          all_urls (final (crawl web sched fs self))) as ->.
  { unfold crawl. by destruct (crawl_loop _ _ _ _ _ _). }
  destruct (decide (0 < max_depth self)) as [Hdepth|Hdepth].
  - assert (exists d p, reachable web self d p /\ running p = [] /\
                        crawler p = final (crawl web sched fs self))
      as (d & p & Hp & Hr & <-).
    { unfold crawl.
      destruct (crawl_loop_drained web sched self (Z.to_nat (max_depth self)) 0
                  self {[base_url self]}) as (d & p & Hp & Hr & Heq);
        [lia|by apply reach_first|].
      exists d, p. split_and!; [done|done|]. rewrite Heq.
      by destruct (crawl_loop web sched (Z.to_nat (max_depth self)) 0 self
                     {[base_url self]}). }
    destruct (reachable_expand web self d p Hfresh Hp).
    split; [by apply ei_sound0|].
    intros (u & Hu & He).
    destruct (ei_complete0 u v Hu He) as [Hin|(w & Hw & _)]; [done|].
    rewrite Hr in Hw. by apply elem_of_nil in Hw.
  - destruct (crawl_no_depth web sched fs self) as [-> _]; [lia|].
    destruct Hfresh as (-> & -> & _). split.
    + intros Hin. by apply elem_of_empty in Hin.
    + intros (u & Hin & _). by apply elem_of_empty in Hin.
Qed.

Lemma crawl_discovers_the_eligible_links_witness :
  "http://example.com/a" ∈
    returned (crawl broken_anchor_site idle ∅ (example_crawler "http://example.com/"))
  <->
  exists u,
    u ∈ visited_urls
          (final (crawl broken_anchor_site idle ∅
                    (example_crawler "http://example.com/"))) /\
    eligible_link broken_anchor_site (example_crawler "http://example.com/") u
      "http://example.com/a".
Proof.
  exact (crawl_discovers_the_eligible_links broken_anchor_site idle ∅
           (example_crawler "http://example.com/")
           "http://example.com/a" example_crawler_fresh).
Defined.

(** On that site the call for the start page raises at its second anchor:
    the first link is discovered, the third is not, and it is not an
    eligible link of the page. *)
Example crawl_stops_at_broken_anchor :
  let self := example_crawler "http://example.com/" in
  elements (returned (crawl broken_anchor_site idle ∅ self)) =
    ["http://example.com/a"] /\
  resolved broken_anchor_site "http://example.com/"
    (hrefs_of broken_anchor_site "http://example.com/") = ["http://example.com/a"] /\
  is_valid_url self "http://example.com/b" = true.
Proof. by vm_compute. Qed.


(** *** A pass whose calls do not overlap *)
(** *** A pass whose calls do not overlap *)

Lemma finish_enough (web : Web) (depth : Z) (f1 f2 : nat) (p : pool) :
  (work_left web p <= f1)%nat -> (work_left web p <= f2)%nat ->
  finish web depth f1 p = finish web depth f2 p.
Proof.
  revert f2 p. induction f1 as [|f1 IH]; intros f2 p H1 H2.
  - destruct (next_action p) as [a|] eqn:Ha.
    + pose proof (next_action_progress web depth p a Ha). lia.
    + destruct f2; cbn [finish]; by rewrite ?Ha.
  - cbn [finish]. destruct (next_action p) as [a|] eqn:Ha.
    + pose proof (next_action_progress web depth p a Ha).
      destruct f2 as [|f2]; [lia|]. cbn [finish]. rewrite Ha.
      apply IH; lia.
    + destruct f2; cbn [finish]; by rewrite ?Ha.
Qed.

Lemma drain_step (web : Web) (depth : Z) (p : pool) (a : action) :
  next_action p = Some a ->
  drain web depth p = drain web depth (apply_action web depth p a).
Proof.
  intros Ha. unfold drain.
  pose proof (next_action_progress web depth p a Ha) as Hlt.
  destruct (work_left web p) as [|f]; [lia|].
  cbn [finish]. rewrite Ha. apply finish_enough; lia.
Qed.

Lemma drain_idle (web : Web) (depth : Z) (st : WebCrawler * gset string) :
  drain web depth (idle_pool st []) = idle_pool st [].
Proof. unfold drain, idle_pool. apply finish_idle. Qed.

Lemma drain_lone_step (web : Web) (depth : Z) (c : WebCrawler) (q : list string)
    (w : worker) (nxt : gset string) :
  drain web depth
    {| crawler := c; queue := q; running := [w]; next_urls := nxt |} =
  match worker_step web depth c w with
  | (c', inl w') =>
      drain web depth
        {| crawler := c'; queue := q; running := [w']; next_urls := nxt |}
  | (c', inr (Returned new_urls)) =>
      drain web depth (idle_pool (c', nxt ∪ new_urls) q)
  | (c', inr Raised) =>
      drain web depth (idle_pool (c', nxt) q)
  end.
Proof.
  rewrite (drain_step web depth _ (Advance 0)) by done.
  cbn [apply_action running lookup list_lookup crawler queue next_urls].
  by destruct (worker_step web depth c w) as [c' [w'|[new_urls|]]].
Qed.

Lemma drain_link_loop (web : Web) (depth : Z) (url : string)
    (hrefs : list string) (c : WebCrawler) (q : list string)
    (page_urls nxt : gset string) :
  drain web depth
    {| crawler := c; queue := q; running := [AtLink url hrefs page_urls];
       next_urls := nxt |} =
  match visit_links web url hrefs (c, page_urls) with
  | (c', Returned new_urls) => drain web depth (idle_pool (c', nxt ∪ new_urls) q)
  | (c', Raised) => drain web depth (idle_pool (c', nxt) q)
  end.
Proof.
  revert c page_urls. induction hrefs as [|href hrefs IH]; intros c page_urls.
  - by rewrite drain_lone_step.
  - rewrite drain_lone_step. cbn [worker_step visit_links visit_link fst snd].
    destruct (urljoin web url href) as [full_url|]; [|done].
    destruct (is_valid_url c full_url &&
              negb (bool_decide (full_url ∈ all_urls c))).
    + rewrite drain_lone_step. cbn [worker_step]. apply IH.
    + apply IH.
Qed.

Lemma drain_call (web : Web) (depth : Z) (c : WebCrawler) (q : list string)
    (url : string) (nxt : gset string) :
  drain web depth
    {| crawler := c; queue := q; running := [AtVisited url]; next_urls := nxt |} =
  drain web depth (idle_pool (expand_one web depth (c, nxt) url) q).
Proof.
  unfold expand_one, extract_urls.
  rewrite drain_lone_step. cbn [worker_step].
  destruct (bool_decide (url ∈ visited_urls c)); cbn [orb]; [done|].
  rewrite drain_lone_step. cbn [worker_step].
  destruct (max_depth c <? depth); cbn [orb]; [done|].
  rewrite drain_lone_step. cbn [worker_step].
  destruct (over_budget c); [done|].
  rewrite drain_lone_step. cbn [worker_step].
  destruct (get web url) as [[status hrefs]|]; [|done].
  destruct (raise_for_status status); [done|].
  rewrite drain_lone_step. cbn [worker_step].
  rewrite drain_link_loop.
  by destruct (visit_links web url hrefs (visited_add url c, ∅)) as [c' [new_urls|]].
Qed.

Lemma drain_queue (web : Web) (depth : Z) (q : list string)
    (st : WebCrawler * gset string) :
  drain web depth (idle_pool st q) =
  idle_pool (fold_left (expand_one web depth) q st) [].
Proof.
  revert st. induction q as [|url q IH]; intros [c nxt].
  - apply drain_idle.
  - rewrite (drain_step web depth _ (Start 0)) by done.
    unfold idle_pool at 1.
    cbn [apply_action queue running lookup list_lookup crawler next_urls fst snd].
    rewrite bool_decide_eq_true_2 by (unfold max_workers; cbn; lia).
    cbn [app delete list_delete]. rewrite drain_call. apply IH.
Qed.

(** A call in progress ends in the same way whatever waits behind it. *)
Lemma drain_lone_worker (web : Web) (depth : Z) (n : nat) (c : WebCrawler)
    (q : list string) (w : worker) (nxt : gset string) :
  (steps_left web w <= n)%nat ->
  let alone :=
    drain web depth
      {| crawler := c; queue := []; running := [w]; next_urls := nxt |} in
  drain web depth
    {| crawler := c; queue := q; running := [w]; next_urls := nxt |} =
  drain web depth (idle_pool (crawler alone, next_urls alone) q).
Proof.
  cbn zeta. revert c w. induction n as [|n IH]; intros c w Hn;
    pose proof (worker_step_progress web depth c w) as Hstep;
    rewrite (drain_lone_step web depth c q), (drain_lone_step web depth c []);
    destruct (worker_step web depth c w) as [c' [w'|[new_urls|]]];
    cbn [snd] in Hstep; try lia;
    rewrite ?drain_idle; try done.
  apply IH. lia.
Qed.

Lemma drain_in_progress (web : Web) (depth : Z) (p : pool) :
  (length (running p) <= 1)%nat ->
  drain web depth p =
  drain web depth
    (idle_pool (crawler (drain web depth (in_progress p)),
                next_urls (drain web depth (in_progress p))) (queue p)).
Proof.
  destruct p as [c q r nxt]. unfold in_progress.
  cbn [crawler queue running next_urls].
  destruct r as [|w [|w2 r]]; cbn [length]; intros Hlen; [| |lia].
  - change {| crawler := c; queue := []; running := []; next_urls := nxt |}
      with (idle_pool (c, nxt) []).
    by rewrite drain_idle.
  - by apply (drain_lone_worker web depth (steps_left web w)).
Qed.

Lemma runs_in_turn_action (web : Web) (depth : Z) (self : WebCrawler)
    (cur : gset string) (p : pool) (a : action) (started : list string) :
  runs_in_turn web depth self cur p started ->
  (length (running (apply_action web depth p a)) <= 1)%nat ->
  exists started',
    runs_in_turn web depth self cur (apply_action web depth p a) started'.
Proof.
  intros (Hperm & Hlen & Hdrain). destruct a as [k|i]; cbn [apply_action].
  - destruct (queue p !! k) as [url|] eqn:Hk; [|by exists started].
    case_bool_decide; [|by exists started].
    cbn [running]. intros Hone. unfold in_progress in Hdrain.
    destruct (running p) as [|w r] eqn:Hrun;
      [|rewrite length_app in Hone; cbn in Hone; lia].
    change {| crawler := crawler p; queue := []; running := [];
              next_urls := next_urls p |}
      with (idle_pool (crawler p, next_urls p) []) in Hdrain.
    rewrite drain_idle in Hdrain.
    assert (after_calls web depth self started = (crawler p, next_urls p))
      as Hafter.
    { destruct (after_calls web depth self started).
      by injection Hdrain as -> ->. }
    exists (started ++ [url])%list. split_and!.
    + cbn [queue]. rewrite <- List.app_assoc. cbn [app].
      by rewrite <- (delete_Permutation _ _ _ Hk).
    + done.
    + unfold in_progress. cbn [crawler queue running next_urls app].
      rewrite drain_call, drain_idle.
      unfold after_calls in *. rewrite fold_left_app, Hafter. done.
  - destruct (running p !! i) as [w|] eqn:Hi; [|by exists started].
    intros Hone. exists started.
    destruct (running p) as [|w0 [|w1 r]] eqn:Hrun; [done| |cbn in Hlen; lia].
    destruct i as [|i]; [|done]. injection Hi as ->.
    unfold in_progress in Hdrain. rewrite Hrun, drain_lone_step in Hdrain.
    destruct (worker_step web depth (crawler p) w) as [c' [w'|[new_urls|]]];
      (split_and!; [done|done|]); unfold in_progress;
      cbn [crawler queue running next_urls]; exact Hdrain.
Qed.

Lemma runs_in_turn_run (web : Web) (depth : Z) (self : WebCrawler)
    (cur : gset string) (sched : list action) (p : pool)
    (started : list string) :
  one_by_one web depth sched p = true ->
  runs_in_turn web depth self cur p started ->
  exists started',
    runs_in_turn web depth self cur (run web depth sched p) started'.
Proof.
  revert p started. induction sched as [|a rest IH]; intros p started Hseq Hp;
    [by exists started|].
  cbn [one_by_one] in Hseq. apply andb_true_iff in Hseq as [_ Hseq].
  destruct (runs_in_turn_action web depth self cur p a started Hp)
    as [started' Hp'].
  { destruct rest; cbn [one_by_one] in Hseq;
      apply andb_true_iff in Hseq as [Hone _];
      by apply bool_decide_eq_true in Hone. }
  unfold run. cbn [fold_left]. by apply (IH _ started').
Qed.

(** X23: a pass whose calls do not overlap is a loop over [extract_urls].
    Under every schedule that never has two calls in progress at the same
    time, a pass leaves the crawler, and hands on as next frontier, what
    the following loop does for the frontier URLs taken in some order (the
    order in which the schedule starts the calls): call [extract_urls],
    put what it returns into [next_urls], and go on to the next URL when
    it raises, as [crawl] does with the exception of a call. The steps
    into which the model cuts a call add up to the method [extract_urls]
    itself. *)
Theorem sequential_pass_is_extract_urls (web : Web) (depth : Z)
    (sched : list action) (self : WebCrawler) (current_urls : gset string) :
  one_by_one web depth sched (start_pool self current_urls) = true ->
  exists order,
    order ≡ₚ elements current_urls /\
    level web depth sched self current_urls =
      fold_left (expand_one web depth) order (self, ∅).
Proof.
  intros Hseq.
  destruct (runs_in_turn_run web depth self current_urls sched
              (start_pool self current_urls) [] Hseq)
    as (started & Hperm & Hlen & Hdrain).
  { split_and!; [done|cbn; lia|]. apply (drain_idle web depth (self, ∅)). }
  set (p1 := run web depth sched (start_pool self current_urls)) in *.
  exists (started ++ queue p1)%list. split; [done|].
  unfold level. cbn zeta. fold p1. fold (drain web depth p1).
  rewrite (drain_in_progress web depth p1 Hlen), Hdrain.
  cbn [idle_pool crawler next_urls]. rewrite <- surjective_pairing.
  rewrite drain_queue. unfold after_calls. rewrite fold_left_app.
  cbn [idle_pool crawler next_urls]. by rewrite <- surjective_pairing.
Qed.

Lemma sequential_pass_is_extract_urls_witness :
  exists order,
    order ≡ₚ elements ({[ "http://example.com/a"; "http://example.com/b" ]}
                         : gset string) /\
    level budget_site 1 (last_first 1) (crawler_with "http://example.com/" 10 2)
      {[ "http://example.com/a"; "http://example.com/b" ]} =
    fold_left (expand_one budget_site 1) order
      (crawler_with "http://example.com/" 10 2, ∅).
Proof.
  apply (sequential_pass_is_extract_urls budget_site 1 (last_first 1)
           (crawler_with "http://example.com/" 10 2)
           {[ "http://example.com/a"; "http://example.com/b" ]}).
  vm_compute. reflexivity.
Defined.

(** A pass over the page whose second anchor cannot be resolved: the
    call raises, the pool logs the exception, and the pass hands on
    nothing, although the call had found one link. *)
Example pass_with_raising_call :
  let self := example_crawler "http://example.com/" in
  let r := level broken_anchor_site 0 [Start 0; Advance 0] self
             {[ "http://example.com/" ]} in
  snd (extract_urls broken_anchor_site self "http://example.com/" 0) = Raised /\
  r = expand_one broken_anchor_site 0 (self, ∅) "http://example.com/" /\
  snd r = ∅ /\
  elements (all_urls (fst r)) = ["http://example.com/a"].
Proof. by vm_compute. Qed.

End CrawlerMoreSpec.

(** * The acquirer: further properties *)

Module ScraperMoreSpec.
Import PyStr UrlParse Scraper ScraperInv ScraperMore PyStrFacts ScraperSpec.

(** *** One call of [download_pdf] *)

(** X12: what a call of [download_pdf] leaves behind. It always returns,
    whatever the network does. When it returns [True], the URL was not in
    the history, the fetch answered 200, the document is stored under a
    name that was free and ends in [.pdf], its digest was new, and the
    URL, the digest and one line of the history file are what the call
    added. When it returns [False], both sets and the history file are as
    they were. *)
Theorem download_pdf_spec (env : Env) (url : string) (filename : option string)
    (s : PDFScraper) :
  exists ok s',
    download_pdf env url filename s = (Returns ok, s') /\
    if ok then
      (url ∉ downloaded_urls s) /\
      exists response name,
        requests_get env url = Some response /\
        status_code response = 200 /\
        files s !! name = None /\
        endswith (lower name) ".pdf" = true /\
        (md5_hexdigest env (body response) ∉ downloaded_hashes s) /\
        downloaded_urls s' = downloaded_urls s ∪ {[url]} /\
        downloaded_hashes s' =
          downloaded_hashes s ∪ {[md5_hexdigest env (body response)]} /\
        files s' = append_line url (<[name := body response]> (files s))
    else
      downloaded_urls s' = downloaded_urls s /\
      downloaded_hashes s' = downloaded_hashes s /\
      files s' !! history_file = files s !! history_file.
Proof.
  destruct (download_pdf_outcome env url filename s) as (ok & s' & Hrun & Hout).
  exists ok, s'. split; [done|].
  destruct Hout as [Hin|Hout Hget|response Hout Hget Hstatus
                   |response name Hout Hget Hstatus Hname Hbreak
                   |response name Hout Hget Hstatus Hname Hbreak Hdup
                   |response name Hout Hget Hstatus Hname Hbreak Hnew];
    try done.
  - apply stored_name_fresh in Hname as (Hfree & Hpdf & Hne).
    cbn. split_and!; [done|done|]. by rewrite lookup_insert_ne.
  - apply stored_name_fresh in Hname as (Hfree & Hpdf & Hne).
    by rewrite write_then_delete.
  - apply stored_name_fresh in Hname as (Hfree & Hpdf & Hne).
    split; [done|]. exists response, name. by split_and!.
Qed.

(** X13: a stream that breaks leaves its file behind. When the fetch
    answers 200 and the connection is lost while the body is read,
    [download_pdf] returns [False] with the part received stored under a
    new name; the URL is not recorded, so a later call fetches it again. *)
Theorem broken_stream_leaves_file (env : Env) (url : string)
    (filename : option string) (response : Response) (s : PDFScraper) :
  url ∉ downloaded_urls s ->
  requests_get env url = Some response ->
  status_code response = 200 ->
  stream_breaks response = true ->
  exists name,
    files s !! name = None /\
    endswith (lower name) ".pdf" = true /\
    download_pdf env url filename s =
      (Returns false, set_files (<[name := body response]>) s) /\
    url ∉ downloaded_urls (set_files (<[name := body response]>) s).
Proof.
  intros Hout Hget Hstatus Hbreak.
  destruct (download_pdf_outcome env url filename s) as (ok & s' & Hrun & Hcase).
  destruct Hcase as [Hin|_ Hget'|response' _ Hget' Hstatus'
                    |response' name _ Hget' _ Hname _
                    |response' name _ Hget' _ _ Hbreak' _
                    |response' name _ Hget' _ _ Hbreak' _];
    try done; try congruence.
  assert (response' = response) as -> by congruence.
  apply stored_name_fresh in Hname as (Hfree & Hpdf & Hne).
  exists name. by split_and!.
Qed.

Lemma broken_stream_leaves_file_witness :
  let url := "http://doj.example/a.pdf" in
  let env := broken_stream url ["%PDF-1.4 first half"] in
  let s' := snd (download_pdf env url None (__init__ ∅)) in
  exists name, files s' !! name = Some "%PDF-1.4 first half" /\
               url ∉ downloaded_urls s'.
Proof.
  intros url env s'.
  destruct (broken_stream_leaves_file env url None
              {| status_code := 200; content_type := Some "application/pdf";
                 content_disposition := None; pdf_containers := [];
                 chunks := ["%PDF-1.4 first half"]; stream_breaks := true |}
              (__init__ ∅))
    as (name & _ & _ & Hrun & Hout); [set_solver|done|done|done|].
  exists name. unfold s'. rewrite Hrun. cbn [snd]. split; [|done].
  cbn. by rewrite lookup_insert_eq.
Defined.

(** X14: asking again does not store again. A second call of
    [download_pdf] for the same URL, right after the first and against the
    same network, never returns [True], whatever the first call returned
    and whatever file names the two calls were given. *)
Theorem download_pdf_again_is_false (env : Env) (url : string)
    (filename filename' : option string) (s : PDFScraper) :
  fst (download_pdf env url filename'
         (snd (download_pdf env url filename s))) = Returns false.
Proof.
  destruct (download_pdf_outcome env url filename s) as (ok & s1 & Hrun & Hfirst).
  rewrite Hrun. cbn [snd].
  destruct (download_pdf_outcome env url filename' s1)
    as (ok' & s2 & Hrun' & Hsecond).
  rewrite Hrun'. cbn [fst]. destruct ok'; [exfalso|done].
  inversion Hsecond as [| | | | |response' name' Hout' Hget' Hstatus' _ Hbreak' Hnew'];
    subst.
  destruct Hfirst as [Hin|Hout Hget|response Hout Hget Hstatus
                     |response name Hout Hget Hstatus Hname Hbreak
                     |response name Hout Hget Hstatus Hname Hbreak Hdup
                     |response name Hout Hget Hstatus Hname Hbreak Hnew];
    try done; try congruence.
  - assert (response' = response) as -> by congruence.
    cbn in Hnew'. done.
  - cbn in Hout'. set_solver.
Qed.

(** *** What a run records *)

Lemma history_lines_app (a b : list string) :
  history_lines (a ++ b) = history_lines a +:+ history_lines b.
Proof.
  induction a as [|u a IH]; [done|]. cbn [app history_lines].
  by rewrite IH, app_assoc, app_cons.
Qed.

Lemma history_text_append (url : string) (fs : gmap string string) :
  history_text (append_line url fs) =
    history_text fs +:+ history_lines [url].
Proof.
  unfold history_text, append_line. rewrite lookup_insert_eq. done.
Qed.

Lemma history_text_insert (fs : gmap string string) (name content : string) :
  name <> history_file ->
  history_text (<[name := content]> fs) = history_text fs.
Proof. intros Hne. unfold history_text. by rewrite lookup_insert_ne. Qed.

Lemma download_pdf_record (env : Env) (url : string) (filename : option string)
    (s : PDFScraper) :
  exists ok s',
    download_pdf env url filename s = (Returns ok, s') /\
    (ok = true -> url ∉ downloaded_urls s) /\
    downloaded_urls s' = downloaded_urls s ∪ list_to_set (recorded ok url) /\
    size (downloaded_hashes s') =
      (size (downloaded_hashes s) + length (recorded ok url))%nat /\
    history_text (files s') =
      history_text (files s) +:+ history_lines (recorded ok url) /\
    store_record env s s' (recorded ok url).
Proof.
  destruct (download_pdf_outcome env url filename s) as (ok & s' & Hrun & Hcase).
  exists ok, s'. split; [done|].
  pose proof (download_outcome_grown env url filename s s' ok Hcase) as Hgrown.
  assert (forall (t : PDFScraper),
             grown (files s) (files t) ->
             downloaded_urls t = downloaded_urls s ->
             downloaded_hashes t = downloaded_hashes s ->
             history_text (files t) = history_text (files s) ->
             (false = true -> url ∉ downloaded_urls s) /\
             downloaded_urls t = downloaded_urls s ∪ list_to_set (recorded false url) /\
             size (downloaded_hashes t) =
               (size (downloaded_hashes s) + length (recorded false url))%nat /\
             history_text (files t) =
               history_text (files s) +:+ history_lines (recorded false url) /\
             store_record env s t (recorded false url))
    as Hsame.
  { intros t Hg Hurls Hhashes Htext.
    cbn [recorded list_to_set length history_lines].
    rewrite Hurls, Hhashes, Htext, app_nil_r.
    split_and!; [done|set_solver|lia|done|].
    unfold store_record. cbn [omap list_omap list_to_set].
    split_and!; [done|constructor|constructor| |constructor].
    rewrite Hhashes. set_solver. }
  destruct Hcase as [Hin|Hout Hget|response Hout Hget Hstatus
                    |response name Hout Hget Hstatus Hname Hbreak
                    |response name Hout Hget Hstatus Hname Hbreak Hdup
                    |response name Hout Hget Hstatus Hname Hbreak Hnew];
    try (by apply Hsame).
  - apply stored_name_fresh in Hname as (Hfree & Hpdf & Hne).
    apply Hsame; [done|done|done|]. cbn. by apply history_text_insert.
  - apply stored_name_fresh in Hname as (Hfree & Hpdf & Hne).
    rewrite write_then_delete in * by done. by apply Hsame.
  - pose proof (digest_of_stored env url response Hget Hstatus Hbreak) as Hdigest.
    apply stored_name_fresh in Hname as (Hfree & Hpdf & Hne).
    unfold store_record.
    cbn [recorded list_to_set length history_lines downloaded_urls
         downloaded_hashes files set_files record_download omap list_omap] in *.
    rewrite Hdigest. cbn [list_to_set].
    split_and!; [done| | | |done| | | |].
    + set_solver.
    + rewrite size_union by set_solver. rewrite size_singleton. lia.
    + by rewrite history_text_append, history_text_insert.
    + repeat constructor. by eexists.
    + apply NoDup_singleton.
    + set_solver.
    + repeat constructor. exists response, name. split_and!; [done|done|done|].
      unfold append_line. rewrite lookup_insert_ne by done.
      by rewrite lookup_insert_eq.
Qed.

Lemma store_record_nil (env : Env) (s : PDFScraper) : store_record env s s [].
Proof.
  unfold store_record. cbn [omap list_omap list_to_set].
  split_and!; [apply grown_refl|constructor|constructor|set_solver|constructor].
Qed.

Lemma stored_in_grown (env : Env) (before after : gmap string string) (u : string) :
  grown before after -> stored_in env before u -> stored_in env after u.
Proof.
  intros (Hkeep & _) (response & name & Hget & Hne & Hpdf & Hfile).
  exists response, name. split_and!; [done|done|done|].
  eapply lookup_weaken; [|exact Hkeep]. by rewrite lookup_delete_ne.
Qed.

Lemma store_record_app (env : Env) (s s1 s2 : PDFScraper) (L1 L2 : list string) :
  store_record env s s1 L1 -> store_record env s1 s2 L2 ->
  store_record env s s2 (L1 ++ L2).
Proof.
  intros (Hg1 & Hnew1 & Hnd1 & Hh1 & Hst1) (Hg2 & Hnew2 & Hnd2 & Hh2 & Hst2).
  unfold store_record. rewrite omap_app, list_to_set_app_L.
  split_and!.
  - by eapply grown_trans.
  - apply Forall_app. split; [done|].
    eapply Forall_impl; [exact Hnew2|]. cbn. intros u (h & Hd & Hh).
    exists h. split; [done|]. rewrite Hh1 in Hh. set_solver.
  - apply NoDup_app. split_and!; [done| |done].
    intros h Hin1 (u & Hu & Hd)%list_elem_of_omap.
    rewrite Forall_forall in Hnew2.
    destruct (Hnew2 u Hu) as (h' & Hd' & Hh'). rewrite Hd in Hd'.
    injection Hd' as <-. apply Hh'. rewrite Hh1.
    apply elem_of_union_r. by apply elem_of_list_to_set.
  - rewrite Hh2, Hh1. set_solver.
  - apply Forall_app. split; [|done].
    eapply Forall_impl; [exact Hst1|]. cbn. intros u.
    by apply stored_in_grown.
Qed.

Lemma run_record_nil (s : PDFScraper) (links : list string) :
  run_record s s links [].
Proof.
  unfold run_record. split_and!.
  - constructor.
  - apply sublist_nil_l.
  - set_solver.
  - set_solver.
  - cbn. lia.
  - cbn. by rewrite app_nil_r.
Qed.

Lemma run_record_app (s s1 s2 : PDFScraper) (links1 links2 L1 L2 : list string) :
  run_record s s1 links1 L1 -> run_record s1 s2 links2 L2 ->
  run_record s s2 (links1 ++ links2) (L1 ++ L2).
Proof.
  intros (Hnd1 & Hsub1 & Hout1 & Hurls1 & Hh1 & Ht1)
         (Hnd2 & Hsub2 & Hout2 & Hurls2 & Hh2 & Ht2).
  split_and!.
  - apply NoDup_app. split_and!; [done| |done].
    intros u Hu1 Hu2. apply (Hout2 u Hu2). rewrite Hurls1. set_solver.
  - by apply sublist_app.
  - intros u [Hu|Hu]%elem_of_app; [by apply Hout1|].
    specialize (Hout2 u Hu). rewrite Hurls1 in Hout2. set_solver.
  - rewrite Hurls2, Hurls1, list_to_set_app_L. set_solver.
  - rewrite Hh2, Hh1, length_app. lia.
  - by rewrite Ht2, Ht1, history_lines_app, app_assoc.
Qed.

Lemma download_each_record (env : Env) (links : list string) (n : Z)
    (s : PDFScraper) :
  exists L s',
    download_each env links n s = (Returns (n + Z.of_nat (length L)), s') /\
    run_record s s' links L /\ store_record env s s' L.
Proof.
  revert n s. induction links as [|u links IH]; intros n s.
  - exists [], s. split; [cbn; unfold ret; do 2 f_equal; lia|].
    split; [apply run_record_nil|apply store_record_nil].
  - destruct (download_pdf_record env u None s)
      as (ok & s1 & Hrun & Hout & Hurls & Hh & Ht & Hstore).
    destruct (IH (if ok then n + 1 else n) s1)
      as (L & s2 & Hrest & Hrec & Hstore').
    exists (recorded ok u ++ L)%list, s2. split_and!;
      [| |by eapply store_record_app].
    + cbn [download_each]. unfold bind. rewrite Hrun, Hrest.
      do 2 f_equal. rewrite length_app. destruct ok; cbn; lia.
    + apply (run_record_app s s1 s2 [u] links); [|done].
      split_and!; try done.
      * destruct ok; cbn; [apply NoDup_singleton|constructor].
      * destruct ok; cbn; [done|apply sublist_nil_l].
      * destruct ok; cbn; [|set_solver].
        intros v ->%list_elem_of_singleton. by apply Hout.
Qed.

Lemma scrape_page_record (env : Env) (url : string) (s : PDFScraper) :
  exists L s',
    scrape_page env url s = (Returns (Z.of_nat (length L)), s') /\
    run_record s s' (page_links env url) L /\ store_record env s s' L.
Proof.
  unfold scrape_page, try_except, page_links.
  destruct (requests_get env url) as [response|].
  - destruct (Z.eqb_spec (status_code response) 200) as [Hstatus|Hstatus];
      cbn [negb].
    + destruct (extract_pdf_links env (pdf_containers response) url)
        as [pdf_links|]; cbn [default].
      * destruct (download_each_record env pdf_links 0 s)
          as (L & s' & Hrun & Hrec).
        exists L, s'. rewrite Hrun. by split.
      * exists [], s. split; [done|].
        split; [apply run_record_nil|apply store_record_nil].
    + exists [], s. split; [done|].
      split; [apply run_record_nil|apply store_record_nil].
  - exists [], s. split; [done|].
    split; [apply run_record_nil|apply store_record_nil].
Qed.

Lemma scrape_pages_record (env : Env) (urls : list string) (total : Z)
    (s : PDFScraper) :
  exists L s',
    scrape_pages env urls total s =
      (Returns (total + Z.of_nat (length L)), s') /\
    run_record s s' (candidates env urls) L /\ store_record env s s' L.
Proof.
  revert total s. induction urls as [|url urls IH]; intros total s.
  - exists [], s. split; [cbn; unfold ret; do 2 f_equal; lia|].
    split; [apply run_record_nil|apply store_record_nil].
  - destruct (scrape_page_record env url s)
      as (L1 & s1 & Hrun & Hrec1 & Hstore1).
    destruct (IH (total + Z.of_nat (length L1)) s1)
      as (L2 & s2 & Hrest & Hrec2 & Hstore2).
    exists (L1 ++ L2)%list, s2. split_and!; [| |by eapply store_record_app].
    + cbn [scrape_pages]. unfold bind. rewrite Hrun, Hrest.
      do 2 f_equal. rewrite length_app. lia.
    + unfold candidates. cbn [flat_map]. by eapply run_record_app.
Qed.

(** X15: the count is the record. [scrape_multiple_pages] returns the
    number of documents it stored, and these are accounted for one by
    one: there is a list of links, each taken once and in the order of the
    pages and of their anchors, none of them in the history before, such
    that its length is the number returned, its URLs are what the history
    in memory gained, its lines are what was appended to the history
    file, and the set of digests grew by one for each. *)
Theorem scrape_count_is_recorded (env : Env) (urls : list string)
    (s : PDFScraper) :
  exists L s',
    scrape_multiple_pages env urls s = (Returns (Z.of_nat (length L)), s') /\
    NoDup L /\ L `sublist_of` candidates env urls /\
    (forall u, u ∈ L -> u ∉ downloaded_urls s) /\
    downloaded_urls s' = downloaded_urls s ∪ list_to_set L /\
    size (downloaded_hashes s') = (size (downloaded_hashes s) + length L)%nat /\
    history_text (files s') = history_text (files s) +:+ history_lines L.
Proof.
  destruct (scrape_pages_record env urls 0 s) as (L & s' & Hrun & Hrec & _).
  exists L, s'. split; [|done]. unfold scrape_multiple_pages. by rewrite Hrun.
Qed.

(** X22: no content is kept twice, and what is counted is on disk. For
    the links a call of [scrape_multiple_pages] stored (its count is
    their number, and they are what the history in memory gained): each
    was served with a digest that was not in the set of digests before,
    no two of them have the same digest, their digests are exactly what
    the set of digests gained, and at the end of the run the directory
    holds, for each of them, a file other than the history file, with a
    name ending in [.pdf], whose content is the body the server sent. *)
Theorem run_keeps_each_content_once (env : Env) (urls : list string)
    (s : PDFScraper) :
  exists L s',
    scrape_multiple_pages env urls s = (Returns (Z.of_nat (length L)), s') /\
    downloaded_urls s' = downloaded_urls s ∪ list_to_set L /\
    Forall (fun u => exists h, digest_of env u = Some h /\
                               h ∉ downloaded_hashes s) L /\
    NoDup (omap (digest_of env) L) /\
    downloaded_hashes s' =
      downloaded_hashes s ∪ list_to_set (omap (digest_of env) L) /\
    Forall (stored_in env (files s')) L.
Proof.
  destruct (scrape_pages_record env urls 0 s)
    as (L & s' & Hrun & (_ & _ & _ & Hurls & _) & (_ & Hnew & Hnd & Hh & Hst)).
  exists L, s'. unfold scrape_multiple_pages. rewrite Hrun. by split_and!.
Qed.

(** *** Text files, line by line *)

Lemma lines_unfold (u : string) (rest : list string) :
  history_lines (u :: rest) =
    (u +:+ String LF EmptyString) +:+ history_lines rest.
Proof. cbn [history_lines]. by rewrite app_assoc, app_cons, app_nil_l. Qed.

Lemma history_lines_head (L : list string) :
  Forall (fun u => line_safe u = true) L ->
  history_lines L = EmptyString \/
  exists c rest, history_lines L = String c rest /\ Ascii.eqb c LF = false.
Proof.
  intros HL. destruct HL as [|u L Hu _]; [by left|]. right.
  apply line_safe_spec in Hu as (Hne & Hlf & _).
  destruct u as [|c u]; [done|]. cbn [has_char] in Hlf.
  apply orb_false_iff in Hlf as [Hc _].
  cbn [history_lines]. rewrite app_cons. by eexists _, _.
Qed.

Lemma readlines_app_lines (text : string) (L : list string) :
  terminated text = true -> Forall (fun u => line_safe u = true) L ->
  readlines (text +:+ history_lines L) =
    (readlines text ++ readlines (history_lines L))%list.
Proof.
  intros Hterm HL.
  destruct (history_lines_head L HL) as [->|(c & rest & -> & Hc)].
  - rewrite app_nil_r. cbn [readlines]. by rewrite List.app_nil_r.
  - by apply readlines_app.
Qed.

Lemma readlines_history_lines (L : list string) :
  Forall (fun u => line_safe u = true) L ->
  readlines (history_lines L) = map (fun u => u +:+ String LF EmptyString) L.
Proof.
  induction 1 as [|u L Hu HL IH]; [done|].
  rewrite lines_unfold, readlines_app_lines by (done || apply terminated_app_LF).
  apply line_safe_spec in Hu as (_ & Hlf & Hcr & _).
  by rewrite readlines_one_line, IH.
Qed.

Lemma strip_lines (L : list string) :
  Forall (fun u => line_safe u = true) L ->
  map strip (map (fun u => u +:+ String LF EmptyString) L) = L.
Proof.
  induction 1 as [|u L Hu HL IH]; [done|]. cbn [map]. rewrite IH.
  apply line_safe_spec in Hu as (_ & _ & _ & Hstrip).
  by rewrite strip_line.
Qed.

Lemma terminated_history_lines (text : string) (L : list string) :
  terminated text = true -> terminated (text +:+ history_lines L) = true.
Proof.
  revert text. induction L as [|u L IH]; intros text Hterm.
  - cbn. by rewrite app_nil_r.
  - rewrite lines_unfold, <- !app_assoc. apply IH, terminated_app_LF.
Qed.

Lemma read_history_text (fs : gmap string string) :
  read_history fs = list_to_set (map strip (readlines (history_text fs))).
Proof.
  unfold read_history, history_text. by destruct (fs !! history_file).
Qed.

Lemma history_terminated_text (fs : gmap string string) :
  history_terminated fs = terminated (history_text fs).
Proof.
  unfold history_terminated, history_text. by destruct (fs !! history_file).
Qed.

(** X16: the history file keeps up with the history in memory. After a
    run on a directory whose history file was absent, empty or ended in a
    line break, over links that can each be written on a line and read
    back, a new [PDFScraper] on the directory loads exactly the set of
    URLs the run ended with, and the file again ends in a line break. *)
Theorem restart_recovers_history (env : Env) (urls : list string)
    (dir : gmap string string) :
  history_terminated dir = true ->
  forallb line_safe (candidates env urls) = true ->
  let s' := snd (scrape_multiple_pages env urls (__init__ dir)) in
  downloaded_urls (__init__ (files s')) = downloaded_urls s' /\
  history_terminated (files s') = true.
Proof.
  intros Hterm Hsafe. cbn zeta.
  destruct (scrape_pages_record env urls 0 (__init__ dir))
    as (L & s' & Hrun & (_ & Hsub & _ & Hurls & _ & Htext) & _).
  unfold scrape_multiple_pages. rewrite Hrun. cbn [snd].
  assert (Forall (fun u => line_safe u = true) L) as HL.
  { apply Forall_forall. intros u Hu.
    rewrite forallb_forall in Hsafe. apply Hsafe, list_elem_of_In.
    by eapply elem_of_sublist. }
  rewrite history_terminated_text in *. cbn [files __init__] in Htext.
  split; [|rewrite Htext; by apply terminated_history_lines].
  cbn [downloaded_urls __init__] in *.
  rewrite Hurls, !read_history_text, Htext.
  rewrite readlines_app_lines, readlines_history_lines by done.
  by rewrite map_app, list_to_set_app_L, strip_lines.
Qed.

Lemma restart_recovers_history_witness :
  let env := two_links "http://doj.example/a.pdf" "http://doj.example/b.pdf"
               "first document" "second document" in
  let urls := ["http://doj.example/press"] in
  let s' := snd (scrape_multiple_pages env urls (__init__ ∅)) in
  downloaded_urls (__init__ (files s')) = downloaded_urls s'.
Proof.
  intros env urls.
  apply (restart_recovers_history env urls ∅); reflexivity.
Defined.

(** *** The page list *)

Lemma lstrip_head (s : string) :
  match lstrip s with
  | EmptyString => True
  | String c _ => isspace c = false
  end.
Proof.
  induction s as [|c s IH]; [done|]. cbn [lstrip].
  by destruct (isspace c) eqn:Hc.
Qed.

Lemma rstrip_head (c : ascii) (s : string) :
  isspace c = false -> exists r, rstrip (String c s) = String c r.
Proof.
  intros Hc. cbn [rstrip]. rewrite Hc. destruct (rstrip s); by eexists.
Qed.

Lemma rstrip_idem (s : string) : rstrip (rstrip s) = rstrip s.
Proof.
  induction s as [|c s IH]; [done|]. cbn [rstrip].
  destruct (rstrip s) as [|a r] eqn:Hr.
  - destruct (isspace c) eqn:Hc; [done|]. cbn. by rewrite Hc.
  - cbn [rstrip] in *. by rewrite IH.
Qed.

Lemma strip_idem (s : string) : strip (strip s) = strip s.
Proof.
  unfold strip. pose proof (lstrip_head s) as Hhead.
  destruct (lstrip s) as [|c t]; [done|].
  destruct (rstrip_head c t Hhead) as [r Hr]. rewrite Hr.
  cbn [lstrip]. rewrite Hhead, <- Hr. apply rstrip_idem.
Qed.

Lemma lstrip_app_space (s : string) (c : ascii) :
  isspace c = true ->
  lstrip (s +:+ String c EmptyString) =
    match lstrip s with
    | EmptyString => EmptyString
    | t => t +:+ String c EmptyString
    end.
Proof.
  intros Hc. induction s as [|a s IH].
  - rewrite app_nil_l. cbn. by rewrite Hc.
  - rewrite app_cons. cbn [lstrip]. destruct (isspace a); [done|].
    by rewrite app_cons.
Qed.

Lemma strip_app_space (s : string) (c : ascii) :
  isspace c = true -> strip (s +:+ String c EmptyString) = strip s.
Proof.
  intros Hc. unfold strip. rewrite lstrip_app_space by done.
  destruct (lstrip s) as [|a t]; [done|]. by apply rstrip_app_space.
Qed.

Lemma has_char_lstrip (c : ascii) (s : string) :
  has_char c s = false -> has_char c (lstrip s) = false.
Proof.
  induction s as [|a s IH]; [done|]. cbn [lstrip has_char].
  intros [Ha Hs]%orb_false_iff. destruct (isspace a); [by apply IH|].
  cbn [has_char]. by rewrite Ha, Hs.
Qed.

Lemma has_char_rstrip (c : ascii) (s : string) :
  has_char c s = false -> has_char c (rstrip s) = false.
Proof.
  induction s as [|a s IH]; [done|]. cbn [rstrip has_char].
  intros [Ha Hs]%orb_false_iff. specialize (IH Hs).
  destruct (rstrip s) as [|b r].
  - destruct (isspace a); [done|]. cbn [has_char]. by rewrite Ha.
  - cbn [has_char] in *. by rewrite Ha, IH.
Qed.

Lemma has_char_strip (c : ascii) (s : string) :
  has_char c s = false -> has_char c (strip s) = false.
Proof. intros H. by apply has_char_rstrip, has_char_lstrip. Qed.

Lemma readlines_shape (text : string) :
  Forall (fun l => exists b, (l = b \/ l = b +:+ String LF EmptyString) /\
                             has_char LF b = false /\ has_char CR b = false)
         (readlines text).
Proof.
  remember (String.length text) as n eqn:Hn.
  assert (String.length text <= n)%nat as Hlen by lia. clear Hn.
  revert text Hlen. induction n as [|n IH]; intros text Hlen.
  { destruct text; [constructor|cbn in Hlen; lia]. }
  destruct text as [|c rest]; [constructor|]. cbn [String.length] in Hlen.
  cbn [readlines].
  assert (exists b, (String LF EmptyString = b \/
                     String LF EmptyString = b +:+ String LF EmptyString) /\
                    has_char LF b = false /\ has_char CR b = false) as Hbreak
    by (exists EmptyString; by split_and!; [right| |]).
  destruct (Ascii.eqb c LF) eqn:Hc.
  { constructor; [done|]. apply IH. lia. }
  destruct (Ascii.eqb c CR) eqn:Hc'.
  { destruct rest as [|c2 rest2]; [by repeat constructor|].
    cbn [String.length] in Hlen.
    destruct (Ascii.eqb c2 LF); (constructor; [done|]); apply IH;
      cbn [String.length]; lia. }
  pose proof (IH rest ltac:(lia)) as Hrest.
  destruct (readlines rest) as [|l ls].
  - repeat constructor. exists (String c EmptyString).
    cbn [has_char]. rewrite Hc, Hc'. by split_and!; [left| |].
  - inversion Hrest as [|? ? (b & Hl & Hlf & Hcr) Hls]; subst.
    constructor; [|done]. exists (String c b). cbn [has_char].
    rewrite Hc, Hc', Hlf, Hcr. split_and!; [|done|done].
    destruct Hl as [->| ->]; [by left|right]. by rewrite app_cons.
Qed.

Lemma isspace_LF : isspace LF = true.
Proof. reflexivity. Qed.

(** X17: what [load_urls_from_file] hands on. A missing file raises.
    Otherwise the list returned has at most one entry per line, and every
    entry is a clean URL line: not empty, free of line breaks, without
    white space at either end; so each of them survives being written on
    a line of another file and read back. *)
Theorem loaded_urls_are_clean (disk : gmap string string) (file_path : string) :
  match load_urls_from_file disk file_path with
  | Returns urls =>
      exists text, disk !! file_path = Some text /\
                   (length urls <= length (readlines text))%nat /\
                   Forall (fun u => line_safe u = true) urls
  | Raises => disk !! file_path = None
  | Diverges => False
  end.
Proof.
  unfold load_urls_from_file.
  destruct (disk !! file_path) as [text|]; [|done].
  exists text. split_and!; [done| |].
  - etrans; [apply length_filter|]. by rewrite length_map.
  - apply Forall_forall. intros u [Hne Hu]%list_elem_of_filter.
    apply list_elem_of_fmap in Hu as (l & -> & Hl).
    pose proof (readlines_shape text) as Hshape.
    rewrite Forall_forall in Hshape.
    destruct (Hshape l Hl) as (b & Hb & Hlf & Hcr).
    assert (strip l = strip b) as Hstrip.
    { destruct Hb as [->| ->]; [done|]. apply strip_app_space, isspace_LF. }
    rewrite Hstrip in *. unfold line_safe.
    rewrite strip_idem, String.eqb_refl, !has_char_strip by done.
    destruct (String.eqb_spec (strip b) EmptyString) as [Heq|]; [|done].
    by rewrite Heq in Hne.
Qed.

Lemma load_lines (lines : list string) (disk : gmap string string)
    (file_path : string) :
  Forall (fun u => line_safe u = true) lines ->
  load_urls_from_file (<[file_path := history_lines lines]> disk) file_path =
    Returns lines.
Proof.
  intros Hsafe. unfold load_urls_from_file. rewrite lookup_insert_eq.
  rewrite readlines_history_lines, strip_lines by done. f_equal.
  induction Hsafe as [|u L Hu HL IH]; [done|].
  apply line_safe_spec in Hu as (Hne & _).
  rewrite filter_cons_True by done. by rewrite IH.
Qed.

Lemma write_lines_history_lines (lines : list string) :
  Crawler.write_lines lines = history_lines lines.
Proof. induction lines as [|l ls IH]; [done|]. cbn. by rewrite IH. Qed.

(** X18: the page list comes back as it was written. A file that holds
    one clean URL per line, each followed by a line break, as [crawl]
    writes its output file, is loaded by [load_urls_from_file] as exactly
    that list, in the same order. *)
Theorem written_lines_load_back (lines : list string)
    (disk : gmap string string) (file_path : string) :
  forallb line_safe lines = true ->
  load_urls_from_file (<[file_path := Crawler.write_lines lines]> disk) file_path
    = Returns lines.
Proof.
  intros Hsafe. rewrite write_lines_history_lines. apply load_lines.
  apply Forall_forall. intros u Hu%list_elem_of_In.
  rewrite forallb_forall in Hsafe. by apply Hsafe.
Qed.

Lemma written_lines_load_back_witness :
  let lines := ["http://example.com/a"; "http://example.com/b"] in
  load_urls_from_file
    {[ "./url-extractor/discovered_urls.txt" := Crawler.write_lines lines ]}
    "./url-extractor/discovered_urls.txt" = Returns lines.
Proof.
  intros lines.
  rewrite <- (insert_empty (M := gmap string)).
  apply (written_lines_load_back lines ∅). reflexivity.
Defined.

(** *** The program *)

(** X19: the program fails only for want of its page list. When the
    list file is missing the script stops with the exception and the
    output directory is as it was. Otherwise it runs to the end and
    returns a count that is not negative, whatever the network does, and
    the output directory has only grown: documents that were there are
    untouched and the history file was only appended to. *)
Theorem script_fails_only_without_list (env : Env) (disk : gmap string string)
    (dir : gmap string string) :
  match disk !! "./url-extractor/discovered_urls.txt" with
  | None => script env disk dir = (Raises, dir)
  | Some _ =>
      exists n, fst (script env disk dir) = Returns n /\ 0 <= n /\
                grown dir (snd (script env disk dir))
  end.
Proof.
  unfold script, load_urls_from_file.
  destruct (disk !! "./url-extractor/discovered_urls.txt") as [text|]; [|done].
  set (urls := filter _ _). unfold run.
  destruct (scrape_pages_record env urls 0 (__init__ dir))
    as (L & s' & Hrun & _).
  pose proof (scrape_pages_grown env urls 0 (__init__ dir)) as Hgrown.
  unfold scrape_multiple_pages. rewrite Hrun in *. cbn [fst snd] in *.
  exists (Z.of_nat (length L)). split_and!; [f_equal; lia|lia|done].
Qed.

(** *** From the discoverer to the acquirer *)

Lemma encode_utf8_ascii_lines (lines : list string) :
  Forall (fun u => all_chars (fun c => (ord c <? 128)%N) u = true) lines ->
  map encode_utf8 lines = lines.
Proof.
  induction 1 as [|u L Hu HL IH]; [done|]. cbn [map].
  by rewrite IH, encode_utf8_ascii.
Qed.

(** X20: what [crawl] writes is what the acquirer loads. When every
    discovered URL is a clean line of ASCII characters, so that the bytes
    [crawl] writes are the text any ASCII-compatible encoding reads,
    [load_urls_from_file] on the output file returns the discovered URLs,
    each once, in ascending order. *)
Theorem crawl_output_loads_back (web : Crawler.Web)
    (sched : Z -> list Crawler.action) (fs : gmap string string)
    (self : Crawler.WebCrawler) :
  forallb (fun u => line_safe u && all_chars (fun c => (ord c <? 128)%N) u)
          (Crawler.output_lines (Crawler.final (Crawler.crawl web sched fs self)))
    = true ->
  load_urls_from_file (Crawler.disk (Crawler.crawl web sched fs self))
                      (Crawler.output_file self) =
    Returns (Crawler.output_lines
               (Crawler.final (Crawler.crawl web sched fs self))).
Proof.
  intros Hclean. rewrite CrawlerMoreSpec.crawl_disk_final.
  set (lines := Crawler.output_lines _) in *.
  assert (Forall (fun u => line_safe u = true) lines /\
          Forall (fun u => all_chars (fun c => (ord c <? 128)%N) u = true) lines)
    as [Hsafe Hascii].
  { rewrite forallb_forall in Hclean.
    split; apply Forall_forall; intros u Hu%list_elem_of_In;
      by destruct (andb_prop _ _ (Hclean u Hu)). }
  rewrite CrawlerSpec.encode_utf8_lines, encode_utf8_ascii_lines by done.
  rewrite write_lines_history_lines. by apply load_lines.
Qed.

Lemma crawl_output_loads_back_witness :
  let start := "http://example.com/" in
  let web := Crawler.one_page start
               ["http://example.com/b"; "http://example.com/a"] in
  let r := Crawler.crawl web Crawler.idle ∅ (Crawler.example_crawler start) in
  load_urls_from_file (Crawler.disk r) "./discovered_urls.txt" =
    Returns ["http://example.com/a"; "http://example.com/b"].
Proof.
  intros start web r.
  assert (Crawler.output_lines (Crawler.final r) =
          ["http://example.com/a"; "http://example.com/b"]) as Hlines
    by (by vm_compute).
  rewrite <- Hlines.
  apply (crawl_output_loads_back web Crawler.idle ∅
           (Crawler.example_crawler start)).
  fold r. rewrite Hlines. reflexivity.
Defined.

End ScraperMoreSpec.
